(** * gipp: the address parser and the pattern engine of cmd/matcher.go

    A shallow embedding of [ParseIp], [ParsePattern] and the two [Match]
    methods, together with the pieces of Go's [strings] and [strconv]
    packages they call.  Go's [int] is modelled by [Z], a [byte] by a [Z] in
    [0, 255], a [string] by the list of its bytes, a fixed-size array by the
    list of its elements.  A Go call either returns a value, returns a
    non-nil [error], or panics; the three outcomes are kept apart. *)

From Stdlib Require Import ZArith List Ascii String Bool Lia.
Import ListNotations.
Open Scope Z_scope.

(** ** Outcomes of a Go call *)

(** var ( ErrInvalidIP = ...; ErrInvalidPattern = ... ) *)
Inductive error : Type :=
| ErrInvalidIP
| ErrInvalidPattern.

Inductive go (A : Type) : Type :=
| Val (a : A)          (* return a, nil *)
| Fail (e : error)     (* return <zero>, e *)
| Panic.               (* run-time panic *)

Arguments Val {A} a.
Arguments Fail {A} e.
Arguments Panic {A}.

Definition bind {A B : Type} (m : go A) (k : A -> go B) : go B :=
  match m with
  | Val a => k a
  | Fail e => Fail e
  | Panic => Panic
  end.

Notation "x <- m ;; k" := (bind m (fun x => k))
  (at level 61, m at next level, right associativity).

(** ** Go strings *)

Definition gostring : Type := list ascii.

Definition str (s : string) : gostring := list_ascii_of_string s.

Definition len {A : Type} (s : list A) : Z := Z.of_nat (List.length s).

Definition code (c : ascii) : Z := Z.of_N (N_of_ascii c).

Fixpoint streq (a b : gostring) : bool :=
  match a, b with
  | [], [] => true
  | x :: a', y :: b' => Ascii.eqb x y && streq a' b'
  | _, _ => false
  end.

(** s[:i] and s[i:].  Every slice expression of matcher.go is guarded by the
    test that makes its index lie inside the string (see [Index_range],
    [HasPrefix_len] and [HasSuffix_len] below), so no slice can panic. *)
Definition sliceTo (s : gostring) (i : Z) : gostring := firstn (Z.to_nat i) s.
Definition sliceFrom (s : gostring) (i : Z) : gostring := skipn (Z.to_nat i) s.

(** The [strings] package, for a non-empty [substr] / [sep], which is what
    every call of matcher.go passes. *)
Module strings.

Fixpoint HasPrefix (s prefix : gostring) {struct prefix} : bool :=
  match prefix with
  | [] => true
  | p :: prefix' =>
      match s with
      | [] => false
      | c :: s' => Ascii.eqb c p && HasPrefix s' prefix'
      end
  end.

Definition HasSuffix (s suffix : gostring) : bool :=
  (len suffix <=? len s) && streq (sliceFrom s (len s - len suffix)) suffix.

(** Index of the first instance of [substr], or -1. *)
Fixpoint Index (s substr : gostring) : Z :=
  if HasPrefix s substr then 0
  else match s with
       | [] => -1
       | _ :: s' => let i := Index s' substr in
                    if i <? 0 then -1 else i + 1
       end.

Definition Contains (s substr : gostring) : bool := 0 <=? Index s substr.

(** Number of non-overlapping instances of [substr], found left to right:
    after a hit the scan resumes behind it ([skip] bytes are passed over). *)
Fixpoint countFrom (substr : gostring) (skip : nat) (s : gostring) : Z :=
  match s with
  | [] => 0
  | _ :: s' =>
      match skip with
      | S k => countFrom substr k s'
      | O => if HasPrefix s substr
             then 1 + countFrom substr (List.length substr - 1) s'
             else countFrom substr 0 s'
      end
  end.

Definition Count (s substr : gostring) : Z := countFrom substr 0 s.

(** Repeat panics when [count] is negative. *)
Definition Repeat (s : gostring) (count : Z) : go gostring :=
  if count <? 0 then Panic
  else Val (List.concat (repeat s (Z.to_nat count))).

Fixpoint splitFrom (sep : gostring) (skip : nat) (s : gostring)
  : list gostring :=
  match s with
  | [] => [[]]
  | c :: s' =>
      match skip with
      | S k => splitFrom sep k s'
      | O => if HasPrefix s sep
             then [] :: splitFrom sep (List.length sep - 1) s'
             else match splitFrom sep 0 s' with
                  | h :: t => (c :: h) :: t
                  | [] => [[c]]
                  end
      end
  end.

Definition Split (s sep : gostring) : list gostring := splitFrom sep 0 s.

Fixpoint Join (elems : list gostring) (sep : gostring) : gostring :=
  match elems with
  | [] => []
  | [a] => a
  | a :: rest => a ++ sep ++ Join rest sep
  end.

End strings.

(** [strconv.Atoi] on a 64-bit platform: an optional sign, then at least one
    decimal digit and nothing else; the value has to fit an [int].  [None]
    stands for a non-nil error (matcher.go only tests [err != nil]). *)
Module strconv.

Definition isSign (c : ascii) : bool := Ascii.eqb c "-" || Ascii.eqb c "+".

(** for _, ch := range []byte(s) { ch -= '0'; if ch > 9 { error };
    n = n*10 + int(ch) } *)
Fixpoint digits (s : gostring) (n : Z) : option Z :=
  match s with
  | [] => Some n
  | ch :: s' =>
      let d := code ch - code "0" in
      if (0 <=? d) && (d <=? 9) then digits s' (n * 10 + d) else None
  end.

Definition Atoi (s : gostring) : option Z :=
  match s with
  | [] => None
  | c :: s' =>
      let body := if isSign c then s' else s in
      match body with
      | [] => None
      | _ =>
          match digits body 0 with
          | None => None
          | Some n =>
              let n := if Ascii.eqb c "-" then - n else n in
              if (- 2 ^ 63 <=? n) && (n <=? 2 ^ 63 - 1) then Some n
              else None
          end
      end
  end.

End strconv.

(** ** Addresses *)

(** type IPv6Address struct { IP [16]byte } *)
Record IPv6Address : Type := mkIPv6Address { IP6 : list Z }.

(** type IPv4Address struct { IP [4]byte } *)
Record IPv4Address : Type := mkIPv4Address { IP4 : list Z }.

(** type IPAddress interface { Bytes() []byte; Version() int } *)
Inductive IPAddress : Type :=
| V6 (ip : IPv6Address)
| V4 (ip : IPv4Address).

Definition Bytes (ip : IPAddress) : list Z :=
  match ip with
  | V6 a => IP6 a
  | V4 a => IP4 a
  end.

Definition Version (ip : IPAddress) : Z :=
  match ip with
  | V6 _ => 6
  | V4 _ => 4
  end.

(** a[i] = v on an array; [i] is in range at every use. *)
Fixpoint setAt (a : list Z) (i : nat) (v : Z) : list Z :=
  match a, i with
  | [], _ => []
  | _ :: a', O => v :: a'
  | x :: a', S k => x :: setAt a' k v
  end.

(** copy(dst[off:], src) *)
Fixpoint copyAt (dst : list Z) (off : nat) (src : list Z) : list Z :=
  match off, dst with
  | _, [] => []
  | S k, x :: dst' => x :: copyAt dst' k src
  | O, x :: dst' =>
      match src with
      | [] => dst
      | y :: src' => y :: copyAt dst' O src'
      end
  end.

(** *** hexToBytes *)

(** The switch of hexToBytes: the value of one hexadecimal digit. *)
Definition hexDigit (c : ascii) : option Z :=
  if (code "0" <=? code c) && (code c <=? code "9") then Some (code c - code "0")
  else if (code "a" <=? code c) && (code c <=? code "f")
       then Some (code c - code "a" + 10)
  else if (code "A" <=? code c) && (code c <=? code "F")
       then Some (code c - code "A" + 10)
  else None.

Fixpoint hexToBytes_loop (s : gostring) (i : nat) (b : list Z) : go (list Z) :=
  match s with
  | [] => Val b
  | c :: s' =>
      match hexDigit c with
      | None => Fail ErrInvalidIP
      | Some n =>
          let b' := if Nat.even i
                    then setAt b (Nat.div i 2) (Z.land (Z.shiftl n 4) 255)
                    else setAt b (Nat.div i 2) (Z.lor (nth (Nat.div i 2) b 0) n) in
          hexToBytes_loop s' (S i) b'
      end
  end.

Definition hexToBytes (s : gostring) : go (list Z) :=
  if negb (len s =? 4) then Fail ErrInvalidIP
  else hexToBytes_loop s 0 [0; 0].

(** *** extendIPv6 *)

Definition dcolon : gostring := str "::".
Definition colon : gostring := str ":".

(** The branch for a "::" that is neither at the start nor at the end. *)
Definition extendMiddle (ipv6 : gostring) : go gostring :=
  if negb (strings.HasPrefix ipv6 dcolon) && negb (strings.HasSuffix ipv6 dcolon)
  then
    let idx := strings.Index ipv6 dcolon in
    let head := sliceTo ipv6 idx in
    let tail := sliceFrom ipv6 (idx + 1) in
    let colonCount := strings.Count ipv6 colon in
    let addedBlockCount := 8 - colonCount in
    addedBlock <- strings.Repeat (str ":0000") addedBlockCount ;;
    Val (head ++ addedBlock ++ tail)
  else Val ipv6.

(** The branch for a leading "::". *)
Definition extendPrefix (ipv6 : gostring) : go gostring :=
  if strings.HasPrefix ipv6 dcolon
  then
    let ipv6 := sliceFrom ipv6 2 in
    let colonCount := strings.Count ipv6 colon in
    let addedBlockCount := 8 - (colonCount + 1) in
    addedBlock <- strings.Repeat (str "0000:") addedBlockCount ;;
    Val (addedBlock ++ ipv6)
  else Val ipv6.

(** The branch for a trailing "::". *)
Definition extendSuffix (ipv6 : gostring) : go gostring :=
  if strings.HasSuffix ipv6 dcolon
  then
    let ipv6 := sliceTo ipv6 (len ipv6 - 2) in
    let colonCount := strings.Count ipv6 colon in
    let addedBlockCount := 8 - (colonCount + 1) in
    addedBlock <- strings.Repeat (str ":0000") addedBlockCount ;;
    Val (ipv6 ++ addedBlock)
  else Val ipv6.

(** The padding loop: every block is brought to four digits. *)
Fixpoint padBlocks (blocks : list gostring) : go (list gostring) :=
  match blocks with
  | [] => Val []
  | b :: rest =>
      if 4 <? len b then Fail ErrInvalidIP
      else
        rest' <- padBlocks rest ;;
        Val ((List.concat (repeat (str "0") (Z.to_nat (4 - len b))) ++ b) :: rest')
  end.

Definition padAndJoin (ipv6 : gostring) : go gostring :=
  blocks <- padBlocks (strings.Split ipv6 colon) ;;
  Val (strings.Join blocks colon).

Definition extendIPv6 (ipv6 : gostring) : go gostring :=
  if 1 <? strings.Count ipv6 dcolon then Fail ErrInvalidIP
  else if strings.Contains ipv6 dcolon
  then
    if streq ipv6 dcolon
    then Val (str "0000:0000:0000:0000:0000:0000:0000:0000")
    else
      s1 <- extendMiddle ipv6 ;;
      s2 <- extendPrefix s1 ;;
      s3 <- extendSuffix s2 ;;
      padAndJoin s3
  else padAndJoin ipv6.

(** *** parseIPv6 *)

Fixpoint parseIPv6_loop (blocks : list gostring) (i : nat) (ipBytes : list Z)
  : go (list Z) :=
  match blocks with
  | [] => Val ipBytes
  | b :: rest =>
      if streq b [] then Fail ErrInvalidIP
      else if 4 <? len b then Fail ErrInvalidIP
      else
        block <- hexToBytes b ;;
        parseIPv6_loop rest (S i) (copyAt ipBytes (i * 2) block)
  end.

Definition parseIPv6 (ip : gostring) : go IPAddress :=
  ip <- extendIPv6 ip ;;
  let blocks := strings.Split ip colon in
  if negb (len blocks =? 8) then Fail ErrInvalidIP
  else
    ipBytes <- parseIPv6_loop blocks 0 (repeat 0 16) ;;
    Val (V6 (mkIPv6Address ipBytes)).

(** *** parseIPv4 *)

Fixpoint parseIPv4_loop (blocks : list gostring) (i : nat) (ipBytes : list Z)
  : go (list Z) :=
  match blocks with
  | [] => Val ipBytes
  | b :: rest =>
      if streq b [] then Fail ErrInvalidIP
      else if 3 <? len b then Fail ErrInvalidIP
      else
        match strconv.Atoi b with
        | None => Fail ErrInvalidIP
        | Some block =>
            if (block <? 0) || (255 <? block) then Fail ErrInvalidIP
            else parseIPv4_loop rest (S i) (setAt ipBytes i (block mod 256))
        end
  end.

Definition parseIPv4 (ip : gostring) : go IPAddress :=
  let blocks := strings.Split ip (str ".") in
  if negb (len blocks =? 4) then Fail ErrInvalidIP
  else
    ipBytes <- parseIPv4_loop blocks 0 (repeat 0 4) ;;
    Val (V4 (mkIPv4Address ipBytes)).

(** *** ParseIp *)

(** The scan for the first separator; [rest] is ip[i:]. *)
Fixpoint ParseIp_loop (ip rest : gostring) : go IPAddress :=
  match rest with
  | [] => Fail ErrInvalidIP
  | c :: rest' =>
      if Ascii.eqb c "." then parseIPv4 ip
      else if Ascii.eqb c ":" then parseIPv6 ip
      else ParseIp_loop ip rest'
  end.

Definition ParseIp (ip : gostring) : go IPAddress := ParseIp_loop ip ip.

Definition v6 (bytes : list Z) : go IPAddress := Val (V6 (mkIPv6Address bytes)).
Definition v4 (bytes : list Z) : go IPAddress := Val (V4 (mkIPv4Address bytes)).

(** ** Patterns *)

(** type IPv6Pattern struct { IP IPv6Address; MaskEnd int; MaskStart int } *)
Record IPv6Pattern : Type := mkIPv6Pattern {
  Pat6_IP : IPv6Address;
  MaskEnd : Z;
  MaskStart : Z
}.

(** type IPv4Pattern struct { IP IPv4Address; Mask [4]byte } *)
Record IPv4Pattern : Type := mkIPv4Pattern {
  Pat4_IP : IPv4Address;
  Mask : list Z
}.

(** type Pattern interface { Match(ip IPAddress) bool }; an interface value
    may be nil. *)
Inductive Pattern : Type :=
| PatNil
| PatV6 (p : IPv6Pattern)
| PatV4 (p : IPv4Pattern).

(** a[i]: an index outside the slice or array panics. *)
Definition index (a : list Z) (i : Z) : go Z :=
  if (i <? 0) || (len a <=? i) then Panic
  else Val (nth (Z.to_nat i) a 0).

(** for i := ...; i < bound; i++ { if ipBytes[i] != p.IP.IP[i] { return false } }
    with [n] the number of iterations left. *)
Fixpoint Match6_loop (p : IPv6Pattern) (ipBytes : list Z) (n : nat) (i : Z)
  : go bool :=
  match n with
  | O => Val true
  | S n' =>
      x <- index ipBytes i ;;
      y <- index (IP6 (Pat6_IP p)) i ;;
      if negb (x =? y) then Val false
      else Match6_loop p ipBytes n' (i + 1)
  end.

(** func (p IPv6Pattern) Match(ip IPAddress) bool *)
Definition Match6 (p : IPv6Pattern) (ip : IPAddress) : go bool :=
  if negb (Version ip =? 6) then Val false
  else
    let ipBytes := Bytes ip in
    Match6_loop p ipBytes (Z.to_nat (MaskEnd p - MaskStart p)) (MaskStart p).

Fixpoint Match4_loop (p : IPv4Pattern) (ipBytes : list Z) (n : nat) (i : Z)
  : go bool :=
  match n with
  | O => Val true
  | S n' =>
      x <- index ipBytes i ;;
      y <- index (IP4 (Pat4_IP p)) i ;;
      m <- index (Mask p) i ;;
      if negb (x =? Z.land y m) then Val false
      else Match4_loop p ipBytes n' (i + 1)
  end.

(** func (p IPv4Pattern) Match(ip IPAddress) bool *)
Definition Match4 (p : IPv4Pattern) (ip : IPAddress) : go bool :=
  if negb (Version ip =? 4) then Val false
  else
    let ipBytes := Bytes ip in
    Match4_loop p ipBytes 32 0.

(** pattern.Match(ip) through the interface; a nil receiver panics. *)
Definition Match (p : Pattern) (ip : IPAddress) : go bool :=
  match p with
  | PatNil => Panic
  | PatV6 p6 => Match6 p6 ip
  | PatV4 p4 => Match4 p4 ip
  end.

(** func parseIPv4Pattern(s string) (Pattern, error) { return nil, nil } *)
Definition parseIPv4Pattern (s : gostring) : go Pattern := Val PatNil.

Definition slash : gostring := str "/".

Definition ipPartOf (s : gostring) : gostring :=
  if strings.Contains s slash
  then let idx := strings.Index s slash in sliceTo s idx
  else s.

Definition maskPartOf (s : gostring) : gostring :=
  if strings.Contains s slash
  then let idx := strings.Index s slash in sliceFrom s idx
  else [].

(** The loop over the mask tokens of parseIPv6Pattern. *)
Fixpoint maskLoop (masks : list gostring) (maskStart maskEnd : Z)
  : go (Z * Z) :=
  match masks with
  | [] => Val (maskStart, maskEnd)
  | m :: rest =>
      if streq m [] then maskLoop rest maskStart maskEnd
      else
        match strconv.Atoi m with
        | None => Fail ErrInvalidPattern
        | Some masklen =>
            if (masklen <? -128) || (128 <? masklen) || (masklen =? 0)
            then Fail ErrInvalidPattern
            else
              let maskEnd := if 0 <? masklen then masklen else maskEnd in
              let maskStart :=
                if masklen <? 0 then 128 + masklen else maskStart in
              maskLoop rest maskStart maskEnd
        end
  end.

(** ip.(IPv6Address): the type assertion panics on another dynamic type. *)
Definition assertIPv6 (ip : IPAddress) : go IPv6Address :=
  match ip with
  | V6 a => Val a
  | V4 _ => Panic
  end.

Definition parseIPv6Pattern (s : gostring) : go Pattern :=
  let ipPart := ipPartOf s in
  ip <- ParseIp ipPart ;;
  let maskPart := maskPartOf s in
  let masks := strings.Split maskPart slash in
  bounds <- maskLoop masks 0 128 ;;
  a <- assertIPv6 ip ;;
  Val (PatV6 (mkIPv6Pattern a (snd bounds) (fst bounds))).

Fixpoint ParsePattern_loop (s rest : gostring) : go Pattern :=
  match rest with
  | [] => Fail ErrInvalidIP
  | c :: rest' =>
      if Ascii.eqb c "." then parseIPv4Pattern s
      else if Ascii.eqb c ":" then parseIPv6Pattern s
      else ParsePattern_loop s rest'
  end.

Definition ParsePattern (s : gostring) : go Pattern := ParsePattern_loop s s.

(** ** What the specification says, in executable form *)

(** Bit [i] of an address, bit 0 being the most significant bit of byte 0. *)
Definition bitAt (bytes : list Z) (i : Z) : bool :=
  Z.testbit (nth (Z.to_nat (i / 8)) bytes 0) (7 - i mod 8).

(** Every bit position [i] with [lo <= i < lo + n] agrees. *)
Fixpoint bitsAgreeFrom (a b : list Z) (lo : Z) (n : nat) : bool :=
  match n with
  | O => true
  | S n' => Bool.eqb (bitAt a lo) (bitAt b lo) && bitsAgreeFrom a b (lo + 1) n'
  end.

Definition bitsAgree (a b : list Z) (maskStart maskEnd : Z) : bool :=
  bitsAgreeFrom a b maskStart (Z.to_nat (maskEnd - maskStart)).

(** A mask token is valid when it is a decimal integer [m] with [m <> 0] and
    [-128 <= m <= 128]. *)
Definition maskValue (m : gostring) : option Z :=
  match strconv.Atoi m with
  | Some v =>
      if (-128 <=? v) && (v <=? 128) && negb (v =? 0) then Some v else None
  | None => None
  end.

(** The values of the non-empty tokens, in order; [None] as soon as one of
    them is not valid. *)
Fixpoint maskValues (masks : list gostring) : option (list Z) :=
  match masks with
  | [] => Some []
  | m :: rest =>
      if streq m [] then maskValues rest
      else match maskValue m, maskValues rest with
           | Some v, Some vs => Some (v :: vs)
           | _, _ => None
           end
  end.

(** Last write wins: the last positive value is the prefix bound, the last
    negative one gives the suffix bound. *)
Definition maskEndOf (vs : list Z) : Z :=
  last (filter (fun v => 0 <? v) vs) 128.

Definition maskStartOf (vs : list Z) : Z :=
  last (map (fun v => 128 + v) (filter (fun v => v <? 0) vs)) 0.

(** The non-empty mask tokens of a pattern string. *)
Definition maskTokens (s : gostring) : list gostring :=
  filter (fun m => negb (streq m [])) (strings.Split (maskPartOf s) slash).

(** An octet as parseIPv4 takes it: one to three bytes, an optional sign and
    then decimal digits only, the value within [0, 255]. *)
Definition isDigit (c : ascii) : bool :=
  (code "0" <=? code c) && (code c <=? code "9").

Definition decimal (ds : gostring) : Z :=
  fold_left (fun n c => n * 10 + (code c - code "0")) ds 0.

Definition unsignedPart (b : gostring) : gostring :=
  match b with
  | c :: r => if Ascii.eqb c "-" || Ascii.eqb c "+" then r else b
  | [] => []
  end.

Definition isNegative (b : gostring) : bool :=
  match b with
  | c :: _ => Ascii.eqb c "-"
  | [] => false
  end.

Definition octet (b : gostring) : option Z :=
  let ds := unsignedPart b in
  if (1 <=? len b) && (len b <=? 3) && (1 <=? len ds) && forallb isDigit ds
  then
    let v := if isNegative b then - decimal ds else decimal ds in
    if (0 <=? v) && (v <=? 255) then Some v else None
  else None.

(** The first separator met by the scans of ParseIp and ParsePattern. *)
Fixpoint firstSep (s : gostring) : option ascii :=
  match s with
  | [] => None
  | c :: s' =>
      if Ascii.eqb c "." then Some c
      else if Ascii.eqb c ":" then Some c
      else firstSep s'
  end.

(** The mask suffix made of the tokens [ts]: "/t1/t2/...". *)
Definition maskSuffix (ts : list gostring) : gostring :=
  List.concat (map (fun t => "/"%char :: t) ts).

(** The sixteen zero bytes of the unspecified address. *)
Definition zeros16 : list Z := repeat 0 16.

(** ** The driver: Run of cmd/root.go *)

(** The first loop of Run: every pattern string is compiled, in order; the
    first error (or panic) ends the run. *)
Fixpoint loadPatterns (ps : list gostring) : go (list Pattern) :=
  match ps with
  | [] => Val []
  | p :: rest =>
      pattern <- ParsePattern p ;;
      patterns <- loadPatterns rest ;;
      Val (pattern :: patterns)
  end.

(** for _, pattern := range patterns { if pattern.Match(ip) {
    fmt.Fprintln(out, line) } }, [out] being the lines written so far. *)
Fixpoint matchAll (patterns : list Pattern) (ip : IPAddress) (line : gostring)
         (out : list gostring) : go (list gostring) :=
  match patterns with
  | [] => Val out
  | pattern :: rest =>
      m <- Match pattern ip ;;
      matchAll rest ip line (if m then out ++ [line] else out)
  end.

(** for sc.Scan() { line := sc.Text(); ... }: [lines] are the tokens the
    bufio.Scanner yields for the reader, in order. *)
Fixpoint scanLines (patterns : list Pattern) (lines : list gostring)
         (out : list gostring) : go (list gostring) :=
  match lines with
  | [] => Val out
  | line :: rest =>
      match ParseIp line with
      | Val ip =>
          out' <- matchAll patterns ip line out ;;
          scanLines patterns rest out'
      | Fail _ => scanLines patterns rest out
      | Panic => Panic
      end
  end.

(** func Run(in io.Reader, out, eout io.Writer, ps []string) error; the
    value returned on success is the list of lines written to [out]. *)
Definition Run (lines : list gostring) (ps : list gostring)
  : go (list gostring) :=
  patterns <- loadPatterns ps ;;
  scanLines patterns lines [].

(** ** Groups, octets and byte ranges *)

Definition isHex (c : ascii) : bool :=
  match hexDigit c with
  | Some _ => true
  | None => false
  end.

Definition hexVal (c : ascii) : Z :=
  match hexDigit c with
  | Some n => n
  | None => 0
  end.

(** The number a group of hexadecimal digits stands for. *)
Definition groupValue (g : gostring) : Z :=
  fold_left (fun n c => n * 16 + hexVal c) g 0.

(** One to four hexadecimal digits. *)
Definition validGroup (g : gostring) : bool :=
  (1 <=? len g) && (len g <=? 4) && forallb isHex g.

(** The two bytes of a group, most significant first. *)
Definition groupBytes (g : gostring) : list Z :=
  [groupValue g / 256; groupValue g mod 256].

(** One to three decimal digits with a value of at most 255. *)
Definition digitOctet (b : gostring) : bool :=
  (1 <=? len b) && (len b <=? 3) && forallb isDigit b && (decimal b <=? 255).

(** The bytes at the indices [i, i + n) agree. *)
Fixpoint bytesAgreeFrom (a b : list Z) (i : Z) (n : nat) : bool :=
  match n with
  | O => true
  | S n' =>
      (nth (Z.to_nat i) a 0 =? nth (Z.to_nat i) b 0)
      && bytesAgreeFrom a b (i + 1) n'
  end.

(** A non-panicking outcome, and an outcome whose only error is
    ErrInvalidIP. *)
Definition noPanic {A : Type} (m : go A) : Prop := m <> Panic.

Definition onlyInvalidIP {A : Type} (m : go A) : Prop :=
  forall e, m = Fail e -> e = ErrInvalidIP.

Definition isByte (b : Z) : Prop := 0 <= b <= 255.

(** A line that Run skips: ParseIp returns an error for it. *)
Definition unparsable (line : gostring) : bool :=
  match ParseIp line with
  | Fail _ => true
  | _ => false
  end.

(** Each line of [lines] written as many times as the matching number of
    [ks] says. *)
Fixpoint emitted (lines : list gostring) (ks : list nat) : list gostring :=
  match lines, ks with
  | line :: lines', k :: ks' => repeat line k ++ emitted lines' ks'
  | _, _ => []
  end.

(** A piece of text without the separator [x]. *)
Definition sepFree (x : ascii) (g : gostring) : Prop := ~ In x g.

(** A non-empty piece of text without the separator [x]: what stands
    between two separators. *)
Definition cell (x : ascii) (g : gostring) : Prop := g <> [] /\ ~ In x g.

(** The text does not begin with [x]. *)
Definition headFree (x : ascii) (s : gostring) : Prop :=
  match s with
  | c :: _ => c <> x
  | [] => True
  end.

(** An index moved right by [k], -1 (not found) staying -1. *)
Definition shift (i k : Z) : Z := if i <? 0 then -1 else k + i.

(** A group padded with zeros to four digits, as the loop of extendIPv6
    does. *)
Definition padGroup (g : gostring) : gostring :=
  List.concat (repeat (str "0") (Z.to_nat (4 - len g))) ++ g.

(** The digits 'A'..'F' in lower case, every other byte unchanged. *)
Definition lowerHex (c : ascii) : ascii :=
  if (code "A" <=? code c) && (code c <=? code "F")
  then ascii_of_N (N_of_ascii c + 32)
  else c.

(** A byte that lower-casing neither produces nor changes. *)
Definition caseFixed (x : ascii) : Prop :=
  forall c, Ascii.eqb (lowerHex c) x = Ascii.eqb c x.

(** The outcome with a function applied to the value returned. *)
Definition mapVal {A B : Type} (g : A -> B) (m : go A) : go B :=
  match m with
  | Val a => Val (g a)
  | Fail e => Fail e
  | Panic => Panic
  end.

(** The hexadecimal digits in the order of their values, in both cases. *)
Definition lowerDigits : gostring := str "0123456789abcdef".
Definition upperDigits : gostring := str "0123456789ABCDEF".

(** The place of a byte in a text, counted from 0. *)
Fixpoint position (c : ascii) (s : gostring) : option Z :=
  match s with
  | [] => None
  | d :: s' =>
      if Ascii.eqb c d then Some 0
      else match position c s' with
           | Some n => Some (n + 1)
           | None => None
           end
  end.

(** The value of a hexadecimal digit is its place among the digits. *)
Definition hexTable (c : ascii) : option Z :=
  match position c lowerDigits with
  | Some n => Some n
  | None => position c upperDigits
  end.

Definition isHexChar (c : ascii) : bool :=
  match hexTable c with
  | Some _ => true
  | None => false
  end.

(** The number written by a text of hexadecimal digits, read by the table. *)
Definition wordValue (s : gostring) : Z :=
  fold_left (fun n c => n * 16 + match hexTable c with
                                 | Some v => v
                                 | None => 0
                                 end) s 0.

(** * Properties *)

(** ** Strings *)

Lemma streq_true_iff (a b : gostring) : streq a b = true <-> a = b.
Proof.
  revert b; induction a as [|x a IH]; intros [|y b]; simpl;
    try (split; [discriminate | discriminate]); try tauto.
  rewrite andb_true_iff, Ascii.eqb_eq, IH.
  split; [intros [-> ->]; reflexivity | intros H; inversion H; auto].
Qed.

Lemma streq_nil (a : gostring) : streq a [] = true <-> a = [].
Proof. destruct a; simpl; split; congruence. Qed.

Lemma len_nonneg {A : Type} (s : list A) : 0 <= len s.
Proof. unfold len; lia. Qed.

Lemma len_cons {A : Type} (x : A) (s : list A) : len (x :: s) = len s + 1.
Proof. unfold len; cbn [List.length]; lia. Qed.

Lemma len_app {A : Type} (s t : list A) : len (s ++ t) = len s + len t.
Proof. unfold len; rewrite List.length_app; lia. Qed.

Lemma sliceTo_app (a r : gostring) : sliceTo (a ++ r) (len a) = a.
Proof.
  unfold sliceTo, len. rewrite Nat2Z.id.
  rewrite firstn_app, Nat.sub_diag, firstn_all. simpl. apply app_nil_r.
Qed.

Lemma sliceFrom_app (a r : gostring) : sliceFrom (a ++ r) (len a) = r.
Proof.
  unfold sliceFrom, len. rewrite Nat2Z.id.
  rewrite skipn_app, Nat.sub_diag, skipn_all. reflexivity.
Qed.

Section SingleByte.

(** Searching for a one-byte string [x]. *)
Variable x : ascii.

Lemma HasPrefix_single (c : ascii) (s : gostring) :
  strings.HasPrefix (c :: s) [x] = Ascii.eqb c x.
Proof. simpl. apply andb_true_r. Qed.

Lemma Index_absent (a : gostring) :
  ~ In x a -> strings.Index a [x] = -1.
Proof.
  induction a as [|c a IH]; intros Hn.
  - reflexivity.
  - cbn [strings.Index]. rewrite HasPrefix_single.
    destruct (Ascii.eqb_spec c x) as [->|Hc].
    + exfalso; apply Hn; left; reflexivity.
    + rewrite IH by (intros H; apply Hn; right; exact H). reflexivity.
Qed.

Lemma Index_first (a r : gostring) :
  ~ In x a -> strings.Index (a ++ x :: r) [x] = len a.
Proof.
  induction a as [|c a IH]; intros Hn.
  - cbn [app strings.Index]. rewrite HasPrefix_single, Ascii.eqb_refl.
    reflexivity.
  - cbn [app strings.Index]. rewrite HasPrefix_single.
    destruct (Ascii.eqb_spec c x) as [->|Hc].
    + exfalso; apply Hn; left; reflexivity.
    + rewrite IH by (intros H; apply Hn; right; exact H).
      rewrite len_cons. pose proof (len_nonneg a).
      destruct (len a <? 0) eqn:E; [apply Z.ltb_lt in E; lia | reflexivity].
Qed.

Lemma Contains_absent (a : gostring) :
  ~ In x a -> strings.Contains a [x] = false.
Proof. intros H. unfold strings.Contains. rewrite Index_absent; auto. Qed.

Lemma Contains_first (a r : gostring) :
  ~ In x a -> strings.Contains (a ++ x :: r) [x] = true.
Proof.
  intros H. unfold strings.Contains. rewrite Index_first by exact H.
  apply Z.leb_le, len_nonneg.
Qed.

Lemma Split_absent (a : gostring) :
  ~ In x a -> strings.Split a [x] = [a].
Proof.
  unfold strings.Split.
  induction a as [|c a IH]; intros Hn.
  - reflexivity.
  - cbn [strings.splitFrom]. rewrite HasPrefix_single.
    destruct (Ascii.eqb_spec c x) as [->|Hc].
    + exfalso; apply Hn; left; reflexivity.
    + rewrite IH by (intros H; apply Hn; right; exact H). reflexivity.
Qed.

Lemma Split_first (a r : gostring) :
  ~ In x a -> strings.Split (a ++ x :: r) [x] = a :: strings.Split r [x].
Proof.
  unfold strings.Split.
  induction a as [|c a IH]; intros Hn.
  - cbn [app strings.splitFrom]. rewrite HasPrefix_single, Ascii.eqb_refl.
    reflexivity.
  - cbn [app strings.splitFrom]. rewrite HasPrefix_single.
    destruct (Ascii.eqb_spec c x) as [->|Hc].
    + exfalso; apply Hn; left; reflexivity.
    + rewrite IH by (intros H; apply Hn; right; exact H). reflexivity.
Qed.

End SingleByte.

(** The slice expressions of matcher.go stay in range. *)

Lemma HasPrefix_len (s p : gostring) :
  strings.HasPrefix s p = true -> len p <= len s.
Proof.
  revert s; induction p as [|c p IH]; intros s H.
  - apply len_nonneg.
  - destruct s as [|d s]; simpl in H; [discriminate|].
    apply andb_true_iff in H as [_ H]. apply IH in H.
    rewrite !len_cons. lia.
Qed.

Lemma HasSuffix_len (s p : gostring) :
  strings.HasSuffix s p = true -> len p <= len s.
Proof.
  unfold strings.HasSuffix. intros H.
  apply andb_true_iff in H as [H _]. apply Z.leb_le, H.
Qed.

Lemma Index_range (s sub : gostring) :
  strings.Contains s sub = true ->
  0 <= strings.Index s sub /\ strings.Index s sub + len sub <= len s.
Proof.
  unfold strings.Contains.
  induction s as [|c s IH]; cbn [strings.Index].
  - destruct (strings.HasPrefix [] sub) eqn:E; intros H.
    + apply HasPrefix_len in E. lia.
    + discriminate.
  - destruct (strings.HasPrefix (c :: s) sub) eqn:E; intros H.
    + apply HasPrefix_len in E. lia.
    + destruct (strings.Index s sub <? 0) eqn:L; [discriminate|].
      apply Z.ltb_ge in L. rewrite len_cons.
      destruct IH as [_ IH]; [apply Z.leb_le, L | lia].
Qed.

(** ** The dispatch on the first separator *)

Lemma ParseIp_loop_firstSep (ip rest : gostring) :
  ParseIp_loop ip rest =
  match firstSep rest with
  | Some c => if Ascii.eqb c "." then parseIPv4 ip else parseIPv6 ip
  | None => Fail ErrInvalidIP
  end.
Proof.
  induction rest as [|c rest IH]; simpl.
  - reflexivity.
  - destruct (Ascii.eqb c ".") eqn:E1.
    + rewrite E1. reflexivity.
    + destruct (Ascii.eqb c ":") eqn:E2.
      * rewrite E1. reflexivity.
      * exact IH.
Qed.

Lemma ParsePattern_loop_firstSep (s rest : gostring) :
  ParsePattern_loop s rest =
  match firstSep rest with
  | Some c => if Ascii.eqb c "." then parseIPv4Pattern s else parseIPv6Pattern s
  | None => Fail ErrInvalidIP
  end.
Proof.
  induction rest as [|c rest IH]; simpl.
  - reflexivity.
  - destruct (Ascii.eqb c ".") eqn:E1.
    + rewrite E1. reflexivity.
    + destruct (Ascii.eqb c ":") eqn:E2.
      * rewrite E1. reflexivity.
      * exact IH.
Qed.

Lemma firstSep_app (a r : gostring) (c : ascii) :
  firstSep a = Some c -> firstSep (a ++ r) = Some c.
Proof.
  induction a as [|d a IH]; simpl; [discriminate|].
  destruct (Ascii.eqb d "."); [auto|].
  destruct (Ascii.eqb d ":"); auto.
Qed.

Lemma firstSep_sliceTo (s : gostring) (i : Z) (c : ascii) :
  firstSep (sliceTo s i) = Some c -> firstSep s = Some c.
Proof.
  intros H. unfold sliceTo in H.
  rewrite <- (firstn_skipn (Z.to_nat i) s). apply firstSep_app, H.
Qed.

Lemma firstSep_ipPartOf (s : gostring) (c : ascii) :
  firstSep (ipPartOf s) = Some c -> firstSep s = Some c.
Proof.
  unfold ipPartOf. destruct (strings.Contains s slash); [|auto].
  apply firstSep_sliceTo.
Qed.

Lemma parseIPv4_not_V6 (s : gostring) (a : IPv6Address) :
  parseIPv4 s <> Val (V6 a).
Proof.
  unfold parseIPv4.
  destruct (negb _); [discriminate|].
  destruct (parseIPv4_loop _ _ _); simpl; discriminate.
Qed.

Lemma parseIPv6_not_V4 (s : gostring) (a : IPv4Address) :
  parseIPv6 s <> Val (V4 a).
Proof.
  unfold parseIPv6.
  destruct (extendIPv6 s); simpl; try discriminate.
  destruct (negb _); [discriminate|].
  destruct (parseIPv6_loop _ _ _); simpl; discriminate.
Qed.

(** An address literal that parses as IPv6 has ':' for first separator. *)
Lemma ParseIp_V6_firstSep (s : gostring) (a : IPv6Address) :
  ParseIp s = Val (V6 a) -> firstSep s = Some ":"%char /\ parseIPv6 s = Val (V6 a).
Proof.
  unfold ParseIp. rewrite ParseIp_loop_firstSep.
  assert (K : forall r c, firstSep r = Some c -> c = "."%char \/ c = ":"%char).
  { induction r as [|d r IH]; simpl; [discriminate|]. intros c.
    destruct (Ascii.eqb_spec d "."); [intros [= <-]; auto|].
    destruct (Ascii.eqb_spec d ":"); [intros [= <-]; auto|]. apply IH. }
  destruct (firstSep s) as [c|] eqn:E; [|discriminate].
  destruct (K _ _ E) as [-> | ->]; simpl; intros H.
  - exfalso. eapply parseIPv4_not_V6, H.
  - auto.
Qed.

(** What ParsePattern does with a string whose literal part parses as IPv6. *)
Lemma ParsePattern_IPv6 (s : gostring) (a : IPv6Address) :
  ParseIp (ipPartOf s) = Val (V6 a) -> ParsePattern s = parseIPv6Pattern s.
Proof.
  intros H. apply ParseIp_V6_firstSep in H as [H _].
  apply firstSep_ipPartOf in H.
  unfold ParsePattern. rewrite ParsePattern_loop_firstSep, H. reflexivity.
Qed.

(** A compiled IPv6 pattern comes out of parseIPv6Pattern. *)
Lemma ParsePattern_V6_inv (s : gostring) (p : IPv6Pattern) :
  ParsePattern s = Val (PatV6 p) -> parseIPv6Pattern s = Val (PatV6 p).
Proof.
  unfold ParsePattern. rewrite ParsePattern_loop_firstSep.
  destruct (firstSep s) as [c|]; [|discriminate].
  destruct (Ascii.eqb c "."); [discriminate | auto].
Qed.

(** ** The mask loop *)

Lemma last_cons {A : Type} (x d : A) (l : list A) : last (x :: l) d = last l x.
Proof.
  revert x d; induction l as [|y l IH]; intros x d; [reflexivity|].
  change (last (x :: y :: l) d) with (last (y :: l) d).
  rewrite (IH y d), (IH y x). reflexivity.
Qed.

Lemma maskLoop_spec (masks : list gostring) (maskStart maskEnd : Z) :
  maskLoop masks maskStart maskEnd =
  match maskValues masks with
  | None => Fail ErrInvalidPattern
  | Some vs =>
      Val (last (map (fun v => 128 + v) (filter (fun v => v <? 0) vs)) maskStart,
           last (filter (fun v => 0 <? v) vs) maskEnd)
  end.
Proof.
  revert maskStart maskEnd.
  induction masks as [|m rest IH]; intros maskStart maskEnd; simpl.
  - reflexivity.
  - destruct (streq m []); [apply IH|].
    unfold maskValue. destruct (strconv.Atoi m) as [v|]; [|reflexivity].
    destruct (v <? -128) eqn:E1; simpl.
    { apply Z.ltb_lt in E1.
      destruct (-128 <=? v) eqn:E; [apply Z.leb_le in E; lia | reflexivity]. }
    apply Z.ltb_ge in E1. apply Z.leb_le in E1. rewrite E1. simpl.
    destruct (128 <? v) eqn:E2; simpl.
    { apply Z.ltb_lt in E2.
      destruct (v <=? 128) eqn:E; [apply Z.leb_le in E; lia | reflexivity]. }
    apply Z.ltb_ge in E2. apply Z.leb_le in E2. rewrite E2. simpl.
    destruct (v =? 0) eqn:E3; simpl; [reflexivity|].
    rewrite IH. destruct (maskValues rest) as [vs|]; [|reflexivity].
    cbn [filter].
    destruct (0 <? v) eqn:P; destruct (v <? 0) eqn:N; cbn [map];
      rewrite ?last_cons; reflexivity.
Qed.

Lemma maskValues_range (masks : list gostring) (vs : list Z) :
  maskValues masks = Some vs ->
  Forall (fun v => -128 <= v <= 128 /\ v <> 0) vs.
Proof.
  revert vs; induction masks as [|m rest IH]; intros vs; simpl.
  - intros [= <-]. constructor.
  - destruct (streq m []); [apply IH|].
    unfold maskValue. destruct (strconv.Atoi m) as [v|]; [|discriminate].
    destruct ((-128 <=? v) && (v <=? 128) && negb (v =? 0)) eqn:E; [|discriminate].
    destruct (maskValues rest) as [vs'|]; [|discriminate].
    intros [= <-]. constructor; [|apply IH; reflexivity].
    apply andb_true_iff in E as [E E3]. apply andb_true_iff in E as [E1 E2].
    apply Z.leb_le in E1, E2. apply negb_true_iff, Z.eqb_neq in E3. lia.
Qed.

Lemma maskValues_tokens (masks : list gostring) (vs : list Z) :
  maskValues masks = Some vs ->
  Forall2 (fun m v => strconv.Atoi m = Some v)
          (filter (fun m => negb (streq m [])) masks) vs.
Proof.
  revert vs; induction masks as [|m rest IH]; intros vs; simpl.
  - intros [= <-]. constructor.
  - destruct (streq m []); simpl; [apply IH|].
    unfold maskValue. destruct (strconv.Atoi m) as [v|] eqn:A; [|discriminate].
    destruct ((-128 <=? v) && (v <=? 128) && negb (v =? 0)); [|discriminate].
    destruct (maskValues rest) as [vs'|]; [|discriminate].
    intros [= <-]. constructor; [exact A | apply IH; reflexivity].
Qed.

(** parseIPv6Pattern against the specification's reading of the grammar:
    every non-empty token is validated, in order, and the last token of each
    sign decides its bound. *)
Lemma parseIPv6Pattern_spec (s : gostring) (a : IPv6Address) :
  ParseIp (ipPartOf s) = Val (V6 a) ->
  parseIPv6Pattern s =
  match maskValues (strings.Split (maskPartOf s) slash) with
  | None => Fail ErrInvalidPattern
  | Some vs => Val (PatV6 (mkIPv6Pattern a (maskEndOf vs) (maskStartOf vs)))
  end.
Proof.
  intros H. unfold parseIPv6Pattern. rewrite H. simpl.
  rewrite maskLoop_spec.
  destruct (maskValues _) as [vs|]; reflexivity.
Qed.

(** ** strconv.Atoi *)

Lemma digit_check (c : ascii) :
  (0 <=? code c - code "0") && (code c - code "0" <=? 9) = isDigit c.
Proof.
  unfold isDigit. change (code "0") with 48. change (code "9") with 57.
  lia.
Qed.

Lemma digits_spec (s : gostring) (n : Z) :
  strconv.digits s n =
  if forallb isDigit s
  then Some (fold_left (fun n c => n * 10 + (code c - code "0")) s n)
  else None.
Proof.
  revert n; induction s as [|c s IH]; intros n; cbn [strconv.digits forallb fold_left].
  - reflexivity.
  - rewrite digit_check. destruct (isDigit c); simpl; [apply IH | reflexivity].
Qed.

Lemma Atoi_unsigned (b : gostring) :
  strconv.Atoi b =
  match unsignedPart b with
  | [] => None
  | ds =>
      if forallb isDigit ds
      then
        let n := if isNegative b then - decimal ds else decimal ds in
        if (- 2 ^ 63 <=? n) && (n <=? 2 ^ 63 - 1) then Some n else None
      else None
  end.
Proof.
  destruct b as [|c r]; [reflexivity|].
  unfold strconv.Atoi, unsignedPart, isNegative, strconv.isSign.
  destruct (Ascii.eqb c "-" || Ascii.eqb c "+").
  - destruct r as [|d r]; [reflexivity|].
    rewrite digits_spec. fold (decimal (d :: r)).
    destruct (forallb isDigit (d :: r)); reflexivity.
  - rewrite digits_spec. fold (decimal (c :: r)).
    destruct (forallb isDigit (c :: r)); reflexivity.
Qed.

(** A token accepted by Atoi holds no '/'. *)
Lemma Atoi_no_slash (t : gostring) (m : Z) :
  strconv.Atoi t = Some m -> ~ In "/"%char t.
Proof.
  rewrite Atoi_unsigned. intros H Hin.
  assert (D : forallb isDigit (unsignedPart t) = true).
  { revert H. destruct (unsignedPart t) as [|d ds]; [discriminate|].
    cbv beta iota zeta. destruct (forallb isDigit (d :: ds)); intros H; [reflexivity | discriminate H]. }
  rewrite forallb_forall in D.
  destruct t as [|c r]; [exact Hin|].
  unfold unsignedPart in D.
  destruct (Ascii.eqb c "-" || Ascii.eqb c "+") eqn:S.
  - destruct Hin as [-> | Hin]; [vm_compute in S; discriminate|].
    apply D in Hin. vm_compute in Hin. discriminate.
  - apply D in Hin. vm_compute in Hin. discriminate.
Qed.

Lemma Atoi_nonempty (t : gostring) (m : Z) :
  strconv.Atoi t = Some m -> streq t [] = false.
Proof. destruct t; [discriminate | reflexivity]. Qed.

(** ** parseIPv4 *)

Lemma parseIPv4_loop_cons (b : gostring) (rest : list gostring) (i : nat)
      (ipBytes : list Z) :
  parseIPv4_loop (b :: rest) i ipBytes =
  match octet b with
  | Some v => parseIPv4_loop rest (S i) (setAt ipBytes i v)
  | None => Fail ErrInvalidIP
  end.
Proof.
  cbn [parseIPv4_loop]. unfold octet.
  destruct b as [|c r]; [reflexivity|].
  cbn [streq].
  assert (L1 : (1 <=? len (c :: r)) = true).
  { apply Z.leb_le. rewrite len_cons. pose proof (len_nonneg r). lia. }
  rewrite L1. cbn [andb].
  destruct (Z.ltb_spec 3 (len (c :: r))) as [L|L].
  { destruct (Z.leb_spec (len (c :: r)) 3); [lia | reflexivity]. }
  destruct (Z.leb_spec (len (c :: r)) 3) as [_|]; [|lia].
  rewrite Atoi_unsigned.
  destruct (unsignedPart (c :: r)) as [|d ds] eqn:U; [reflexivity|].
  assert (L2 : (1 <=? len (d :: ds)) = true).
  { apply Z.leb_le. rewrite len_cons. pose proof (len_nonneg ds). lia. }
  rewrite L2. cbn [andb].
  destruct (forallb isDigit (d :: ds)); [|reflexivity].
  cbv zeta.
  set (n := if isNegative (c :: r) then - decimal (d :: ds) else decimal (d :: ds)).
  clearbody n. change (2 ^ 63) with 9223372036854775808.
  destruct (Z.leb_spec 0 n) as [P|P], (Z.leb_spec n 255) as [Q|Q]; cbn [andb].
  - destruct ((_ <=? n) && (n <=? _)) eqn:R; [|lia].
    replace ((n <? 0) || (255 <? n)) with false by lia.
    rewrite Z.mod_small by lia. reflexivity.
  - destruct ((_ <=? n) && (n <=? _)); [|reflexivity].
    replace ((n <? 0) || (255 <? n)) with true by lia. reflexivity.
  - destruct ((_ <=? n) && (n <=? _)); [|reflexivity].
    replace ((n <? 0) || (255 <? n)) with true by lia. reflexivity.
  - lia.
Qed.

(** parseIPv4 against the octet grammar. *)
Lemma parseIPv4_octets (ip : gostring) :
  parseIPv4 ip =
  match strings.Split ip (str ".") with
  | [b0; b1; b2; b3] =>
      match octet b0, octet b1, octet b2, octet b3 with
      | Some v0, Some v1, Some v2, Some v3 =>
          Val (V4 (mkIPv4Address [v0; v1; v2; v3]))
      | _, _, _, _ => Fail ErrInvalidIP
      end
  | _ => Fail ErrInvalidIP
  end.
Proof.
  unfold parseIPv4.
  destruct (strings.Split ip (str ".")) as [|b0 [|b1 [|b2 [|b3 [|b4 l]]]]];
    try reflexivity.
  - change (negb (len [b0; b1; b2; b3] =? 4)) with false. cbv iota.
    rewrite parseIPv4_loop_cons. destruct (octet b0); [|reflexivity].
    rewrite parseIPv4_loop_cons. destruct (octet b1); [|reflexivity].
    rewrite parseIPv4_loop_cons. destruct (octet b2); [|reflexivity].
    rewrite parseIPv4_loop_cons. destruct (octet b3); reflexivity.
  - assert (E : (len (b0 :: b1 :: b2 :: b3 :: b4 :: l) =? 4) = false).
    { apply Z.eqb_neq. rewrite !len_cons. pose proof (len_nonneg l). lia. }
    rewrite E. reflexivity.
Qed.

(** ** The two parts of a pattern string *)

Lemma ipPartOf_plain (a : gostring) :
  ~ In "/"%char a -> ipPartOf a = a /\ maskPartOf a = [].
Proof.
  intros H. unfold ipPartOf, maskPartOf, slash.
  change (str "/") with ["/"%char]. rewrite Contains_absent by exact H. auto.
Qed.

Lemma ipPartOf_masked (a r : gostring) :
  ~ In "/"%char a ->
  ipPartOf (a ++ "/"%char :: r) = a /\
  maskPartOf (a ++ "/"%char :: r) = "/"%char :: r.
Proof.
  intros H. unfold ipPartOf, maskPartOf, slash.
  change (str "/") with ["/"%char].
  rewrite Contains_first, Index_first by exact H.
  split; [apply sliceTo_app | apply (sliceFrom_app a ("/"%char :: r))].
Qed.

Lemma Split_maskPart1 (t : gostring) :
  ~ In "/"%char t ->
  strings.Split ("/"%char :: t) slash = [[]; t].
Proof.
  intros H. unfold slash. change (str "/") with ["/"%char].
  pose proof (Split_first "/"%char [] t (fun F => F)) as E.
  cbn [app] in E. rewrite E.
  rewrite Split_absent by exact H. reflexivity.
Qed.

Lemma Split_maskPart2 (t u : gostring) :
  ~ In "/"%char t -> ~ In "/"%char u ->
  strings.Split ("/"%char :: t ++ "/"%char :: u) slash = [[]; t; u].
Proof.
  intros Ht Hu. unfold slash. change (str "/") with ["/"%char].
  pose proof (Split_first "/"%char [] (t ++ "/"%char :: u) (fun F => F)) as E.
  cbn [app] in E. rewrite E.
  rewrite Split_first by exact Ht.
  rewrite Split_absent by exact Hu. reflexivity.
Qed.

Lemma Contains_In (x : ascii) (a : gostring) :
  strings.Contains a [x] = false -> ~ In x a.
Proof.
  unfold strings.Contains. intros H Hin. revert H.
  induction a as [|c a IH]; [destruct Hin|].
  cbn [strings.Index]. rewrite HasPrefix_single.
  destruct (Ascii.eqb_spec c x) as [->|Hc]; [discriminate|].
  destruct Hin as [E | Hin]; [contradiction|].
  destruct (strings.Index a [x] <? 0) eqn:L.
  - intros _. apply IH; [exact Hin|]. lia.
  - lia.
Qed.

Lemma Split_maskTokens (ts : list gostring) :
  Forall (fun t => ~ In "/"%char t) ts ->
  ts <> [] ->
  strings.Split (maskSuffix ts) slash = [] :: ts.
Proof.
  unfold slash. change (str "/") with ["/"%char].
  induction 1 as [|t ts Ht Hts IH]; intros Hne;
    [exfalso; apply Hne; reflexivity|].
  unfold maskSuffix. cbn [map List.concat].
  fold (maskSuffix ts).
  pose proof (Split_first "/"%char [] (t ++ maskSuffix ts) (fun F => F)) as E.
  cbn [app] in E. change (("/"%char :: t) ++ maskSuffix ts)
    with ("/"%char :: t ++ maskSuffix ts). rewrite E. f_equal.
  destruct ts as [|u ts].
  - unfold maskSuffix. cbn [map List.concat]. rewrite app_nil_r.
    apply Split_absent, Ht.
  - assert (K : maskSuffix (u :: ts) = "/"%char :: (u ++ maskSuffix ts))
      by reflexivity.
    rewrite K in *. rewrite Split_first by exact Ht.
    f_equal. specialize (IH ltac:(discriminate)).
    pose proof (Split_first "/"%char [] (u ++ maskSuffix ts) (fun F => F)) as E2.
    cbn [app] in E2. rewrite E2 in IH. injection IH as IH. exact IH.
Qed.

Lemma maskPartOf_suffix (addr : gostring) (ts : list gostring) :
  ~ In "/"%char addr ->
  ipPartOf (addr ++ maskSuffix ts) = addr /\
  maskValues (strings.Split (maskPartOf (addr ++ maskSuffix ts)) slash) =
  maskValues (strings.Split (maskSuffix ts) slash).
Proof.
  intros H. destruct ts as [|t ts].
  - unfold maskSuffix. cbn [map List.concat]. rewrite app_nil_r.
    destruct (ipPartOf_plain addr H) as [-> ->]. split; reflexivity.
  - assert (K : maskSuffix (t :: ts) = "/"%char :: (t ++ maskSuffix ts))
      by reflexivity.
    rewrite K. destruct (ipPartOf_masked addr (t ++ maskSuffix ts) H) as [-> ->].
    split; reflexivity.
Qed.

(** Compiling "addr/t1/.../tn" for an IPv6 literal and slash-free tokens. *)
Lemma ParsePattern_tokens (addr : gostring) (a : IPv6Address)
      (ts : list gostring) :
  ~ In "/"%char addr ->
  ParseIp addr = Val (V6 a) ->
  Forall (fun t => ~ In "/"%char t) ts ->
  ParsePattern (addr ++ maskSuffix ts) =
  match maskValues ts with
  | None => Fail ErrInvalidPattern
  | Some vs => Val (PatV6 (mkIPv6Pattern a (maskEndOf vs) (maskStartOf vs)))
  end.
Proof.
  intros Hs Hip Hts.
  destruct (maskPartOf_suffix addr ts Hs) as [Ei Em].
  assert (Hip' : ParseIp (ipPartOf (addr ++ maskSuffix ts)) = Val (V6 a))
    by (rewrite Ei; exact Hip).
  rewrite (ParsePattern_IPv6 _ a Hip'), (parseIPv6Pattern_spec _ a Hip'), Em.
  destruct ts as [|t ts]; [reflexivity|].
  rewrite Split_maskTokens by (auto; discriminate). reflexivity.
Qed.

(** ** Bounds of a compiled IPv6 pattern *)

Lemma last_cases {A : Type} (l : list A) (d : A) :
  (l = [] /\ last l d = d) \/ In (last l d) l.
Proof.
  revert d; induction l as [|x l IH]; intros d; [left; auto|].
  right. rewrite last_cons. destruct (IH x) as [[-> E] | H].
  - left. exact (eq_sym E).
  - right. exact H.
Qed.

Lemma filter_none {A : Type} (f : A -> bool) (l : list A) :
  (forall x, In x l -> f x = false) -> filter f l = [].
Proof.
  induction l as [|x l IH]; intros H; [reflexivity|].
  cbn [filter]. rewrite (H x (or_introl eq_refl)).
  apply IH. intros y Hy. apply H. right. exact Hy.
Qed.

Lemma Forall2_In_r {A B : Type} (R : A -> B -> Prop) (l : list A) (l' : list B) :
  Forall2 R l l' -> forall y, In y l' -> exists x, In x l /\ R x y.
Proof.
  induction 1 as [|x y l l' Hxy _ IH]; intros z Hz; [destruct Hz|].
  destruct Hz as [<- | Hz].
  - exists x. split; [left; reflexivity | exact Hxy].
  - destruct (IH z Hz) as (w & Hw & Rw). exists w. split; [right|]; assumption.
Qed.

Lemma maskEndOf_range (vs : list Z) :
  Forall (fun v => -128 <= v <= 128 /\ v <> 0) vs -> 0 < maskEndOf vs <= 128.
Proof.
  intros H. unfold maskEndOf.
  destruct (last_cases (filter (fun v => 0 <? v) vs) 128) as [[_ ->] | Hin];
    [lia|].
  apply filter_In in Hin as [Hin P]. rewrite Forall_forall in H.
  apply H in Hin. apply Z.ltb_lt in P. lia.
Qed.

Lemma maskStartOf_range (vs : list Z) :
  Forall (fun v => -128 <= v <= 128 /\ v <> 0) vs -> 0 <= maskStartOf vs < 128.
Proof.
  intros H. unfold maskStartOf.
  destruct (last_cases (map (fun v => 128 + v) (filter (fun v => v <? 0) vs)) 0)
    as [[_ ->] | Hin]; [lia|].
  apply in_map_iff in Hin as (v & <- & Hin).
  apply filter_In in Hin as [Hin N]. rewrite Forall_forall in H.
  apply H in Hin. apply Z.ltb_lt in N. lia.
Qed.

(** A compiled IPv6 pattern, taken apart. *)
Lemma parseIPv6Pattern_inv (s : gostring) (p : IPv6Pattern) :
  parseIPv6Pattern s = Val (PatV6 p) ->
  exists vs,
    maskValues (strings.Split (maskPartOf s) slash) = Some vs /\
    MaskEnd p = maskEndOf vs /\ MaskStart p = maskStartOf vs.
Proof.
  intros H.
  destruct (ParseIp (ipPartOf s)) as [[a|a]| |] eqn:E.
  - rewrite (parseIPv6Pattern_spec s a E) in H.
    destruct (maskValues _) as [vs|]; [|discriminate].
    injection H as <-. exists vs. auto.
  - unfold parseIPv6Pattern in H. rewrite E in H. cbn [bind] in H.
    destruct (maskLoop _ 0 128); discriminate.
  - unfold parseIPv6Pattern in H. rewrite E in H. discriminate.
  - unfold parseIPv6Pattern in H. rewrite E in H. discriminate.
Qed.

Lemma maskValue_ok (t : gostring) (m : Z) :
  strconv.Atoi t = Some m -> -128 <= m <= 128 -> m <> 0 ->
  maskValue t = Some m.
Proof.
  intros A R N. unfold maskValue. rewrite A.
  replace ((-128 <=? m) && (m <=? 128) && negb (m =? 0)) with true by lia.
  reflexivity.
Qed.

Lemma maskValues_cons (t : gostring) (m : Z) (rest : list gostring) :
  strconv.Atoi t = Some m -> -128 <= m <= 128 -> m <> 0 ->
  maskValues (t :: rest) =
  match maskValues rest with
  | Some vs => Some (m :: vs)
  | None => None
  end.
Proof.
  intros A R N. cbn [maskValues].
  rewrite (Atoi_nonempty t m A), (maskValue_ok t m A R N). reflexivity.
Qed.

(** ** Match *)

(** Bytes 16 and beyond do not exist: a scan that reaches them cannot end
    with [true]. *)
Lemma Match6_loop_not_true (p : IPv6Pattern) (ipBytes : list Z) (n : nat)
      (i : Z) :
  len ipBytes <= 16 -> (0 < n)%nat -> 16 < i + Z.of_nat n ->
  Match6_loop p ipBytes n i <> Val true.
Proof.
  intros Hlen. revert i. induction n as [|n IH]; intros i Hn Hi; [lia|].
  cbn [Match6_loop]. unfold index at 1.
  destruct ((i <? 0) || (len ipBytes <=? i)) eqn:E; [discriminate|].
  cbn [bind]. destruct (index (IP6 (Pat6_IP p)) i); [|discriminate..].
  cbn [bind]. destruct (negb _); [discriminate|].
  apply IH; lia.
Qed.

Lemma Match6_not_true (p : IPv6Pattern) (a : IPv6Address) :
  len (IP6 a) = 16 -> MaskStart p < MaskEnd p -> 16 < MaskEnd p ->
  Match6 p (V6 a) <> Val true.
Proof.
  intros Hlen Hlt Hend. unfold Match6. cbn [Version Bytes negb Z.eqb].
  change (negb (6 =? 6)) with false. cbv iota.
  apply Match6_loop_not_true; lia.
Qed.

(** A candidate of the other version is refused before any byte is read. *)
Lemma Match6_other_version (p : IPv6Pattern) (a : IPv4Address) :
  Match6 p (V4 a) = Val false.
Proof. reflexivity. Qed.

Lemma Match4_other_version (p : IPv4Pattern) (a : IPv6Address) :
  Match4 p (V6 a) = Val false.
Proof. reflexivity. Qed.

(** The non-digit bytes an octet may hold are the leading sign only. *)
Lemma octet_digits (b : gostring) (v : Z) :
  octet b = Some v ->
  1 <= len b <= 3 /\ unsignedPart b <> [] /\
  Forall (fun c => isDigit c = true) (unsignedPart b) /\ 0 <= v <= 255.
Proof.
  unfold octet.
  destruct ((1 <=? len b) && (len b <=? 3) && (1 <=? len (unsignedPart b))
            && forallb isDigit (unsignedPart b)) eqn:E; [|discriminate].
  apply andb_true_iff in E as [E D]. apply andb_true_iff in E as [E U].
  apply andb_true_iff in E as [L1 L3].
  destruct ((0 <=? _) && (_ <=? 255)) eqn:R; [|discriminate].
  intros [= <-]. repeat split; try lia.
  - intros N. rewrite N in U. discriminate.
  - apply Forall_forall. apply forallb_forall. exact D.
Qed.

(** * The specification against the code *)

(** C1.  The claim: for validly compiled patterns and validly parsed
    addresses [Match] returns a boolean and never panics.  The code: the
    pattern compiled from "2001:db8::abcd:1ff:fe00:0" (no mask, so
    MaskStart = 0 and MaskEnd = 128) matched against the address parsed from
    the same text panics, because the loop indexes the 16-byte slice with
    the bit offsets 0..127 and reaches index 16. *)
Theorem Match_panics_on_unmasked_pattern :
  let bytes := [32; 1; 13; 184; 0; 0; 0; 0; 171; 205; 1; 255; 254; 0; 0; 0] in
  let p := PatV6 (mkIPv6Pattern (mkIPv6Address bytes) 128 0) in
  let ip := V6 (mkIPv6Address bytes) in
  ParsePattern (str "2001:db8::abcd:1ff:fe00:0") = Val p /\
  ParseIp (str "2001:db8::abcd:1ff:fe00:0") = Val ip /\
  Match p ip = Panic.
Proof. vm_compute. repeat split. Qed.

(** C2.  The claim: on equal versions [Match] is true exactly when all bits
    in [maskStart, maskEnd) agree.  The code: for the pattern "2001:db8::/64"
    and the candidate "2001:db8::abcd:1ff:fe00:0" the versions are equal and
    all bits 0..63 agree, yet [Match] returns false, because it compares the
    bytes (not the bits) at the offsets 0..63 and bytes 8 differ. *)
Theorem Match_compares_bytes_at_bit_offsets :
  let pbytes := [32; 1; 13; 184; 0; 0; 0; 0; 0; 0; 0; 0; 0; 0; 0; 0] in
  let cbytes := [32; 1; 13; 184; 0; 0; 0; 0; 171; 205; 1; 255; 254; 0; 0; 0] in
  let p := mkIPv6Pattern (mkIPv6Address pbytes) 64 0 in
  let ip := V6 (mkIPv6Address cbytes) in
  ParsePattern (str "2001:db8::/64") = Val (PatV6 p) /\
  ParseIp (str "2001:db8::abcd:1ff:fe00:0") = Val ip /\
  Version ip = 6 /\
  bitsAgree (IP6 (Pat6_IP p)) (Bytes ip) (MaskStart p) (MaskEnd p) = true /\
  Match (PatV6 p) ip = Val false.
Proof. vm_compute. repeat split. Qed.

(** C3.  The claim: an IPv4 pattern with a bad mask token fails with
    ErrInvalidPattern, e.g. "192.168.1.0/-33".  The code: parseIPv4Pattern
    is a stub, so the call returns a nil pattern and a nil error. *)
Theorem ParsePattern_IPv4_returns_nil :
  ParsePattern (str "192.168.1.0/-33") = Val PatNil /\
  ParsePattern (str "192.168.1.0/-33") <> Fail ErrInvalidPattern /\
  ParsePattern (str "192.168.1.0/0") = Val PatNil /\
  ParsePattern (str "192.168.1.0/x") = Val PatNil.
Proof. vm_compute. repeat split; discriminate. Qed.

(** C4.  The claim: ParseIp either returns an address or ErrInvalidIP, for
    every input, e.g. for "1:2:3:4:5:6:7:8:9::".  The code: on that input the
    trailing-"::" branch of extendIPv6 computes 8 - (8 + 1) = -1 blocks to
    add and strings.Repeat panics on the negative count; the same happens
    with the "::" in the middle. *)
Theorem ParseIp_panics_on_nine_groups :
  ParseIp (str "1:2:3:4:5:6:7:8:9::") = Panic /\
  ParseIp (str "1:2:3:4:5:6:7::8:9") = Panic.
Proof. vm_compute. split; reflexivity. Qed.

(** C5 as stated (maskStart <= maskEnd <= 128 for every compiled pattern)
    fails: "::1/1/-1" compiles to MaskEnd = 1 and MaskStart = 127. *)
Lemma ParsePattern_bounds_can_cross :
  ~ (forall (s : gostring) (p : IPv6Pattern),
        ParsePattern s = Val (PatV6 p) -> MaskStart p <= MaskEnd p <= 128).
Proof.
  intros H.
  specialize (H (str "::1/1/-1")
                (mkIPv6Pattern (mkIPv6Address [0;0;0;0;0;0;0;0;0;0;0;0;0;0;0;1])
                               1 127)
                eq_refl).
  cbn [MaskStart MaskEnd] in H. lia.
Qed.

(** C5, amended.  Every IPv6 pattern that ParsePattern returns has
    0 <= MaskStart < 128 and 0 < MaskEnd <= 128, so each bound lies in
    [0, 128]; MaskStart <= MaskEnd holds when the non-empty mask tokens are
    all positive or all negative. *)
Theorem ParsePattern_IPv6_bounds_in_range (s : gostring) (p : IPv6Pattern) :
  ParsePattern s = Val (PatV6 p) ->
  (0 <= MaskStart p < 128 /\ 0 < MaskEnd p <= 128) /\
  ((forall t m, In t (maskTokens s) -> strconv.Atoi t = Some m -> 0 < m) \/
   (forall t m, In t (maskTokens s) -> strconv.Atoi t = Some m -> m < 0) ->
   MaskStart p <= MaskEnd p).
Proof.
  intros H. apply ParsePattern_V6_inv, parseIPv6Pattern_inv in H.
  destruct H as (vs & Hvs & -> & ->).
  pose proof (maskValues_range _ _ Hvs) as R.
  pose proof (maskEndOf_range vs R) as RE.
  pose proof (maskStartOf_range vs R) as RS.
  split; [lia|].
  pose proof (maskValues_tokens _ _ Hvs) as T. fold (maskTokens s) in T.
  intros [Pos | Neg].
  - assert (E : filter (fun v => v <? 0) vs = []).
    { apply filter_none. intros v Hv.
      destruct (Forall2_In_r _ _ _ T v Hv) as (t & Ht & At).
      specialize (Pos t v Ht At). lia. }
    unfold maskStartOf. rewrite E. cbn [map last]. lia.
  - assert (E : filter (fun v => 0 <? v) vs = []).
    { apply filter_none. intros v Hv.
      destruct (Forall2_In_r _ _ _ T v Hv) as (t & Ht & At).
      specialize (Neg t v Ht At). lia. }
    unfold maskEndOf. rewrite E. cbn [last]. lia.
Qed.

Lemma ParsePattern_IPv6_bounds_in_range_witness :
  let p := mkIPv6Pattern
             (mkIPv6Address [254; 128; 0; 0; 0; 0; 0; 0; 0; 0; 0; 0; 0; 0; 0; 0])
             10 0 in
  ParsePattern (str "fe80::/10") = Val (PatV6 p) /\
  (0 <= MaskStart p < 128 /\ 0 < MaskEnd p <= 128) /\
  MaskStart p <= MaskEnd p.
Proof.
  intros p.
  pose proof (ParsePattern_IPv6_bounds_in_range (str "fe80::/10") p eq_refl)
    as [R O].
  split; [reflexivity|]. split; [exact R|].
  apply O. left. intros t m [<- | []] A.
  vm_compute in A. injection A as <-. lia.
Defined.

(** C6.  The claim: a string with an empty group, such as "1:2:3:4:5:6:7:",
    is rejected.  The code: extendIPv6 pads every block, the empty one
    included, to "0000" before parseIPv6 looks for empty blocks, so the
    input is accepted as 1:2:3:4:5:6:7:0. *)
Theorem ParseIp_accepts_empty_group :
  In [] (strings.Split (str "1:2:3:4:5:6:7:") colon) /\
  extendIPv6 (str "1:2:3:4:5:6:7:") =
    Val (str "0001:0002:0003:0004:0005:0006:0007:0000") /\
  ParseIp (str "1:2:3:4:5:6:7:") =
    Val (V6 (mkIPv6Address [0; 1; 0; 2; 0; 3; 0; 4; 0; 5; 0; 6; 0; 7; 0; 0])) /\
  ParseIp (str ":1:2:3:4:5:6:7") =
    Val (V6 (mkIPv6Address [0; 0; 0; 1; 0; 2; 0; 3; 0; 4; 0; 5; 0; 6; 0; 7])).
Proof.
  split; [|vm_compute; repeat split].
  vm_compute. do 7 right. left. reflexivity.
Qed.

(** C7.  For an IPv6 literal [addr] (no '/'), a positive token [t] of value
    [m] and a negative token [u] of value [k], both in range: without a mask
    suffix MaskStart = 0 and MaskEnd = 128; "/t" sets MaskEnd = m; "/u" sets
    MaskStart = 128 + k; with both tokens, in either order, MaskEnd = m and
    MaskStart = 128 + k. *)
Theorem ParsePattern_IPv6_mask_bounds
        (addr t u : gostring) (a : IPv6Address) (m k : Z) :
  strings.Contains addr slash = false ->
  ParseIp addr = Val (V6 a) ->
  strconv.Atoi t = Some m -> 0 < m <= 128 ->
  strconv.Atoi u = Some k -> -128 <= k < 0 ->
  ParsePattern addr = Val (PatV6 (mkIPv6Pattern a 128 0)) /\
  ParsePattern (addr ++ slash ++ t) = Val (PatV6 (mkIPv6Pattern a m 0)) /\
  ParsePattern (addr ++ slash ++ u) =
    Val (PatV6 (mkIPv6Pattern a 128 (128 + k))) /\
  ParsePattern (addr ++ slash ++ t ++ slash ++ u) =
    Val (PatV6 (mkIPv6Pattern a m (128 + k))) /\
  ParsePattern (addr ++ slash ++ u ++ slash ++ t) =
    Val (PatV6 (mkIPv6Pattern a m (128 + k))).
Proof.
  intros Hs Hip At Rm Au Rk.
  apply Contains_In in Hs.
  pose proof (Atoi_no_slash t m At) as St.
  pose proof (Atoi_no_slash u k Au) as Su.
  assert (Pm : (0 <? m) = true) by lia.
  assert (Nm : (m <? 0) = false) by lia.
  assert (Pk : (0 <? k) = false) by lia.
  assert (Nk : (k <? 0) = true) by lia.
  assert (Vt : forall rest, maskValues (t :: rest) =
                 match maskValues rest with
                 | Some vs => Some (m :: vs) | None => None end)
    by (intros; apply maskValues_cons; [assumption | lia | lia]).
  assert (Vu : forall rest, maskValues (u :: rest) =
                 match maskValues rest with
                 | Some vs => Some (k :: vs) | None => None end)
    by (intros; apply maskValues_cons; [assumption | lia | lia]).
  repeat split.
  - pose proof (ParsePattern_tokens addr a [] Hs Hip (Forall_nil _)) as E.
    unfold maskSuffix in E. cbn [map List.concat] in E.
    rewrite app_nil_r in E. exact E.
  - pose proof (ParsePattern_tokens addr a [t] Hs Hip ltac:(auto)) as E.
    unfold maskSuffix in E. cbn [map List.concat] in E.
    rewrite app_nil_r in E. rewrite Vt in E.
    cbn [maskValues] in E. unfold maskEndOf, maskStartOf in E.
    cbn [filter] in E. rewrite Pm, Nm in E. exact E.
  - pose proof (ParsePattern_tokens addr a [u] Hs Hip ltac:(auto)) as E.
    unfold maskSuffix in E. cbn [map List.concat] in E.
    rewrite app_nil_r in E. rewrite Vu in E.
    cbn [maskValues] in E. unfold maskEndOf, maskStartOf in E.
    cbn [filter] in E. rewrite Pk, Nk in E. exact E.
  - pose proof (ParsePattern_tokens addr a [t; u] Hs Hip ltac:(auto)) as E.
    unfold maskSuffix in E. cbn [map List.concat] in E.
    rewrite app_nil_r in E. rewrite Vt, Vu in E.
    cbn [maskValues] in E. unfold maskEndOf, maskStartOf in E.
    cbn [filter] in E. rewrite Pm, Nm, Pk, Nk in E. exact E.
  - pose proof (ParsePattern_tokens addr a [u; t] Hs Hip ltac:(auto)) as E.
    unfold maskSuffix in E. cbn [map List.concat] in E.
    rewrite app_nil_r in E. rewrite Vu, Vt in E.
    cbn [maskValues] in E. unfold maskEndOf, maskStartOf in E.
    cbn [filter] in E. rewrite Pm, Nm, Pk, Nk in E. exact E.
Qed.

Lemma ParsePattern_IPv6_mask_bounds_witness :
  ParsePattern (str "fe80::/10") =
    Val (PatV6 (mkIPv6Pattern
                  (mkIPv6Address [254; 128; 0; 0; 0; 0; 0; 0; 0; 0; 0; 0; 0; 0; 0; 0])
                  10 0)) /\
  ParsePattern (str "::100/-9") =
    Val (PatV6 (mkIPv6Pattern
                  (mkIPv6Address [0; 0; 0; 0; 0; 0; 0; 0; 0; 0; 0; 0; 0; 0; 1; 0])
                  128 119)) /\
  ParsePattern (str "::abcd:1ff:fe00:0/-64/104") =
    Val (PatV6 (mkIPv6Pattern
                  (mkIPv6Address [0; 0; 0; 0; 0; 0; 0; 0; 171; 205; 1; 255; 254; 0; 0; 0])
                  104 64)).
Proof.
  split; [|split].
  - apply (ParsePattern_IPv6_mask_bounds
             (str "fe80::") (str "10") (str "-9")
             (mkIPv6Address [254; 128; 0; 0; 0; 0; 0; 0; 0; 0; 0; 0; 0; 0; 0; 0])
             10 (-9));
      [reflexivity | reflexivity | reflexivity | lia | reflexivity | lia].
  - apply (ParsePattern_IPv6_mask_bounds
             (str "::100") (str "10") (str "-9")
             (mkIPv6Address [0; 0; 0; 0; 0; 0; 0; 0; 0; 0; 0; 0; 0; 0; 1; 0])
             10 (-9));
      [reflexivity | reflexivity | reflexivity | lia | reflexivity | lia].
  - apply (ParsePattern_IPv6_mask_bounds
             (str "::abcd:1ff:fe00:0") (str "104") (str "-64")
             (mkIPv6Address [0; 0; 0; 0; 0; 0; 0; 0; 171; 205; 1; 255; 254; 0; 0; 0])
             104 (-64));
      [reflexivity | reflexivity | reflexivity | lia | reflexivity | lia].
Defined.

(** C8.  The claim: an octet is one to three decimal digits, so an input
    with a non-digit byte in an octet, a sign included, is refused, e.g.
    "+1.0.0.1".  The code: parseIPv4 checks the length of the octet
    (commented "more than 3 digits") and the range of the value, and leaves
    the digits to strconv.Atoi, which takes a leading '+' or '-': "+1.0.0.1"
    parses to 1.0.0.1 and "-0.0.0.1" to 0.0.0.1.  The sign counts in the
    length, so "+99" is taken and "+100" is not, and "-0" is taken while
    "-1" falls to the block < 0 test. *)
Theorem ParseIp_accepts_signed_octet :
  In "+"%char (nth 0 (strings.Split (str "+1.0.0.1") (str ".")) []) /\
  isDigit "+" = false /\
  ParseIp (str "+1.0.0.1") = Val (V4 (mkIPv4Address [1; 0; 0; 1])) /\
  ParseIp (str "-0.0.0.1") = Val (V4 (mkIPv4Address [0; 0; 0; 1])) /\
  ParseIp (str "+99.0.0.1") = Val (V4 (mkIPv4Address [99; 0; 0; 1])) /\
  ParseIp (str "+100.0.0.1") = Fail ErrInvalidIP /\
  ParseIp (str "-1.0.0.1") = Fail ErrInvalidIP.
Proof.
  split; [vm_compute; left; reflexivity|].
  vm_compute. repeat split.
Qed.

(** A non-digit byte behind the optional sign makes parseIPv4 fail. *)
Lemma parseIPv4_rejects_non_digit (ip b : gostring) (c : ascii) :
  In b (strings.Split ip (str ".")) ->
  In c (unsignedPart b) -> isDigit c = false ->
  parseIPv4 ip = Fail ErrInvalidIP.
Proof.
  intros Hb Hc Hd. rewrite parseIPv4_octets.
  assert (O : octet b = None).
  { destruct (octet b) as [v|] eqn:E; [|reflexivity].
    apply octet_digits in E as (_ & _ & D & _).
    rewrite Forall_forall in D. apply D in Hc. congruence. }
  destruct (strings.Split ip (str ".")) as [|b0 [|b1 [|b2 [|b3 [|b4 l]]]]];
    try reflexivity.
  destruct Hb as [<- | [<- | [<- | [<- | []]]]]; rewrite O;
    repeat match goal with |- context [octet ?x] => destruct (octet x) end;
    reflexivity.
Qed.

(** C9.  ParseIp(":::") returns the all-zero address: the non-overlapping
    count of "::" in ":::" is 1, the branch for a leading "::" turns the
    string into six zero groups followed by "::", the branch for a trailing
    "::" then adds the last two groups. *)
Theorem ParseIp_three_colons :
  strings.Count (str ":::") dcolon = 1 /\
  extendMiddle (str ":::") = Val (str ":::") /\
  extendPrefix (str ":::") = Val (str "0000:0000:0000:0000:0000:0000::") /\
  strings.HasSuffix (str "0000:0000:0000:0000:0000:0000::") dcolon = true /\
  extendSuffix (str "0000:0000:0000:0000:0000:0000::") =
    Val (str "0000:0000:0000:0000:0000:0000:0000:0000") /\
  extendIPv6 (str ":::") = Val (str "0000:0000:0000:0000:0000:0000:0000:0000") /\
  ParseIp (str ":::") = Val (V6 (mkIPv6Address zeros16)).
Proof. vm_compute. repeat split. Qed.

(** C10.  For an IPv6 literal followed by any number of '/'-separated
    tokens, ParsePattern validates every non-empty token in order; when all
    are valid it succeeds, the last positive value being MaskEnd and the
    last negative one giving MaskStart. *)
Theorem ParsePattern_any_number_of_tokens
        (addr : gostring) (a : IPv6Address) (ts : list gostring) :
  strings.Contains addr slash = false ->
  ParseIp addr = Val (V6 a) ->
  forallb (fun t => negb (strings.Contains t slash)) ts = true ->
  ParsePattern (addr ++ maskSuffix ts) =
  match maskValues ts with
  | None => Fail ErrInvalidPattern
  | Some vs => Val (PatV6 (mkIPv6Pattern a (maskEndOf vs) (maskStartOf vs)))
  end.
Proof.
  intros Hs Hip Hts. apply ParsePattern_tokens; [|exact Hip|].
  - apply Contains_In, Hs.
  - apply Forall_forall. intros t Ht.
    rewrite forallb_forall in Hts. specialize (Hts t Ht).
    apply negb_true_iff in Hts. apply Contains_In, Hts.
Qed.

Lemma ParsePattern_any_number_of_tokens_witness :
  ParsePattern (str "::1/1/2/3") =
    Val (PatV6 (mkIPv6Pattern
                  (mkIPv6Address [0; 0; 0; 0; 0; 0; 0; 0; 0; 0; 0; 0; 0; 0; 0; 1])
                  3 0)) /\
  ParsePattern (str "::1/-1/5/-2/7") =
    Val (PatV6 (mkIPv6Pattern
                  (mkIPv6Address [0; 0; 0; 0; 0; 0; 0; 0; 0; 0; 0; 0; 0; 0; 0; 1])
                  7 126)) /\
  ParsePattern (str "::1/1/2/x") = Fail ErrInvalidPattern.
Proof.
  split; [|split].
  - exact (ParsePattern_any_number_of_tokens
             (str "::1")
             (mkIPv6Address [0; 0; 0; 0; 0; 0; 0; 0; 0; 0; 0; 0; 0; 0; 0; 1])
             [str "1"; str "2"; str "3"] eq_refl eq_refl eq_refl).
  - exact (ParsePattern_any_number_of_tokens
             (str "::1")
             (mkIPv6Address [0; 0; 0; 0; 0; 0; 0; 0; 0; 0; 0; 0; 0; 0; 0; 1])
             [str "-1"; str "5"; str "-2"; str "7"] eq_refl eq_refl eq_refl).
  - exact (ParsePattern_any_number_of_tokens
             (str "::1")
             (mkIPv6Address [0; 0; 0; 0; 0; 0; 0; 0; 0; 0; 0; 0; 0; 0; 0; 1])
             [str "1"; str "2"; str "x"] eq_refl eq_refl eq_refl).
Defined.

(** * Further properties of the parser, the pattern engine and the driver *)

(** ** Outcomes *)

Lemma noPanic_bind {A B : Type} (m : go A) (k : A -> go B) :
  noPanic m -> (forall a, m = Val a -> noPanic (k a)) -> noPanic (bind m k).
Proof.
  unfold noPanic. destruct m as [a| |]; cbn [bind]; intros Hm Hk.
  - apply Hk. reflexivity.
  - discriminate.
  - exfalso. apply Hm. reflexivity.
Qed.

Lemma onlyInvalidIP_bind {A B : Type} (m : go A) (k : A -> go B) :
  onlyInvalidIP m -> (forall a, m = Val a -> onlyInvalidIP (k a)) ->
  onlyInvalidIP (bind m k).
Proof.
  unfold onlyInvalidIP. destruct m as [a|e0|]; cbn [bind]; intros Hm Hk e H.
  - eapply Hk; [reflexivity | exact H].
  - apply Hm. injection H as <-. reflexivity.
  - discriminate.
Qed.

Lemma onlyInvalidIP_Val {A : Type} (a : A) : onlyInvalidIP (Val a).
Proof. intros e H. discriminate. Qed.

Lemma onlyInvalidIP_Fail {A : Type} : onlyInvalidIP (@Fail A ErrInvalidIP).
Proof. intros e [= <-]. reflexivity. Qed.

Lemma onlyInvalidIP_Panic {A : Type} : onlyInvalidIP (@Panic A).
Proof. intros e H. discriminate. Qed.

Lemma noPanic_Val {A : Type} (a : A) : noPanic (Val a).
Proof. discriminate. Qed.

Lemma noPanic_Fail {A : Type} (e : error) : noPanic (@Fail A e).
Proof. discriminate. Qed.

Create HintDb outcome.

#[local] Hint Resolve onlyInvalidIP_Val onlyInvalidIP_Fail onlyInvalidIP_Panic
  noPanic_Val noPanic_Fail : outcome.

Lemma Repeat_onlyInvalidIP (s : gostring) (n : Z) :
  onlyInvalidIP (strings.Repeat s n).
Proof. unfold strings.Repeat. destruct (n <? 0); auto with outcome. Qed.

Lemma hexToBytes_loop_outcome (s : gostring) (i : nat) (b : list Z) :
  noPanic (hexToBytes_loop s i b) /\ onlyInvalidIP (hexToBytes_loop s i b).
Proof.
  revert i b; induction s as [|c s IH]; intros i b; cbn [hexToBytes_loop].
  - auto with outcome.
  - destruct (hexDigit c); [apply IH | auto with outcome].
Qed.

Lemma hexToBytes_outcome (s : gostring) :
  noPanic (hexToBytes s) /\ onlyInvalidIP (hexToBytes s).
Proof.
  unfold hexToBytes. destruct (negb _); [auto with outcome|].
  apply hexToBytes_loop_outcome.
Qed.

Lemma padBlocks_outcome (blocks : list gostring) :
  noPanic (padBlocks blocks) /\ onlyInvalidIP (padBlocks blocks).
Proof.
  induction blocks as [|b rest [IH1 IH2]]; cbn [padBlocks].
  - auto with outcome.
  - destruct (4 <? len b); [auto with outcome|]. split.
    + apply noPanic_bind; auto with outcome.
    + apply onlyInvalidIP_bind; auto with outcome.
Qed.

Lemma padAndJoin_outcome (s : gostring) :
  noPanic (padAndJoin s) /\ onlyInvalidIP (padAndJoin s).
Proof.
  unfold padAndJoin. destruct (padBlocks_outcome (strings.Split s colon)).
  split.
  - apply noPanic_bind; auto with outcome.
  - apply onlyInvalidIP_bind; auto with outcome.
Qed.

Lemma extendIPv6_onlyInvalidIP (s : gostring) : onlyInvalidIP (extendIPv6 s).
Proof.
  unfold extendIPv6.
  destruct (1 <? _); [auto with outcome|].
  destruct (strings.Contains s dcolon); [|apply padAndJoin_outcome].
  destruct (streq s dcolon); [auto with outcome|].
  apply onlyInvalidIP_bind.
  { unfold extendMiddle. destruct (_ && _); [|auto with outcome].
    apply onlyInvalidIP_bind; [apply Repeat_onlyInvalidIP | auto with outcome]. }
  intros s1 _. apply onlyInvalidIP_bind.
  { unfold extendPrefix. destruct (strings.HasPrefix _ _); [|auto with outcome].
    apply onlyInvalidIP_bind; [apply Repeat_onlyInvalidIP | auto with outcome]. }
  intros s2 _. apply onlyInvalidIP_bind.
  { unfold extendSuffix. destruct (strings.HasSuffix _ _); [|auto with outcome].
    apply onlyInvalidIP_bind; [apply Repeat_onlyInvalidIP | auto with outcome]. }
  intros s3 _. apply padAndJoin_outcome.
Qed.


Lemma parseIPv6_loop_outcome (blocks : list gostring) (i : nat)
      (ipBytes : list Z) :
  noPanic (parseIPv6_loop blocks i ipBytes) /\
  onlyInvalidIP (parseIPv6_loop blocks i ipBytes).
Proof.
  revert i ipBytes; induction blocks as [|b rest IH]; intros i ipBytes;
    cbn [parseIPv6_loop].
  - auto with outcome.
  - destruct (streq b []); [auto with outcome|].
    destruct (4 <? len b); [auto with outcome|].
    destruct (hexToBytes_outcome b). split.
    + apply noPanic_bind; [assumption|]. intros; apply IH.
    + apply onlyInvalidIP_bind; [assumption|]. intros; apply IH.
Qed.

Lemma parseIPv6_onlyInvalidIP (s : gostring) : onlyInvalidIP (parseIPv6 s).
Proof.
  unfold parseIPv6. apply onlyInvalidIP_bind; [apply extendIPv6_onlyInvalidIP|].
  intros t _. destruct (negb _); [auto with outcome|].
  apply onlyInvalidIP_bind; [apply parseIPv6_loop_outcome | auto with outcome].
Qed.


Lemma parseIPv4_outcome (s : gostring) :
  noPanic (parseIPv4 s) /\ onlyInvalidIP (parseIPv4 s).
Proof.
  rewrite parseIPv4_octets.
  destruct (strings.Split s (str ".")) as [|b0 [|b1 [|b2 [|b3 [|b4 l]]]]];
    auto with outcome.
  destruct (octet b0), (octet b1), (octet b2), (octet b3); auto with outcome.
Qed.

(** X1.  ParseIp has one error only: whatever the input, a returned error
    is ErrInvalidIP, never ErrInvalidPattern. *)
Theorem ParseIp_error_is_ErrInvalidIP (s : gostring) (e : error) :
  ParseIp s = Fail e -> e = ErrInvalidIP.
Proof.
  unfold ParseIp. rewrite ParseIp_loop_firstSep.
  destruct (firstSep s) as [c|]; [|intros [= <-]; reflexivity].
  destruct (Ascii.eqb c ".").
  - apply parseIPv4_outcome.
  - apply parseIPv6_onlyInvalidIP.
Qed.

Lemma ParseIp_error_is_ErrInvalidIP_witness :
  ParseIp (str "10.0.0") = Fail ErrInvalidIP /\ ErrInvalidIP = ErrInvalidIP.
Proof.
  split; [reflexivity|].
  exact (ParseIp_error_is_ErrInvalidIP (str "10.0.0") ErrInvalidIP eq_refl).
Defined.



(** X3.  A string with neither '.' nor ':' (the empty string included) is
    not an address: ParseIp returns ErrInvalidIP. *)
Theorem ParseIp_without_separator (s : gostring) :
  forallb (fun c => negb (Ascii.eqb c "." || Ascii.eqb c ":")) s = true ->
  ParseIp s = Fail ErrInvalidIP.
Proof.
  intros H. unfold ParseIp. rewrite ParseIp_loop_firstSep.
  assert (E : firstSep s = None).
  { induction s as [|c s IH]; [reflexivity|].
    cbn [forallb] in H. apply andb_true_iff in H as [Hc Hs].
    apply negb_true_iff, orb_false_iff in Hc as [H1 H2].
    cbn [firstSep]. rewrite H1, H2. apply IH, Hs. }
  rewrite E. reflexivity.
Qed.

Lemma ParseIp_without_separator_witness :
  ParseIp (str "localhost") = Fail ErrInvalidIP /\
  ParseIp [] = Fail ErrInvalidIP.
Proof.
  split.
  - exact (ParseIp_without_separator (str "localhost") eq_refl).
  - exact (ParseIp_without_separator [] eq_refl).
Defined.

(** X4.  The first separator decides the version: a parsed address is IPv4
    exactly when the first '.' or ':' of the text is a '.', so a text whose
    first separator is ':' never yields an IPv4 address and conversely. *)
Theorem ParseIp_version_by_first_separator (s : gostring) (ip : IPAddress) :
  ParseIp s = Val ip ->
  (Version ip = 4 /\ firstSep s = Some "."%char) \/
  (Version ip = 6 /\ firstSep s = Some ":"%char).
Proof.
  unfold ParseIp. rewrite ParseIp_loop_firstSep.
  assert (K : forall r c, firstSep r = Some c -> c = "."%char \/ c = ":"%char).
  { induction r as [|d r IH]; cbn [firstSep]; [discriminate|]. intros c.
    destruct (Ascii.eqb_spec d "."); [intros [= <-]; auto|].
    destruct (Ascii.eqb_spec d ":"); [intros [= <-]; auto|]. apply IH. }
  destruct (firstSep s) as [c|] eqn:E; [|discriminate].
  destruct (K _ _ E) as [-> | ->]; cbn [Ascii.eqb]; intros H.
  - left. destruct ip as [a|a]; [|auto].
    exfalso. exact (parseIPv4_not_V6 s a H).
  - right. change (Ascii.eqb ":" ".") with false in H. cbv iota in H.
    destruct ip as [a|a]; [auto|].
    exfalso. exact (parseIPv6_not_V4 s a H).
Qed.

Lemma ParseIp_version_by_first_separator_witness :
  Version (V4 (mkIPv4Address [192; 168; 0; 1])) = 4 /\
  firstSep (str "192.168.0.1") = Some "."%char.
Proof.
  destruct (ParseIp_version_by_first_separator
              (str "192.168.0.1") (V4 (mkIPv4Address [192; 168; 0; 1]))
              eq_refl) as [H | [H _]].
  - exact H.
  - discriminate H.
Defined.

(** ** hexToBytes *)

Lemma hexDigit_range (c : ascii) (n : Z) :
  hexDigit c = Some n -> 0 <= n <= 15.
Proof.
  unfold hexDigit.
  change (code "0") with 48. change (code "9") with 57.
  change (code "a") with 97. change (code "f") with 102.
  change (code "A") with 65. change (code "F") with 70.
  destruct ((48 <=? code c) && (code c <=? 57)) eqn:E1; [intros [= <-]; lia|].
  destruct ((97 <=? code c) && (code c <=? 102)) eqn:E2; [intros [= <-]; lia|].
  destruct ((65 <=? code c) && (code c <=? 70)) eqn:E3; [intros [= <-]; lia|].
  discriminate.
Qed.

Lemma nibble_cases (x : Z) :
  0 <= x <= 15 ->
  x = 0 \/ x = 1 \/ x = 2 \/ x = 3 \/ x = 4 \/ x = 5 \/ x = 6 \/ x = 7 \/
  x = 8 \/ x = 9 \/ x = 10 \/ x = 11 \/ x = 12 \/ x = 13 \/ x = 14 \/ x = 15.
Proof. lia. Qed.

(** b[i/2] = n << 4 followed by b[i/2] |= n builds the byte 16 * hi + lo. *)
Lemma nibbles_byte (x y : Z) :
  0 <= x <= 15 -> 0 <= y <= 15 ->
  Z.lor (Z.land (Z.shiftl x 4) 255) y = x * 16 + y.
Proof.
  intros Hx Hy.
  destruct (nibble_cases x Hx) as
    [->|[->|[->|[->|[->|[->|[->|[->|[->|[->|[->|[->|[->|[->|[->| ->]]]]]]]]]]]]]]];
    destruct (nibble_cases y Hy) as
    [->|[->|[->|[->|[->|[->|[->|[->|[->|[->|[->|[->|[->|[->|[->| ->]]]]]]]]]]]]]]];
    reflexivity.
Qed.

Lemma hexToBytes_nibbles (a b c d : ascii) (x y z w : Z) :
  hexDigit a = Some x -> hexDigit b = Some y ->
  hexDigit c = Some z -> hexDigit d = Some w ->
  hexToBytes [a; b; c; d] = Val [x * 16 + y; z * 16 + w].
Proof.
  intros Ha Hb Hc Hd. unfold hexToBytes.
  change (negb (len [a; b; c; d] =? 4)) with false. cbv iota.
  cbn [hexToBytes_loop]. rewrite Ha, Hb, Hc, Hd.
  cbn [Nat.even Nat.div Nat.divmod fst setAt nth].
  rewrite !nibbles_byte by (eapply hexDigit_range; eassumption).
  reflexivity.
Qed.

Lemma isHex_hexVal (c : ascii) :
  isHex c = true -> hexDigit c = Some (hexVal c).
Proof. unfold isHex, hexVal. destruct (hexDigit c); [reflexivity | discriminate]. Qed.

Lemma hexVal_range (c : ascii) : 0 <= hexVal c <= 15.
Proof.
  unfold hexVal. destruct (hexDigit c) as [n|] eqn:E; [|lia].
  eapply hexDigit_range, E.
Qed.

Lemma hexToBytes_cases (s : gostring) :
  hexToBytes s =
  if (len s =? 4) && forallb isHex s then Val (groupBytes s)
  else Fail ErrInvalidIP.
Proof.
  destruct s as [|a [|b [|c [|d [|e s]]]]]; try reflexivity.
  - change (len [a; b; c; d] =? 4) with true. cbn [andb forallb].
    destruct (isHex a) eqn:Ha; cbn [andb].
    2:{ unfold hexToBytes, isHex in *. cbn [hexToBytes_loop].
        change (negb (len [a; b; c; d] =? 4)) with false. cbv iota.
        destruct (hexDigit a); [discriminate | reflexivity]. }
    destruct (isHex b) eqn:Hb; cbn [andb].
    2:{ unfold hexToBytes, isHex in *. cbn [hexToBytes_loop].
        change (negb (len [a; b; c; d] =? 4)) with false. cbv iota.
        destruct (hexDigit a); [|discriminate].
        destruct (hexDigit b); [discriminate | reflexivity]. }
    destruct (isHex c) eqn:Hc; cbn [andb].
    2:{ unfold hexToBytes, isHex in *. cbn [hexToBytes_loop].
        change (negb (len [a; b; c; d] =? 4)) with false. cbv iota.
        destruct (hexDigit a); [|discriminate].
        destruct (hexDigit b); [|discriminate].
        destruct (hexDigit c); [discriminate | reflexivity]. }
    destruct (isHex d) eqn:Hd; cbn [andb].
    2:{ unfold hexToBytes, isHex in *. cbn [hexToBytes_loop].
        change (negb (len [a; b; c; d] =? 4)) with false. cbv iota.
        destruct (hexDigit a); [|discriminate].
        destruct (hexDigit b); [|discriminate].
        destruct (hexDigit c); [|discriminate].
        destruct (hexDigit d); [discriminate | reflexivity]. }
    rewrite (hexToBytes_nibbles a b c d _ _ _ _
               (isHex_hexVal a Ha) (isHex_hexVal b Hb)
               (isHex_hexVal c Hc) (isHex_hexVal d Hd)).
    unfold groupBytes, groupValue. cbn [fold_left].
    pose proof (hexVal_range a). pose proof (hexVal_range b).
    pose proof (hexVal_range c). pose proof (hexVal_range d).
    f_equal. f_equal; [|f_equal]; Z.div_mod_to_equations; lia.
  - unfold hexToBytes.
    assert (E : (len (a :: b :: c :: d :: e :: s) =? 4) = false).
    { apply Z.eqb_neq. rewrite !len_cons. pose proof (len_nonneg s). lia. }
    rewrite E. reflexivity.
Qed.

(** The switch of hexToBytes against the table of hexadecimal digits. *)
Lemma hexDigit_table (c : ascii) : hexDigit c = hexTable c.
Proof.
  destruct c as [b0 b1 b2 b3 b4 b5 b6 b7].
  destruct b0, b1, b2, b3, b4, b5, b6, b7; reflexivity.
Qed.

Lemma isHex_table (c : ascii) : isHex c = isHexChar c.
Proof. unfold isHex, isHexChar. rewrite hexDigit_table. reflexivity. Qed.

Lemma hexVal_table (c : ascii) :
  hexVal c = match hexTable c with Some v => v | None => 0 end.
Proof. unfold hexVal. rewrite hexDigit_table. reflexivity. Qed.

Lemma forallb_isHex_table (s : gostring) :
  forallb isHex s = forallb isHexChar s.
Proof.
  induction s as [|c s IH]; [reflexivity|].
  cbn [forallb]. rewrite isHex_table, IH. reflexivity.
Qed.

Lemma groupValue_table (s : gostring) : groupValue s = wordValue s.
Proof.
  unfold groupValue, wordValue. generalize 0 at 1 3.
  induction s as [|c s IH]; intros n; [reflexivity|].
  cbn [fold_left]. rewrite hexVal_table. apply IH.
Qed.

(** X5.  hexToBytes succeeds exactly on the texts of four hexadecimal
    digits, 0..9, a..f for 10..15 and A..F for 10..15 as well, and returns
    the two bytes of the number they write, high byte first; every other
    text is ErrInvalidIP. *)
Theorem hexToBytes_spec :
  (forall s : gostring,
      hexToBytes s =
      if (len s =? 4) && forallb isHexChar s
      then Val [wordValue s / 256; wordValue s mod 256]
      else Fail ErrInvalidIP) /\
  hexToBytes (str "ffff") = Val [255; 255] /\
  hexToBytes (str "0db8") = Val [13; 184] /\
  hexToBytes (str "Fa09") = Val [250; 9] /\
  hexToBytes (str "12g4") = Fail ErrInvalidIP /\
  hexToBytes (str "123") = Fail ErrInvalidIP /\
  hexToBytes (str "12345") = Fail ErrInvalidIP.
Proof.
  split; [|vm_compute; repeat split].
  intros s. rewrite hexToBytes_cases, forallb_isHex_table.
  unfold groupBytes. rewrite groupValue_table. reflexivity.
Qed.

(** ** The shape of a parsed address *)

Lemma copyAt_length (dst : list Z) (off : nat) (src : list Z) :
  List.length (copyAt dst off src) = List.length dst.
Proof.
  revert off src; induction dst as [|x dst IH]; intros off src.
  - destruct off; reflexivity.
  - destruct off as [|k]; cbn [copyAt].
    + destruct src as [|y src]; [reflexivity|]. cbn [List.length].
      f_equal. apply IH.
    + cbn [List.length]. f_equal. apply IH.
Qed.

Lemma copyAt_bytes (dst : list Z) (off : nat) (src : list Z) :
  Forall isByte dst -> Forall isByte src -> Forall isByte (copyAt dst off src).
Proof.
  revert off src; induction dst as [|x dst IH]; intros off src Hd Hs.
  - destruct off; constructor.
  - inversion Hd as [|? ? Hx Hd']; subst.
    destruct off as [|k]; cbn [copyAt].
    + destruct src as [|y src]; [exact Hd|].
      inversion Hs as [|? ? Hy Hs']; subst.
      constructor; [exact Hy | apply IH; assumption].
    + constructor; [exact Hx | apply IH; assumption].
Qed.

Lemma hexToBytes_bytes (s : gostring) (block : list Z) :
  hexToBytes s = Val block -> Forall isByte block.
Proof.
  rewrite hexToBytes_cases.
  destruct ((len s =? 4) && forallb isHex s) eqn:E; [|discriminate].
  intros [= <-]. apply andb_true_iff in E as [L H].
  destruct s as [|a [|b [|c [|d [|e s]]]]]; try discriminate L.
  2:{ rewrite !len_cons in L. pose proof (len_nonneg s). lia. }
  unfold groupBytes, groupValue. cbn [fold_left].
  pose proof (hexVal_range a). pose proof (hexVal_range b).
  pose proof (hexVal_range c). pose proof (hexVal_range d).
  constructor; [|constructor; [|constructor]];
    unfold isByte; Z.div_mod_to_equations; lia.
Qed.

Lemma parseIPv6_loop_shape (blocks : list gostring) (i : nat)
      (ipBytes out : list Z) :
  parseIPv6_loop blocks i ipBytes = Val out ->
  List.length out = List.length ipBytes /\
  (Forall isByte ipBytes -> Forall isByte out).
Proof.
  revert i ipBytes; induction blocks as [|b rest IH]; intros i ipBytes;
    cbn [parseIPv6_loop].
  - intros [= <-]. auto.
  - destruct (streq b []); [discriminate|].
    destruct (4 <? len b); [discriminate|].
    destruct (hexToBytes b) as [block| |] eqn:E; cbn [bind]; try discriminate.
    intros H. apply IH in H as [L B]. rewrite copyAt_length in L. split.
    + exact L.
    + intros Hb. apply B, copyAt_bytes; [exact Hb|].
      eapply hexToBytes_bytes, E.
Qed.

Lemma ParseIp_V6_len (s : gostring) (a : IPv6Address) :
  ParseIp s = Val (V6 a) -> len (IP6 a) = 16.
Proof.
  intros H. apply ParseIp_V6_firstSep in H as [_ H]. unfold parseIPv6 in H.
  destruct (extendIPv6 s) as [t| |]; cbn [bind] in H; try discriminate.
  destruct (negb _); [discriminate|].
  destruct (parseIPv6_loop _ 0 (repeat 0 16)) as [out| |] eqn:E;
    cbn [bind] in H; try discriminate.
  injection H as <-. apply parseIPv6_loop_shape in E as [L _].
  cbn [IP6]. unfold len. rewrite L. reflexivity.
Qed.

(** X6.  A parsed address has the size of its version, 4 bytes for IPv4 and
    16 for IPv6, and every element is a byte (0..255). *)
Theorem ParseIp_address_shape (s : gostring) (ip : IPAddress) :
  ParseIp s = Val ip ->
  len (Bytes ip) = (if Version ip =? 4 then 4 else 16) /\
  Forall isByte (Bytes ip).
Proof.
  unfold ParseIp. rewrite ParseIp_loop_firstSep.
  destruct (firstSep s) as [c|]; [|discriminate].
  destruct (Ascii.eqb c ".").
  - rewrite parseIPv4_octets.
    destruct (strings.Split s (str ".")) as [|b0 [|b1 [|b2 [|b3 [|b4 l]]]]];
      try discriminate.
    destruct (octet b0) as [v0|] eqn:E0; [|discriminate].
    destruct (octet b1) as [v1|] eqn:E1; [|discriminate].
    destruct (octet b2) as [v2|] eqn:E2; [|discriminate].
    destruct (octet b3) as [v3|] eqn:E3; [|discriminate].
    intros [= <-]. split; [reflexivity|].
    apply octet_digits in E0 as (_ & _ & _ & R0).
    apply octet_digits in E1 as (_ & _ & _ & R1).
    apply octet_digits in E2 as (_ & _ & _ & R2).
    apply octet_digits in E3 as (_ & _ & _ & R3).
    cbn [Bytes IP4].
    constructor; [|constructor; [|constructor; [|constructor; [|constructor]]]];
      assumption.
  - unfold parseIPv6.
    destruct (extendIPv6 s) as [t| |]; cbn [bind]; try discriminate.
    destruct (negb _); [discriminate|].
    destruct (parseIPv6_loop _ 0 (repeat 0 16)) as [out| |] eqn:E;
      cbn [bind]; try discriminate.
    intros [= <-]. apply parseIPv6_loop_shape in E as [L B].
    cbn [Bytes IP6 Version]. split.
    + unfold len. rewrite L. reflexivity.
    + apply B. apply Forall_forall. intros z Hz.
      apply repeat_spec in Hz. subst z. unfold isByte. lia.
Qed.

Lemma ParseIp_address_shape_witness :
  let ip := V6 (mkIPv6Address
                  [32; 1; 13; 184; 0; 0; 0; 0; 0; 0; 0; 0; 0; 0; 0; 80]) in
  len (Bytes ip) = 16 /\ Forall isByte (Bytes ip).
Proof.
  exact (ParseIp_address_shape (str "2001:db8::50") _ eq_refl).
Defined.

(** ** Dotted decimal *)

Lemma isDigit_not_separator (c : ascii) :
  isDigit c = true ->
  Ascii.eqb c "." = false /\ Ascii.eqb c ":" = false /\
  Ascii.eqb c "-" = false /\ Ascii.eqb c "+" = false.
Proof.
  intros H. repeat split; apply Ascii.eqb_neq; intros ->;
    vm_compute in H; discriminate.
Qed.

Lemma digits_no_dot (b : gostring) :
  forallb isDigit b = true -> ~ In "."%char b.
Proof.
  intros H Hin. rewrite forallb_forall in H. apply H in Hin.
  vm_compute in Hin. discriminate.
Qed.

Lemma firstSep_digits (b r : gostring) :
  forallb isDigit b = true -> firstSep (b ++ r) = firstSep r.
Proof.
  induction b as [|c b IH]; [reflexivity|].
  cbn [forallb app firstSep]. intros H. apply andb_true_iff in H as [Hc Hb].
  destruct (isDigit_not_separator c Hc) as (-> & -> & _). apply IH, Hb.
Qed.

Lemma octet_digitOctet (b : gostring) :
  digitOctet b = true -> octet b = Some (decimal b).
Proof.
  unfold digitOctet. intros H.
  apply andb_true_iff in H as [H V]. apply andb_true_iff in H as [H D].
  apply andb_true_iff in H as [L1 L3].
  destruct b as [|c r]; [discriminate L1|].
  assert (Hc : isDigit c = true) by (cbn [forallb] in D; apply andb_true_iff in D; tauto).
  destruct (isDigit_not_separator c Hc) as (_ & _ & Em & Ep).
  unfold octet, unsignedPart, isNegative. rewrite Em, Ep. cbn [orb].
  rewrite L1, L3, D. cbn [andb].
  assert (P : 0 <= decimal (c :: r)).
  { unfold decimal.
    assert (G : forall l n, forallb isDigit l = true -> 0 <= n ->
                0 <= fold_left (fun n c => n * 10 + (code c - code "0")) l n).
    { induction l as [|d l IH]; intros n Hl Hn; [exact Hn|].
      cbn [forallb] in Hl. apply andb_true_iff in Hl as [Hd Hl].
      cbn [fold_left]. apply IH; [exact Hl|].
      unfold isDigit in Hd. change (code "0") with 48 in *. lia. }
    apply G; [exact D | lia]. }
  replace ((0 <=? decimal (c :: r)) && (decimal (c :: r) <=? 255)) with true
    by lia.
  reflexivity.
Qed.

(** X7.  Four decimal octets (one to three digits each, value at most 255)
    joined by dots parse to the IPv4 address made of their values; leading
    zeros count as decimal digits. *)
Theorem ParseIp_dotted_decimal (b0 b1 b2 b3 : gostring) :
  digitOctet b0 = true -> digitOctet b1 = true ->
  digitOctet b2 = true -> digitOctet b3 = true ->
  ParseIp (b0 ++ str "." ++ b1 ++ str "." ++ b2 ++ str "." ++ b3) =
  Val (V4 (mkIPv4Address [decimal b0; decimal b1; decimal b2; decimal b3])).
Proof.
  intros H0 H1 H2 H3.
  assert (D : forall b, digitOctet b = true -> forallb isDigit b = true).
  { intros b H. unfold digitOctet in H.
    apply andb_true_iff in H as [H _]. apply andb_true_iff in H as [_ H].
    exact H. }
  change (str ".") with ["."%char]. cbn [app].
  unfold ParseIp. rewrite ParseIp_loop_firstSep.
  rewrite firstSep_digits by (apply D, H0).
  cbn [firstSep Ascii.eqb]. change (Ascii.eqb "." ".") with true. cbv iota.
  rewrite parseIPv4_octets. change (str ".") with ["."%char].
  rewrite Split_first by (apply digits_no_dot, D, H0).
  rewrite Split_first by (apply digits_no_dot, D, H1).
  rewrite Split_first by (apply digits_no_dot, D, H2).
  rewrite Split_absent by (apply digits_no_dot, D, H3).
  rewrite !octet_digitOctet by assumption. reflexivity.
Qed.

Lemma ParseIp_dotted_decimal_witness :
  ParseIp (str "192.168.000.01") =
  Val (V4 (mkIPv4Address [192; 168; 0; 1])).
Proof.
  exact (ParseIp_dotted_decimal (str "192") (str "168") (str "000") (str "01")
           eq_refl eq_refl eq_refl eq_refl).
Defined.

(** ** Match *)

(** Comparisons on [Z] decided through their specifications. *)
Ltac zbool :=
  repeat match goal with
         | |- context [?a <? ?b] => destruct (Z.ltb_spec a b)
         | |- context [?a <=? ?b] => destruct (Z.leb_spec a b)
         | |- context [?a =? ?b] => destruct (Z.eqb_spec a b)
         end;
  cbn [andb orb negb]; try reflexivity; try lia.

Lemma index_in_range (a : list Z) (i : Z) :
  0 <= i < len a -> index a i = Val (nth (Z.to_nat i) a 0).
Proof.
  intros H. unfold index.
  replace ((i <? 0) || (len a <=? i)) with false by lia. reflexivity.
Qed.

Lemma index_out_of_range (a : list Z) (i : Z) :
  len a <= i -> index a i = Panic.
Proof.
  intros H. unfold index.
  replace ((i <? 0) || (len a <=? i)) with true by lia. reflexivity.
Qed.

Lemma Match6_loop_spec (p : IPv6Pattern) (ipBytes : list Z) (n : nat) (i : Z) :
  len ipBytes = 16 -> len (IP6 (Pat6_IP p)) = 16 -> 0 <= i ->
  Match6_loop p ipBytes n i =
  if bytesAgreeFrom ipBytes (IP6 (Pat6_IP p)) i
       (Z.to_nat (Z.min (i + Z.of_nat n) 16 - i))
  then if (0 <? Z.of_nat n) && (16 <? i + Z.of_nat n) then Panic else Val true
  else Val false.
Proof.
  intros Hb Hp. revert i. induction n as [|n IH]; intros i Hi.
  - replace (Z.to_nat (Z.min (i + Z.of_nat 0) 16 - i)) with O by lia.
    reflexivity.
  - cbn [Match6_loop]. destruct (Z.le_gt_cases 16 i) as [Hge | Hlt].
    + rewrite index_out_of_range by lia. cbn [bind].
      replace (Z.to_nat (Z.min (i + Z.of_nat (S n)) 16 - i)) with O by lia.
      cbn [bytesAgreeFrom].
      replace ((0 <? Z.of_nat (S n)) && (16 <? i + Z.of_nat (S n))) with true
        by zbool.
      reflexivity.
    + rewrite !index_in_range by lia. cbn [bind].
      replace (Z.to_nat (Z.min (i + Z.of_nat (S n)) 16 - i))
        with (S (Z.to_nat (Z.min (i + 1 + Z.of_nat n) 16 - (i + 1)))) by lia.
      cbn [bytesAgreeFrom].
      destruct (nth (Z.to_nat i) ipBytes 0 =? nth (Z.to_nat i) (IP6 (Pat6_IP p)) 0);
        cbn [negb andb]; [|reflexivity].
      rewrite IH by lia.
      replace ((0 <? Z.of_nat (S n)) && (16 <? i + Z.of_nat (S n)))
        with ((0 <? Z.of_nat n) && (16 <? i + 1 + Z.of_nat n)) by zbool.
      reflexivity.
Qed.

Lemma Match6_cases (p : IPv6Pattern) (a : IPv6Address) :
  len (IP6 a) = 16 -> len (IP6 (Pat6_IP p)) = 16 -> 0 <= MaskStart p ->
  Match6 p (V6 a) =
  if bytesAgreeFrom (IP6 a) (IP6 (Pat6_IP p)) (MaskStart p)
       (Z.to_nat (Z.min (MaskEnd p) 16 - MaskStart p))
  then if (MaskStart p <? MaskEnd p) && (16 <? MaskEnd p) then Panic
       else Val true
  else Val false.
Proof.
  intros Ha Hp Hs. unfold Match6. cbn [Version Bytes].
  change (negb (6 =? 6)) with false. cbv iota.
  rewrite Match6_loop_spec by assumption.
  destruct (Z.le_gt_cases (MaskEnd p) (MaskStart p)) as [Hle | Hgt].
  - replace (Z.to_nat (MaskEnd p - MaskStart p)) with O by lia.
    replace (Z.to_nat (Z.min (MaskStart p + Z.of_nat 0) 16 - MaskStart p))
      with O by lia.
    replace (Z.to_nat (Z.min (MaskEnd p) 16 - MaskStart p)) with O by lia.
    cbn [bytesAgreeFrom].
    replace ((MaskStart p <? MaskEnd p) && (16 <? MaskEnd p)) with false by zbool.
    reflexivity.
  - rewrite Z2Nat.id by lia.
    replace (MaskStart p + (MaskEnd p - MaskStart p)) with (MaskEnd p) by lia.
    replace ((0 <? MaskEnd p - MaskStart p) && (16 <? MaskEnd p))
      with ((MaskStart p <? MaskEnd p) && (16 <? MaskEnd p)) by zbool.
    reflexivity.
Qed.

(** X8.  What IPv6Pattern.Match computes on an IPv6 candidate: the bytes
    (not the bits) at the indices MaskStart .. min(MaskEnd, 16) - 1 are
    compared; the first difference gives false; without a difference the
    result is true when the range ends within the 16 bytes (or is empty),
    and a panic when MaskEnd exceeds 16. *)
Theorem Match6_spec (p : IPv6Pattern) (a : IPv6Address) :
  len (IP6 a) = 16 -> len (IP6 (Pat6_IP p)) = 16 -> 0 <= MaskStart p ->
  Match6 p (V6 a) =
  if bytesAgreeFrom (IP6 a) (IP6 (Pat6_IP p)) (MaskStart p)
       (Z.to_nat (Z.min (MaskEnd p) 16 - MaskStart p))
  then if (MaskStart p <? MaskEnd p) && (16 <? MaskEnd p) then Panic
       else Val true
  else Val false.
Proof. apply Match6_cases. Qed.

Lemma Match6_spec_witness :
  let a := mkIPv6Address [254; 128; 0; 0; 0; 0; 0; 0; 0; 0; 0; 0; 0; 0; 0; 1] in
  let p := mkIPv6Pattern
             (mkIPv6Address [254; 128; 0; 0; 0; 0; 0; 0; 0; 0; 0; 0; 0; 0; 0; 0])
             10 0 in
  Match6 p (V6 a) = Val true.
Proof.
  intros a p.
  exact (Match6_spec p a eq_refl eq_refl ltac:(discriminate)).
Defined.

Lemma Match6_empty_range (p : IPv6Pattern) (a : IPv6Address) :
  MaskEnd p <= MaskStart p -> Match6 p (V6 a) = Val true.
Proof.
  intros H. unfold Match6. cbn [Version Bytes].
  change (negb (6 =? 6)) with false. cbv iota.
  replace (Z.to_nat (MaskEnd p - MaskStart p)) with O by lia. reflexivity.
Qed.

(** X9.  A prefix token [t] of value m and a suffix token [u] of value k
    whose ranges do not meet (m <= 128 + k) compile without error to
    crossed bounds, and the pattern then compares nothing: it matches every
    IPv6 address. *)
Theorem crossed_bounds_match_everything
        (addr t u : gostring) (a b : IPv6Address) (m k : Z) :
  strings.Contains addr slash = false ->
  ParseIp addr = Val (V6 a) ->
  strconv.Atoi t = Some m -> 0 < m ->
  strconv.Atoi u = Some k -> -128 <= k < 0 ->
  m <= 128 + k ->
  exists p,
    ParsePattern (addr ++ slash ++ t ++ slash ++ u) = Val (PatV6 p) /\
    Match (PatV6 p) (V6 b) = Val true.
Proof.
  intros Hs Hip At Pm Au Rk Hx.
  apply Contains_In in Hs.
  pose proof (Atoi_no_slash t m At) as St.
  pose proof (Atoi_no_slash u k Au) as Su.
  pose proof (ParsePattern_tokens addr a [t; u] Hs Hip ltac:(auto)) as E.
  unfold maskSuffix in E. cbn [map List.concat] in E.
  rewrite app_nil_r in E.
  rewrite (maskValues_cons t m [u] At) in E by lia.
  rewrite (maskValues_cons u k [] Au) in E by lia.
  cbn [maskValues] in E. unfold maskEndOf, maskStartOf in E.
  cbn [filter] in E.
  replace (0 <? m) with true in E by lia.
  replace (m <? 0) with false in E by lia.
  replace (0 <? k) with false in E by lia.
  replace (k <? 0) with true in E by lia.
  cbn [map last] in E.
  exists (mkIPv6Pattern a m (128 + k)). split; [exact E|].
  cbn [Match]. apply Match6_empty_range. cbn [MaskEnd MaskStart]. exact Hx.
Qed.

Lemma crossed_bounds_match_everything_witness :
  exists p,
    ParsePattern (str "::1/1/-1") = Val (PatV6 p) /\
    Match (PatV6 p)
          (V6 (mkIPv6Address
                 [32; 1; 13; 184; 0; 0; 0; 0; 0; 0; 0; 0; 0; 0; 0; 80])) =
    Val true.
Proof.
  apply (crossed_bounds_match_everything
           (str "::1") (str "1") (str "-1")
           (mkIPv6Address [0; 0; 0; 0; 0; 0; 0; 0; 0; 0; 0; 0; 0; 0; 0; 1])
           _ 1 (-1));
    [reflexivity | reflexivity | reflexivity | lia | reflexivity | lia | lia].
Defined.

Lemma Match4_loop_not_true (p : IPv4Pattern) (ipBytes : list Z) (n : nat)
      (i : Z) :
  len ipBytes <= 4 -> (0 < n)%nat -> 4 < i + Z.of_nat n ->
  Match4_loop p ipBytes n i <> Val true.
Proof.
  intros Hlen. revert i. induction n as [|n IH]; intros i Hn Hi; [lia|].
  cbn [Match4_loop]. unfold index at 1.
  destruct ((i <? 0) || (len ipBytes <=? i)) eqn:E; [discriminate|].
  cbn [bind]. destruct (index (IP4 (Pat4_IP p)) i); [|discriminate..].
  cbn [bind]. destruct (index (Mask p) i); [|discriminate..].
  cbn [bind]. destruct (negb _); [discriminate|].
  apply IH; lia.
Qed.

(** X10.  IPv4Pattern.Match never answers true for a four-byte address: its
    loop runs over the 32 bit positions and indexes the four bytes with
    them, so it ends with false or with a panic. *)
Theorem Match4_never_true (p : IPv4Pattern) (a : IPv4Address) :
  len (IP4 a) = 4 -> Match4 p (V4 a) <> Val true.
Proof.
  intros H. unfold Match4. cbn [Version Bytes].
  change (negb (4 =? 4)) with false. cbv iota.
  apply Match4_loop_not_true; [lia | lia | cbn; lia].
Qed.

Lemma Match4_never_true_witness :
  Match4 (mkIPv4Pattern (mkIPv4Address [10; 0; 0; 1]) [255; 255; 255; 255])
         (V4 (mkIPv4Address [10; 0; 0; 1])) <> Val true.
Proof. apply Match4_never_true. reflexivity. Defined.

(** ** ParsePattern: errors and panics *)

Lemma ParseIp_V4_firstSep (s : gostring) (a : IPv4Address) :
  ParseIp s = Val (V4 a) -> firstSep s = Some "."%char.
Proof.
  unfold ParseIp. rewrite ParseIp_loop_firstSep.
  destruct (firstSep s) as [c|] eqn:E; [|discriminate].
  destruct (Ascii.eqb_spec c ".") as [-> | N]; [reflexivity|].
  intros H. exfalso. exact (parseIPv6_not_V4 s a H).
Qed.

Lemma ParseIp_onlyInvalidIP (s : gostring) : onlyInvalidIP (ParseIp s).
Proof.
  unfold ParseIp. rewrite ParseIp_loop_firstSep.
  destruct (firstSep s) as [c|]; [|auto with outcome].
  destruct (Ascii.eqb c ".").
  - apply parseIPv4_outcome.
  - apply parseIPv6_onlyInvalidIP.
Qed.

(** What parseIPv6Pattern returns, by the outcome of the literal. *)
Lemma parseIPv6Pattern_cases (s : gostring) :
  firstSep s = Some ":"%char ->
  parseIPv6Pattern s =
  match ParseIp (ipPartOf s) with
  | Val (V6 a) =>
      match maskValues (strings.Split (maskPartOf s) slash) with
      | None => Fail ErrInvalidPattern
      | Some vs => Val (PatV6 (mkIPv6Pattern a (maskEndOf vs) (maskStartOf vs)))
      end
  | Val (V4 _) => Fail ErrInvalidIP
  | Fail _ => Fail ErrInvalidIP
  | Panic => Panic
  end.
Proof.
  intros Hs.
  destruct (ParseIp (ipPartOf s)) as [[a|a]|e|] eqn:E.
  - apply parseIPv6Pattern_spec, E.
  - exfalso. apply ParseIp_V4_firstSep, firstSep_ipPartOf in E. congruence.
  - unfold parseIPv6Pattern. rewrite E. cbn [bind].
    rewrite (ParseIp_onlyInvalidIP _ e E). reflexivity.
  - unfold parseIPv6Pattern. rewrite E. reflexivity.
Qed.

Lemma ParsePattern_colon (s : gostring) :
  firstSep s = Some ":"%char -> ParsePattern s = parseIPv6Pattern s.
Proof.
  intros H. unfold ParsePattern. rewrite ParsePattern_loop_firstSep, H.
  reflexivity.
Qed.

Lemma firstSep_cases (s : gostring) :
  firstSep s = None \/ firstSep s = Some "."%char \/ firstSep s = Some ":"%char.
Proof.
  induction s as [|c s IH]; cbn [firstSep]; [auto|].
  destruct (Ascii.eqb_spec c "."); [subst; auto|].
  destruct (Ascii.eqb_spec c ":"); [subst; auto|]. exact IH.
Qed.

(** X11.  ParsePattern panics only when parsing the address literal does:
    the type assertion ip.(IPv6Address) of parseIPv6Pattern cannot fail,
    because a literal that parses as IPv4 sends the string to the IPv4
    branch, and the mask loop has no panic of its own. *)
Theorem ParsePattern_panics_only_in_ParseIp (s : gostring) :
  ParsePattern s = Panic -> ParseIp (ipPartOf s) = Panic.
Proof.
  destruct (firstSep_cases s) as [E | [E | E]].
  - unfold ParsePattern. rewrite ParsePattern_loop_firstSep, E. discriminate.
  - unfold ParsePattern. rewrite ParsePattern_loop_firstSep, E. discriminate.
  - rewrite (ParsePattern_colon s E), (parseIPv6Pattern_cases s E).
    destruct (ParseIp (ipPartOf s)) as [[a|a]|e|]; try discriminate;
      [|reflexivity].
    destruct (maskValues _); discriminate.
Qed.

Lemma ParsePattern_panics_only_in_ParseIp_witness :
  ParsePattern (str "1:2:3:4:5:6:7:8:9::/64") = Panic /\
  ParseIp (ipPartOf (str "1:2:3:4:5:6:7:8:9::/64")) = Panic.
Proof.
  split; [reflexivity|].
  exact (ParsePattern_panics_only_in_ParseIp
           (str "1:2:3:4:5:6:7:8:9::/64") eq_refl).
Defined.

(** X12.  The two errors of ParsePattern: ErrInvalidPattern is returned only
    for a literal that parses as IPv6 followed by a mask token that is not a
    non-zero integer within [-128, 128]; ErrInvalidIP means that the string
    has no separator or that its literal does not parse, and then the mask
    tokens are not looked at. *)
Theorem ParsePattern_error_kinds (s : gostring) (e : error) :
  ParsePattern s = Fail e ->
  (e = ErrInvalidIP /\
   (firstSep s = None \/ ParseIp (ipPartOf s) = Fail ErrInvalidIP)) \/
  (e = ErrInvalidPattern /\
   exists a, ParseIp (ipPartOf s) = Val (V6 a) /\
             maskValues (strings.Split (maskPartOf s) slash) = None).
Proof.
  destruct (firstSep_cases s) as [E | [E | E]].
  - unfold ParsePattern. rewrite ParsePattern_loop_firstSep, E.
    intros [= <-]. left. auto.
  - unfold ParsePattern. rewrite ParsePattern_loop_firstSep, E. discriminate.
  - rewrite (ParsePattern_colon s E), (parseIPv6Pattern_cases s E).
    destruct (ParseIp (ipPartOf s)) as [[a|a]|e0|] eqn:P; try discriminate.
    + destruct (maskValues _) eqn:M; [discriminate|].
      intros [= <-]. right. split; [reflexivity|]. exists a. auto.
    + exfalso. apply ParseIp_V4_firstSep, firstSep_ipPartOf in P. congruence.
    + intros [= <-]. left. split; [reflexivity|]. right.
      rewrite (ParseIp_onlyInvalidIP _ e0 P). reflexivity.
Qed.

Lemma ParsePattern_error_kinds_witness :
  ParsePattern (str "::g/129") = Fail ErrInvalidIP /\
  ParseIp (ipPartOf (str "::g/129")) = Fail ErrInvalidIP.
Proof.
  split; [reflexivity|].
  destruct (ParsePattern_error_kinds (str "::g/129") ErrInvalidIP eq_refl)
    as [[_ [H | H]] | [H _]].
  - discriminate H.
  - exact H.
  - discriminate H.
Defined.

Lemma maskValues_filter (ts : list gostring) :
  maskValues (filter (fun t => negb (streq t [])) ts) = maskValues ts.
Proof.
  induction ts as [|t ts IH]; [reflexivity|].
  cbn [filter maskValues]. destruct (streq t []) eqn:E; cbn [negb].
  - exact IH.
  - cbn [maskValues]. rewrite E, IH. reflexivity.
Qed.

(** X13.  Empty mask tokens are skipped: behind an IPv6 literal, a mask
    suffix with empty tokens (a trailing '/', a doubled '/') compiles like
    the suffix without them. *)
Theorem ParsePattern_ignores_empty_tokens
        (addr : gostring) (a : IPv6Address) (ts : list gostring) :
  strings.Contains addr slash = false ->
  ParseIp addr = Val (V6 a) ->
  forallb (fun t => negb (strings.Contains t slash)) ts = true ->
  ParsePattern (addr ++ maskSuffix ts) =
  ParsePattern (addr ++ maskSuffix (filter (fun t => negb (streq t [])) ts)).
Proof.
  intros Hs Hip Hts. apply Contains_In in Hs.
  assert (F : Forall (fun t => ~ In "/"%char t) ts).
  { apply Forall_forall. intros t Ht.
    rewrite forallb_forall in Hts. specialize (Hts t Ht).
    apply negb_true_iff in Hts. apply Contains_In, Hts. }
  rewrite (ParsePattern_tokens addr a ts Hs Hip F).
  rewrite (ParsePattern_tokens addr a _ Hs Hip).
  - rewrite maskValues_filter. reflexivity.
  - apply Forall_forall. intros t Ht. apply filter_In in Ht as [Ht _].
    rewrite Forall_forall in F. apply F, Ht.
Qed.

Lemma ParsePattern_ignores_empty_tokens_witness :
  ParsePattern (str "fe80:://10/") = ParsePattern (str "fe80::/10").
Proof.
  exact (ParsePattern_ignores_empty_tokens
           (str "fe80::")
           (mkIPv6Address [254; 128; 0; 0; 0; 0; 0; 0; 0; 0; 0; 0; 0; 0; 0; 0])
           [[]; str "10"; []] eq_refl eq_refl eq_refl).
Defined.

(** ** Run *)

Lemma scanLines_skips (patterns : list Pattern) (lines : list gostring)
      (out : list gostring) :
  scanLines patterns lines out =
  scanLines patterns (filter (fun l => negb (unparsable l)) lines) out.
Proof.
  revert out; induction lines as [|line rest IH]; intros out; [reflexivity|].
  cbn [filter]. unfold unparsable at 1.
  destruct (ParseIp line) as [ip|e|] eqn:E; cbn [negb].
  - cbn [scanLines]. rewrite E.
    destruct (matchAll patterns ip line out); cbn [bind]; auto.
  - cbn [scanLines]. rewrite E. apply IH.
  - cbn [scanLines]. rewrite E. reflexivity.
Qed.

(** X14.  Lines that ParseIp rejects are skipped: a run over the input is
    the run over the input without them (it writes the same lines and ends
    the same way). *)
Theorem Run_skips_unparsable_lines (lines ps : list gostring) :
  Run lines ps = Run (filter (fun l => negb (unparsable l)) lines) ps.
Proof.
  unfold Run. destruct (loadPatterns ps) as [patterns| |]; cbn [bind];
    [apply scanLines_skips | reflexivity | reflexivity].
Qed.

(** X15.  Patterns are compiled before any line is read: if the patterns in
    front compile and one does not, Run returns the error of that pattern,
    whatever the input and the patterns behind it. *)
Theorem Run_returns_first_pattern_error
        (lines good rest : list gostring) (bad : gostring)
        (patterns : list Pattern) (e : error) :
  loadPatterns good = Val patterns ->
  ParsePattern bad = Fail e ->
  Run lines (good ++ bad :: rest) = Fail e.
Proof.
  intros Hg Hb. unfold Run.
  assert (L : loadPatterns (good ++ bad :: rest) = Fail e).
  { revert patterns Hg. induction good as [|g good IH]; intros patterns Hg.
    - cbn [app loadPatterns]. rewrite Hb. reflexivity.
    - cbn [app loadPatterns] in *.
      destruct (ParsePattern g) as [pg| |]; cbn [bind] in *; try discriminate.
      destruct (loadPatterns good) as [pats| |]; cbn [bind] in *;
        try discriminate.
      rewrite (IH pats eq_refl). reflexivity. }
  rewrite L. reflexivity.
Qed.

Lemma Run_returns_first_pattern_error_witness :
  Run [str "fe80::1"; str "10.0.0.1"]
      [str "fe80::/10"; str "::1/0"; str "not a pattern"] =
  Fail ErrInvalidPattern.
Proof.
  exact (Run_returns_first_pattern_error
           [str "fe80::1"; str "10.0.0.1"] [str "fe80::/10"]
           [str "not a pattern"] (str "::1/0")
           [PatV6 (mkIPv6Pattern
                     (mkIPv6Address
                        [254; 128; 0; 0; 0; 0; 0; 0; 0; 0; 0; 0; 0; 0; 0; 0])
                     10 0)]
           ErrInvalidPattern eq_refl eq_refl).
Defined.

Lemma loadPatterns_length (ps : list gostring) (patterns : list Pattern) :
  loadPatterns ps = Val patterns -> List.length patterns = List.length ps.
Proof.
  revert patterns; induction ps as [|p ps IH]; intros patterns;
    cbn [loadPatterns].
  - intros [= <-]. reflexivity.
  - destruct (ParsePattern p); cbn [bind]; try discriminate.
    destruct (loadPatterns ps) as [pats| |]; cbn [bind]; try discriminate.
    intros [= <-]. cbn [List.length]. f_equal. apply IH. reflexivity.
Qed.

Lemma matchAll_emits (patterns : list Pattern) (ip : IPAddress)
      (line : gostring) (out out' : list gostring) :
  matchAll patterns ip line out = Val out' ->
  exists k, (k <= List.length patterns)%nat /\ out' = out ++ repeat line k.
Proof.
  revert out; induction patterns as [|p rest IH]; intros out; cbn [matchAll].
  - intros [= <-]. exists O. split; [apply Nat.le_refl|].
    cbn [repeat]. rewrite app_nil_r. reflexivity.
  - destruct (Match p ip) as [m| |]; cbn [bind]; try discriminate.
    intros H. apply IH in H as (k & Hk & ->). destruct m.
    + exists (S k). split; [cbn [List.length]; lia|].
      rewrite <- app_assoc. reflexivity.
    + exists k. split; [cbn [List.length]; lia | reflexivity].
Qed.

Lemma scanLines_emits (patterns : list Pattern) (lines : list gostring)
      (out out' : list gostring) :
  scanLines patterns lines out = Val out' ->
  exists ks, List.length ks = List.length lines /\
             Forall (fun k => (k <= List.length patterns)%nat) ks /\
             out' = out ++ emitted lines ks.
Proof.
  revert out; induction lines as [|line rest IH]; intros out; cbn [scanLines].
  - intros [= <-]. exists []. split; [reflexivity|]. split; [constructor|].
    cbn [emitted]. rewrite app_nil_r. reflexivity.
  - destruct (ParseIp line) as [ip|e|]; [| |discriminate].
    + destruct (matchAll patterns ip line out) as [o| |] eqn:M; cbn [bind];
        try discriminate.
      apply matchAll_emits in M as (k & Hk & ->).
      intros H. apply IH in H as (ks & L & F & ->).
      exists (k :: ks). split; [|split].
      * cbn [List.length]. f_equal. exact L.
      * constructor; assumption.
      * cbn [emitted]. rewrite <- app_assoc. reflexivity.
    + intros H. apply IH in H as (ks & L & F & ->).
      exists (O :: ks). split; [|split].
      * cbn [List.length]. f_equal. exact L.
      * constructor; [lia | assumption].
      * reflexivity.
Qed.

(** X16.  What a successful run writes: the input lines, verbatim and in
    input order, each one between zero times and once per pattern. *)
Theorem Run_output_shape (lines ps out : list gostring) :
  Run lines ps = Val out ->
  exists ks, List.length ks = List.length lines /\
             Forall (fun k => (k <= List.length ps)%nat) ks /\
             out = emitted lines ks.
Proof.
  unfold Run. destruct (loadPatterns ps) as [patterns| |] eqn:L; cbn [bind];
    try discriminate.
  intros H. apply scanLines_emits in H as (ks & Hl & F & ->).
  rewrite (loadPatterns_length _ _ L) in F. exists ks. auto.
Qed.

Lemma Run_output_shape_witness :
  exists ks, List.length ks = 3%nat /\
             Forall (fun k => (k <= 2)%nat) ks /\
             [str "fe80::1"; str "fe80::1"] =
             emitted [str "fe80::1"; str "bad line"; str "fe81::1"] ks.
Proof.
  exact (Run_output_shape
           [str "fe80::1"; str "bad line"; str "fe81::1"]
           [str "fe80::/2"; str "fe80:0:0:0:0:0:0:1/16"]
           [str "fe80::1"; str "fe80::1"] eq_refl).
Defined.

Lemma Match_no_error (p : Pattern) (ip : IPAddress) (e : error) :
  Match p ip <> Fail e.
Proof.
  assert (I : forall a i e', index a i <> Fail e').
  { intros a i e'. unfold index. destruct (_ || _); discriminate. }
  destruct p as [|p|p]; cbn [Match]; [discriminate| |].
  - unfold Match6. destruct (negb _); [discriminate|].
    generalize (Z.to_nat (MaskEnd p - MaskStart p)).
    generalize (MaskStart p).
    intros i n. revert i. induction n as [|n IH]; intros i; cbn [Match6_loop];
      [discriminate|].
    destruct (index (Bytes ip) i) eqn:E1; cbn [bind]; try discriminate.
    2:{ exfalso. eapply I, E1. }
    destruct (index (IP6 (Pat6_IP p)) i) eqn:E2; cbn [bind]; try discriminate.
    2:{ exfalso. eapply I, E2. }
    destruct (negb _); [discriminate | apply IH].
  - unfold Match4. destruct (negb _); [discriminate|].
    generalize 32%nat. generalize 0.
    intros i n. revert i. induction n as [|n IH]; intros i; cbn [Match4_loop];
      [discriminate|].
    destruct (index (Bytes ip) i) eqn:E1; cbn [bind]; try discriminate.
    2:{ exfalso. eapply I, E1. }
    destruct (index (IP4 (Pat4_IP p)) i) eqn:E2; cbn [bind]; try discriminate.
    2:{ exfalso. eapply I, E2. }
    destruct (index (Mask p) i) eqn:E3; cbn [bind]; try discriminate.
    2:{ exfalso. eapply I, E3. }
    destruct (negb _); [discriminate | apply IH].
Qed.

Lemma matchAll_nil_pattern (patterns : list Pattern) (ip : IPAddress)
      (line : gostring) (out : list gostring) :
  In PatNil patterns -> matchAll patterns ip line out = Panic.
Proof.
  revert out; induction patterns as [|p rest IH]; intros out Hin;
    [destruct Hin|].
  cbn [matchAll]. destruct Hin as [-> | Hin]; [reflexivity|].
  destruct (Match p ip) as [m|e|] eqn:E; cbn [bind].
  - apply IH, Hin.
  - exfalso. eapply Match_no_error, E.
  - reflexivity.
Qed.

Lemma scanLines_nil_pattern (patterns : list Pattern) (lines : list gostring)
      (out : list gostring) :
  In PatNil patterns ->
  (exists line, In line lines /\ unparsable line = false) ->
  scanLines patterns lines out = Panic.
Proof.
  intros Hp. revert out; induction lines as [|line rest IH];
    intros out (l & Hin & Hl); [destruct Hin|].
  cbn [scanLines]. destruct (ParseIp line) as [ip|e|] eqn:E.
  - rewrite matchAll_nil_pattern by exact Hp. reflexivity.
  - apply IH. destruct Hin as [<- | Hin].
    + unfold unparsable in Hl. rewrite E in Hl. discriminate.
    + exists l. auto.
  - reflexivity.
Qed.

Lemma loadPatterns_In (ps : list gostring) (patterns : list Pattern)
      (p : gostring) (pat : Pattern) :
  loadPatterns ps = Val patterns -> In p ps -> ParsePattern p = Val pat ->
  In pat patterns.
Proof.
  revert patterns; induction ps as [|q ps IH]; intros patterns H Hin Hp;
    [destruct Hin|].
  cbn [loadPatterns] in H.
  destruct (ParsePattern q) as [pq| |] eqn:Eq; cbn [bind] in H;
    try discriminate.
  destruct (loadPatterns ps) as [pats| |]; cbn [bind] in H; try discriminate.
  injection H as <-. destruct Hin as [-> | Hin].
  - left. congruence.
  - right. eapply IH; [reflexivity | exact Hin | exact Hp].
Qed.

(** X17.  With the stub parseIPv4Pattern a dotted pattern compiles to a nil
    Pattern, and calling Match on it panics: when all patterns compile, one
    of them has '.' for first separator and the input holds a line that is
    not skipped, the run ends in a panic. *)
Theorem Run_panics_with_dotted_pattern
        (lines ps : list gostring) (patterns : list Pattern)
        (p line : gostring) :
  loadPatterns ps = Val patterns ->
  In p ps -> firstSep p = Some "."%char ->
  In line lines -> unparsable line = false ->
  Run lines ps = Panic.
Proof.
  intros L Hp Hs Hl Hu. unfold Run. rewrite L. cbn [bind].
  apply scanLines_nil_pattern; [|exists line; auto].
  eapply loadPatterns_In; [exact L | exact Hp |].
  unfold ParsePattern. rewrite ParsePattern_loop_firstSep, Hs. reflexivity.
Qed.

Lemma Run_panics_with_dotted_pattern_witness :
  Run [str "192.168.176.105"; str "fe80::5474:3fa5:9fca:99f3"]
      [str "192.168.57.0/24"; str "10.222.0.0/16"; str "fe80::5400:0:0:0/72"] =
  Panic.
Proof.
  apply (Run_panics_with_dotted_pattern
           [str "192.168.176.105"; str "fe80::5474:3fa5:9fca:99f3"]
           [str "192.168.57.0/24"; str "10.222.0.0/16"; str "fe80::5400:0:0:0/72"]
           [PatNil; PatNil;
            PatV6 (mkIPv6Pattern
                     (mkIPv6Address
                        [254; 128; 0; 0; 0; 0; 0; 0; 84; 0; 0; 0; 0; 0; 0; 0])
                     72 0)]
           (str "192.168.57.0/24") (str "192.168.176.105"));
    [reflexivity | left; reflexivity | reflexivity | left; reflexivity
    | reflexivity].
Defined.

(** ** Text made of cells and separators *)

Ltac absurd_nil :=
  exfalso; match goal with H : [] <> [] |- _ => apply H; reflexivity end.

Section Cells.

Variable x : ascii.

Lemma HasPrefix_pair_other (c : ascii) (s : gostring) :
  c <> x -> strings.HasPrefix (c :: s) [x; x] = false.
Proof.
  intros H. cbn [strings.HasPrefix].
  apply Ascii.eqb_neq in H. rewrite H. reflexivity.
Qed.

Lemma HasPrefix_pair_single (s : gostring) :
  headFree x s -> strings.HasPrefix (x :: s) [x; x] = false.
Proof.
  intros H. cbn [strings.HasPrefix]. rewrite Ascii.eqb_refl.
  destruct s as [|c s]; [reflexivity|].
  cbn [headFree] in H. apply Ascii.eqb_neq in H. rewrite H. reflexivity.
Qed.

Lemma HasPrefix_pair_pair (s : gostring) :
  strings.HasPrefix (x :: x :: s) [x; x] = true.
Proof. cbn [strings.HasPrefix]. rewrite Ascii.eqb_refl. reflexivity. Qed.

(** *** Count of the pair *)

Lemma countPair_free (a s : gostring) :
  ~ In x a ->
  strings.countFrom [x; x] 0 (a ++ s) = strings.countFrom [x; x] 0 s.
Proof.
  induction a as [|c a IH]; intros H; [reflexivity|].
  cbn [app strings.countFrom].
  rewrite HasPrefix_pair_other by (intros ->; apply H; left; reflexivity).
  apply IH. intros Hin. apply H. right. exact Hin.
Qed.

Lemma countPair_single (s : gostring) :
  headFree x s ->
  strings.countFrom [x; x] 0 (x :: s) = strings.countFrom [x; x] 0 s.
Proof.
  intros H. cbn [strings.countFrom].
  rewrite HasPrefix_pair_single by exact H. reflexivity.
Qed.

Lemma countPair_pair (s : gostring) :
  strings.countFrom [x; x] 0 (x :: x :: s) =
  1 + strings.countFrom [x; x] 0 s.
Proof.
  cbn [strings.countFrom]. rewrite HasPrefix_pair_pair. reflexivity.
Qed.

(** *** Index of the pair *)

Lemma shift_shift (i a b : Z) : 0 <= a -> shift (shift i a) b = shift i (a + b).
Proof.
  intros H. unfold shift. destruct (Z.ltb_spec i 0) as [L|L].
  - reflexivity.
  - destruct (Z.ltb_spec (a + i) 0); lia.
Qed.

Lemma shift_0 (i : Z) : -1 <= i -> shift i 0 = i.
Proof. intros H. unfold shift. destruct (Z.ltb_spec i 0); lia. Qed.

Lemma Index_lower (s sub : gostring) : -1 <= strings.Index s sub.
Proof.
  induction s as [|c s IH]; cbn [strings.Index].
  - destruct (strings.HasPrefix [] sub); lia.
  - destruct (strings.HasPrefix (c :: s) sub); [lia|].
    destruct (Z.ltb_spec (strings.Index s sub) 0); lia.
Qed.

Lemma IndexPair_other (c : ascii) (s : gostring) :
  c <> x ->
  strings.Index (c :: s) [x; x] = shift (strings.Index s [x; x]) 1.
Proof.
  intros H. cbn [strings.Index]. rewrite HasPrefix_pair_other by exact H.
  unfold shift. destruct (_ <? 0); [reflexivity | lia].
Qed.

Lemma IndexPair_free (a s : gostring) :
  ~ In x a ->
  strings.Index (a ++ s) [x; x] = shift (strings.Index s [x; x]) (len a).
Proof.
  induction a as [|c a IH]; intros H.
  - cbn [app]. symmetry. apply shift_0, Index_lower.
  - cbn [app]. rewrite IndexPair_other by (intros ->; apply H; left; reflexivity).
    rewrite IH by (intros Hin; apply H; right; exact Hin).
    rewrite shift_shift by apply len_nonneg. rewrite len_cons. reflexivity.
Qed.

Lemma IndexPair_single (s : gostring) :
  headFree x s ->
  strings.Index (x :: s) [x; x] = shift (strings.Index s [x; x]) 1.
Proof.
  intros H. cbn [strings.Index]. rewrite HasPrefix_pair_single by exact H.
  unfold shift. destruct (_ <? 0); [reflexivity | lia].
Qed.

Lemma IndexPair_pair (s : gostring) : strings.Index (x :: x :: s) [x; x] = 0.
Proof. cbn [strings.Index]. rewrite HasPrefix_pair_pair. reflexivity. Qed.

(** *** Count of the single separator *)

Lemma countSingle_cons (c : ascii) (s : gostring) :
  strings.Count (c :: s) [x] =
  (if Ascii.eqb c x then 1 else 0) + strings.Count s [x].
Proof.
  unfold strings.Count. cbn [strings.countFrom].
  rewrite HasPrefix_single. destruct (Ascii.eqb c x); reflexivity.
Qed.

Lemma countSingle_app (a b : gostring) :
  strings.Count (a ++ b) [x] = strings.Count a [x] + strings.Count b [x].
Proof.
  induction a as [|c a IH]; [reflexivity|].
  cbn [app]. rewrite !countSingle_cons, IH. lia.
Qed.

Lemma countSingle_free (a : gostring) : ~ In x a -> strings.Count a [x] = 0.
Proof.
  induction a as [|c a IH]; intros H; [reflexivity|].
  rewrite countSingle_cons.
  destruct (Ascii.eqb_spec c x) as [-> | N];
    [exfalso; apply H; left; reflexivity|].
  rewrite IH; [reflexivity|]. intros Hin. apply H. right. exact Hin.
Qed.

(** *** Join *)

Lemma Join_cons (g h : gostring) (gs : list gostring) :
  strings.Join (g :: h :: gs) [x] = g ++ x :: strings.Join (h :: gs) [x].
Proof. reflexivity. Qed.

Lemma Join_headFree (g : gostring) (gs : list gostring) (t : gostring) :
  cell x g -> headFree x (strings.Join (g :: gs) [x] ++ t).
Proof.
  intros [Hne Hfree]. destruct g as [|c g]; [absurd_nil|].
  assert (c <> x) by (intros ->; apply Hfree; left; reflexivity).
  destruct gs; cbn; assumption.
Qed.

Lemma Join_app (a b : list gostring) :
  a <> [] -> b <> [] ->
  strings.Join (a ++ b) [x] = strings.Join a [x] ++ x :: strings.Join b [x].
Proof.
  intros Ha Hb. induction a as [|g a IH]; [absurd_nil|].
  destruct a as [|h a].
  - destruct b as [|k b]; [absurd_nil|]. reflexivity.
  - change ((g :: h :: a) ++ b) with (g :: h :: (a ++ b)).
    rewrite !Join_cons.
    change (h :: a ++ b) with ((h :: a) ++ b).
    rewrite IH by discriminate. rewrite <- app_assoc. reflexivity.
Qed.

Lemma Join_repeat_behind (a : list gostring) (z : gostring) (n : nat) :
  a <> [] ->
  strings.Join (a ++ repeat z n) [x] =
  strings.Join a [x] ++ List.concat (repeat (x :: z) n).
Proof.
  intros Ha. revert a Ha. induction n as [|n IH]; intros a Ha.
  - cbn [repeat List.concat]. rewrite !app_nil_r. reflexivity.
  - cbn [repeat List.concat].
    change (a ++ z :: repeat z n) with (a ++ [z] ++ repeat z n).
    rewrite app_assoc, IH by (destruct a; discriminate).
    rewrite Join_app by (assumption || discriminate).
    cbn [strings.Join]. rewrite <- app_assoc. reflexivity.
Qed.

Lemma Join_repeat_front (b : list gostring) (z : gostring) (n : nat) :
  b <> [] ->
  strings.Join (repeat z n ++ b) [x] =
  List.concat (repeat (z ++ [x]) n) ++ strings.Join b [x].
Proof.
  intros Hb. induction n as [|n IH]; [reflexivity|].
  cbn [repeat List.concat app].
  destruct (repeat z n ++ b) as [|k r] eqn:E.
  - destruct n; [cbn in E; congruence | discriminate E].
  - rewrite Join_cons, IH, <- !app_assoc. reflexivity.
Qed.

Lemma Split_Join (gs : list gostring) :
  gs <> [] -> Forall (sepFree x) gs ->
  strings.Split (strings.Join gs [x]) [x] = gs.
Proof.
  intros Hne H. induction H as [|g gs Hg Hgs IH]; [absurd_nil|].
  destruct gs as [|h gs].
  - cbn [strings.Join]. apply Split_absent, Hg.
  - rewrite Join_cons, Split_first by exact Hg.
    rewrite IH by discriminate. reflexivity.
Qed.

Lemma countSingle_Join (gs : list gostring) :
  gs <> [] -> Forall (sepFree x) gs ->
  strings.Count (strings.Join gs [x]) [x] = len gs - 1.
Proof.
  intros Hne H. induction H as [|g gs Hg Hgs IH]; [absurd_nil|].
  destruct gs as [|h gs].
  - cbn [strings.Join]. rewrite countSingle_free by exact Hg. reflexivity.
  - rewrite Join_cons, countSingle_app, countSingle_free by exact Hg.
    rewrite countSingle_cons, Ascii.eqb_refl, IH by discriminate.
    rewrite !len_cons. lia.
Qed.

(** A text of cells holds no pair of separators, whatever follows it. *)
Lemma countPair_Join (gs : list gostring) (t : gostring) :
  gs <> [] -> Forall (cell x) gs ->
  strings.countFrom [x; x] 0 (strings.Join gs [x] ++ t) =
  strings.countFrom [x; x] 0 t.
Proof.
  intros Hne H. induction H as [|g gs Hg Hgs IH]; [absurd_nil|].
  destruct gs as [|h gs].
  - cbn [strings.Join]. apply countPair_free, Hg.
  - rewrite Join_cons, <- app_assoc. cbn [app].
    rewrite countPair_free by apply Hg.
    rewrite countPair_single
      by (inversion Hgs; subst; apply Join_headFree; assumption).
    apply IH. discriminate.
Qed.

Lemma IndexPair_Join (gs : list gostring) (t : gostring) :
  gs <> [] -> Forall (cell x) gs ->
  strings.Index (strings.Join gs [x] ++ t) [x; x] =
  shift (strings.Index t [x; x]) (len (strings.Join gs [x])).
Proof.
  intros Hne H. induction H as [|g gs Hg Hgs IH]; [absurd_nil|].
  destruct gs as [|h gs].
  - cbn [strings.Join]. apply IndexPair_free, Hg.
  - rewrite Join_cons, <- app_assoc. cbn [app].
    rewrite IndexPair_free by apply Hg.
    rewrite IndexPair_single
      by (inversion Hgs; subst; apply Join_headFree; assumption).
    rewrite IH by discriminate.
    rewrite !shift_shift by (try apply len_nonneg; lia).
    f_equal. rewrite len_app, len_cons. lia.
Qed.

(** *** The end of a text *)

Lemma HasSuffix_app (u p : gostring) : strings.HasSuffix (u ++ p) p = true.
Proof.
  unfold strings.HasSuffix. rewrite len_app.
  replace (len u + len p - len p) with (len u) by lia.
  rewrite sliceFrom_app.
  apply andb_true_iff. split.
  - apply Z.leb_le. pose proof (len_nonneg u). lia.
  - apply streq_true_iff. reflexivity.
Qed.

Lemma HasSuffix_inv (s p : gostring) :
  strings.HasSuffix s p = true ->
  s = sliceTo s (len s - len p) ++ p.
Proof.
  unfold strings.HasSuffix. intros H. apply andb_true_iff in H as [_ H].
  apply streq_true_iff in H. unfold sliceTo, sliceFrom in *.
  rewrite <- (firstn_skipn (Z.to_nat (len s - len p)) s) at 1.
  f_equal. exact H.
Qed.

Lemma HasSuffix_pair_other (t : gostring) (c : ascii) :
  c <> x -> strings.HasSuffix (t ++ [c]) [x; x] = false.
Proof.
  intros H. destruct (strings.HasSuffix (t ++ [c]) [x; x]) eqn:E;
    [|reflexivity].
  apply HasSuffix_inv in E. exfalso.
  set (u := sliceTo _ _) in E.
  change (u ++ [x; x]) with (u ++ [x] ++ [x]) in E.
  rewrite app_assoc in E. apply app_inj_tail in E as [_ E]. congruence.
Qed.

Lemma Join_last (gs : list gostring) :
  gs <> [] -> Forall (cell x) gs ->
  exists t c, strings.Join gs [x] = t ++ [c] /\ c <> x.
Proof.
  intros Hne H. induction H as [|g gs Hg Hgs IH]; [absurd_nil|].
  destruct gs as [|h gs].
  - cbn [strings.Join]. destruct Hg as [Hn Hf].
    destruct (exists_last Hn) as (t & c & ->). exists t, c.
    split; [reflexivity|]. intros ->. apply Hf, in_or_app. right. left.
    reflexivity.
  - destruct (IH ltac:(discriminate)) as (t & c & E & Hc).
    exists (g ++ x :: t), c. split; [|exact Hc].
    rewrite Join_cons, E, <- app_assoc. reflexivity.
Qed.

Lemma sliceFrom_behind (a r : gostring) (c : ascii) :
  sliceFrom (a ++ c :: r) (len a + 1) = r.
Proof.
  change (a ++ c :: r) with (a ++ [c] ++ r). rewrite app_assoc.
  replace (len a + 1) with (len (a ++ [c])) by (rewrite len_app; reflexivity).
  apply sliceFrom_app.
Qed.

End Cells.

(** ** Groups *)

Lemma validGroup_inv (g : gostring) :
  validGroup g = true -> 1 <= len g <= 4 /\ forallb isHex g = true.
Proof.
  unfold validGroup. intros H.
  apply andb_true_iff in H as [H X]. apply andb_true_iff in H as [L1 L4].
  split; [lia | exact X].
Qed.

Lemma isHex_not_separator (c : ascii) :
  isHex c = true -> c <> "."%char /\ c <> ":"%char.
Proof. intros H. split; intros ->; vm_compute in H; discriminate. Qed.

Lemma validGroup_cell (g : gostring) : validGroup g = true -> cell ":" g.
Proof.
  intros H. apply validGroup_inv in H as [L X]. split.
  - intros ->. unfold len in L. cbn in L. lia.
  - intros Hin. rewrite forallb_forall in X. apply X in Hin.
    vm_compute in Hin. discriminate.
Qed.

Lemma validGroups_cells (G : list gostring) :
  forallb validGroup G = true -> Forall (cell ":") G.
Proof.
  intros H. apply Forall_forall. intros g Hg.
  rewrite forallb_forall in H. apply validGroup_cell, H, Hg.
Qed.

Lemma cells_sepFree (x : ascii) (G : list gostring) :
  Forall (cell x) G -> Forall (sepFree x) G.
Proof. apply Forall_impl. intros g [_ H]. exact H. Qed.

Lemma firstSep_hex (g r : gostring) :
  forallb isHex g = true -> firstSep (g ++ r) = firstSep r.
Proof.
  induction g as [|c g IH]; [reflexivity|].
  cbn [forallb app firstSep]. intros H. apply andb_true_iff in H as [Hc Hg].
  destruct (isHex_not_separator c Hc) as [N1 N2].
  apply Ascii.eqb_neq in N1, N2. rewrite N1, N2. apply IH, Hg.
Qed.

Lemma groupValue_padded (g : gostring) (k : nat) :
  groupValue (repeat "0"%char k ++ g) = groupValue g.
Proof.
  unfold groupValue. rewrite fold_left_app.
  assert (Z0 : fold_left (fun n c => n * 16 + hexVal c) (repeat "0"%char k) 0 = 0).
  { induction k as [|k IH]; [reflexivity|]. cbn [repeat fold_left].
    change (0 * 16 + hexVal "0") with 0. exact IH. }
  rewrite Z0. reflexivity.
Qed.

Lemma padGroup_zeros (g : gostring) :
  padGroup g = repeat "0"%char (Z.to_nat (4 - len g)) ++ g.
Proof.
  unfold padGroup. f_equal. change (str "0") with ["0"%char].
  induction (Z.to_nat (4 - len g)) as [|k IH]; [reflexivity|].
  cbn [repeat List.concat app]. f_equal. exact IH.
Qed.

Lemma padGroup_valid (g : gostring) :
  validGroup g = true ->
  len (padGroup g) = 4 /\ forallb isHex (padGroup g) = true /\
  groupBytes (padGroup g) = groupBytes g.
Proof.
  intros H. apply validGroup_inv in H as [L X]. rewrite padGroup_zeros.
  split; [|split].
  - rewrite len_app. unfold len at 1. rewrite repeat_length. lia.
  - rewrite forallb_app, X, andb_true_r.
    apply forallb_forall. intros c Hc. apply repeat_spec in Hc. subst c.
    reflexivity.
  - unfold groupBytes. rewrite groupValue_padded. reflexivity.
Qed.

Lemma padGroup_validGroup (g : gostring) :
  validGroup g = true -> validGroup (padGroup g) = true.
Proof.
  intros H. destruct (padGroup_valid g H) as (L & X & _).
  unfold validGroup. rewrite L, X. reflexivity.
Qed.

Lemma padBlocks_groups (G : list gostring) :
  forallb validGroup G = true -> padBlocks G = Val (map padGroup G).
Proof.
  induction G as [|g G IH]; [reflexivity|].
  cbn [forallb padBlocks map]. intros H. apply andb_true_iff in H as [Hg HG].
  destruct (validGroup_inv g Hg) as [L _].
  replace (4 <? len g) with false by lia.
  rewrite (IH HG). reflexivity.
Qed.

Lemma parseIPv6_loop_group (g : gostring) (rest : list gostring) (i : nat)
      (ipBytes : list Z) :
  validGroup g = true ->
  parseIPv6_loop (padGroup g :: rest) i ipBytes =
  parseIPv6_loop rest (S i) (copyAt ipBytes (i * 2) (groupBytes g)).
Proof.
  intros H. destruct (padGroup_valid g H) as (L & X & B).
  cbn [parseIPv6_loop].
  destruct (streq (padGroup g) []) eqn:E.
  { apply streq_nil in E. rewrite E in L. discriminate L. }
  replace (4 <? len (padGroup g)) with false by lia.
  rewrite hexToBytes_cases, L, X, B. reflexivity.
Qed.

Lemma forallb_map_padGroup (G : list gostring) :
  forallb validGroup G = true -> forallb validGroup (map padGroup G) = true.
Proof.
  induction G as [|g G IH]; [reflexivity|].
  cbn [forallb map]. intros H. apply andb_true_iff in H as [Hg HG].
  rewrite (padGroup_validGroup g Hg), (IH HG). reflexivity.
Qed.

(** The second half of parseIPv6, once extendIPv6 has produced padded
    groups. *)
Lemma parseIPv6_groups (s : gostring) (G : list gostring) :
  forallb validGroup G = true -> G <> [] ->
  extendIPv6 s = Val (strings.Join (map padGroup G) colon) ->
  parseIPv6 s =
  if (len G =? 8) then Val (V6 (mkIPv6Address (flat_map groupBytes G)))
  else Fail ErrInvalidIP.
Proof.
  intros HG Hne He. unfold parseIPv6. rewrite He. cbn [bind].
  unfold colon. change (str ":") with [":"%char].
  rewrite Split_Join.
  2:{ destruct G; [absurd_nil | discriminate]. }
  2:{ apply cells_sepFree, validGroups_cells, forallb_map_padGroup, HG. }
  assert (Lm : len (map padGroup G) = len G)
    by (unfold len; rewrite length_map; reflexivity).
  rewrite Lm. destruct (len G =? 8) eqn:E8; [|reflexivity].
  cbn [negb]. apply Z.eqb_eq in E8.
  destruct G as [|g0 [|g1 [|g2 [|g3 [|g4 [|g5 [|g6 [|g7 [|g8 G]]]]]]]]];
    try discriminate E8.
  2:{ rewrite !len_cons in E8. pose proof (len_nonneg G). lia. }
  cbn [forallb] in HG.
  repeat match type of HG with
         | _ && _ = true => apply andb_true_iff in HG as [? HG]
         end.
  cbn [map].
  rewrite !parseIPv6_loop_group by assumption.
  unfold groupBytes. cbn [parseIPv6_loop bind copyAt repeat Nat.mul Nat.add
                           flat_map app].
  reflexivity.
Qed.

(** A text of valid groups goes through the last steps of extendIPv6
    unchanged but for the padding. *)
Lemma expanded_steps (G : list gostring) :
  forallb validGroup G = true -> G <> [] ->
  extendPrefix (strings.Join G colon) = Val (strings.Join G colon) /\
  extendSuffix (strings.Join G colon) = Val (strings.Join G colon) /\
  padAndJoin (strings.Join G colon) = Val (strings.Join (map padGroup G) colon).
Proof.
  intros HG Hne. pose proof (validGroups_cells G HG) as C.
  unfold colon. change (str ":") with [":"%char].
  split; [|split].
  - unfold extendPrefix, dcolon. change (str "::") with [":"%char; ":"%char].
    destruct G as [|g G]; [absurd_nil|].
    inversion C as [|? ? Cg CG]; subst.
    pose proof (Join_headFree ":" g G [] Cg) as Hf. rewrite app_nil_r in Hf.
    destruct (strings.Join (g :: G) [":"%char]) as [|c r] eqn:E;
      [reflexivity|].
    rewrite HasPrefix_pair_other by exact Hf. reflexivity.
  - unfold extendSuffix, dcolon. change (str "::") with [":"%char; ":"%char].
    destruct (Join_last ":" G Hne C) as (t & c & -> & Hc).
    rewrite HasSuffix_pair_other by exact Hc. reflexivity.
  - unfold padAndJoin, colon. change (str ":") with [":"%char].
    rewrite Split_Join by (try assumption; apply cells_sepFree, C).
    rewrite padBlocks_groups by exact HG. reflexivity.
Qed.

Lemma countPair_cells (G : list gostring) :
  Forall (cell ":") G ->
  strings.countFrom [":"%char; ":"%char] 0 (strings.Join G [":"%char]) = 0.
Proof.
  intros C. destruct G as [|g G]; [reflexivity|].
  rewrite <- (app_nil_r (strings.Join (g :: G) [":"%char])).
  rewrite countPair_Join by (try assumption; discriminate). reflexivity.
Qed.

Lemma IndexPair_cells (G : list gostring) :
  Forall (cell ":") G ->
  strings.Index (strings.Join G [":"%char]) [":"%char; ":"%char] = -1.
Proof.
  intros C. destruct G as [|g G]; [reflexivity|].
  rewrite <- (app_nil_r (strings.Join (g :: G) [":"%char])).
  rewrite IndexPair_Join by (try assumption; discriminate). reflexivity.
Qed.

Lemma extendIPv6_full (G : list gostring) :
  forallb validGroup G = true -> G <> [] ->
  extendIPv6 (strings.Join G colon) =
  Val (strings.Join (map padGroup G) colon).
Proof.
  intros HG Hne. pose proof (validGroups_cells G HG) as C.
  destruct (expanded_steps G HG Hne) as (_ & _ & P).
  unfold extendIPv6, strings.Count, strings.Contains.
  unfold colon, dcolon in *.
  change (str "::") with [":"%char; ":"%char].
  change (str ":") with [":"%char] in *.
  rewrite countPair_cells, IndexPair_cells by exact C.
  exact P.
Qed.

Lemma firstSep_Join (g : gostring) (G : list gostring) (t : gostring) :
  validGroup g = true ->
  firstSep (strings.Join (g :: G) [":"%char] ++ ":"%char :: t) =
  Some ":"%char.
Proof.
  intros H. apply validGroup_inv in H as [_ X].
  destruct G as [|h G].
  - cbn [strings.Join]. rewrite firstSep_hex by exact X. reflexivity.
  - rewrite Join_cons, <- app_assoc, firstSep_hex by exact X. reflexivity.
Qed.

(** X18.  A text of hexadecimal groups (one to four digits each, either
    case) joined by single colons is an address exactly when there are
    eight groups: then ParseIp returns the sixteen bytes of the eight
    values, high byte first; with any other number of groups it returns
    ErrInvalidIP. *)
Theorem ParseIp_full_form (G : list gostring) :
  forallb validGroup G = true ->
  ParseIp (strings.Join G colon) =
  if len G =? 8 then Val (V6 (mkIPv6Address (flat_map groupBytes G)))
  else Fail ErrInvalidIP.
Proof.
  intros HG. unfold ParseIp. rewrite ParseIp_loop_firstSep.
  destruct G as [|g [|h G]].
  - reflexivity.
  - cbn [strings.Join forallb] in *. apply andb_true_iff in HG as [Hg _].
    apply validGroup_inv in Hg as [_ X].
    rewrite <- (app_nil_r g), firstSep_hex by exact X. reflexivity.
  - assert (F : firstSep (strings.Join (g :: h :: G) colon) = Some ":"%char).
    { unfold colon. change (str ":") with [":"%char]. rewrite Join_cons.
      cbn [forallb] in HG. apply andb_true_iff in HG as [Hg _].
      apply validGroup_inv in Hg as [_ X].
      rewrite firstSep_hex by exact X. reflexivity. }
    rewrite F. change (Ascii.eqb ":" ".") with false. cbv iota.
    apply parseIPv6_groups; [exact HG | discriminate|].
    apply extendIPv6_full; [exact HG | discriminate].
Qed.

Lemma ParseIp_full_form_witness :
  ParseIp (str "2001:0db8:85A3:0:0:8a2e:370:7334") =
  Val (V6 (mkIPv6Address
             [32; 1; 13; 184; 133; 163; 0; 0; 0; 0; 138; 46; 3; 112; 115; 52])).
Proof.
  exact (ParseIp_full_form
           [str "2001"; str "0db8"; str "85A3"; str "0"; str "0"; str "8a2e";
            str "370"; str "7334"] eq_refl).
Defined.

(** ** The compression "::" *)

Lemma Repeat_nonneg (s : gostring) (n : Z) :
  0 <= n -> strings.Repeat s n = Val (List.concat (repeat s (Z.to_nat n))).
Proof.
  intros H. unfold strings.Repeat.
  replace (n <? 0) with false by lia. reflexivity.
Qed.

Lemma Repeat_negative (s : gostring) (n : Z) :
  n < 0 -> strings.Repeat s n = Panic.
Proof.
  intros H. unfold strings.Repeat.
  replace (n <? 0) with true by lia. reflexivity.
Qed.

Lemma forallb_zero_groups (gs hs : list gostring) (n : nat) :
  forallb validGroup gs = true -> forallb validGroup hs = true ->
  forallb validGroup (gs ++ repeat (str "0000") n ++ hs) = true.
Proof.
  intros Hg Hh. rewrite !forallb_app, Hg, Hh, andb_true_r. cbn [andb].
  apply forallb_forall. intros g Hin. apply repeat_spec in Hin. subst g.
  reflexivity.
Qed.

Lemma flat_map_zero_groups (gs hs : list gostring) (n : nat) :
  flat_map groupBytes (gs ++ repeat (str "0000") n ++ hs) =
  flat_map groupBytes (gs ++ repeat (str "0") n ++ hs).
Proof.
  rewrite !flat_map_app. f_equal. f_equal.
  induction n as [|n IH]; [reflexivity|].
  cbn [repeat flat_map]. rewrite IH. reflexivity.
Qed.

Lemma streq_headFree (s : gostring) :
  headFree ":" s -> streq s [":"%char; ":"%char] = false.
Proof.
  destruct s as [|c s]; [reflexivity|]. cbn [headFree streq]. intros H.
  apply Ascii.eqb_neq in H. rewrite H. reflexivity.
Qed.

(** "::" followed by groups. *)
Lemma extendIPv6_leading (h : gostring) (H : list gostring) :
  forallb validGroup (h :: H) = true ->
  extendIPv6 (dcolon ++ strings.Join (h :: H) colon) =
  if len (h :: H) <=? 8
  then Val (strings.Join
              (map padGroup
                   (repeat (str "0000") (Z.to_nat (8 - len (h :: H)))
                    ++ h :: H)) colon)
  else Panic.
Proof.
  intros HV. pose proof (validGroups_cells _ HV) as C.
  set (hs := h :: H) in *.
  assert (Hne : hs <> []) by discriminate.
  unfold colon, dcolon.
  change (str "::") with [":"%char; ":"%char].
  change (str ":") with [":"%char]. cbn [app].
  set (J := strings.Join hs [":"%char]).
  destruct (Join_last ":" hs Hne C) as (t & c & EJ & Hc). fold J in EJ.
  unfold extendIPv6, strings.Count, strings.Contains.
  unfold dcolon. change (str "::") with [":"%char; ":"%char].
  rewrite countPair_pair. unfold J at 1. rewrite countPair_cells by exact C.
  rewrite IndexPair_pair.
  change (1 <? 1 + 0) with false. change (0 <=? 0) with true. cbv iota.
  assert (S0 : streq (":"%char :: ":"%char :: J) [":"%char; ":"%char] = false).
  { rewrite EJ. destruct t; reflexivity. }
  rewrite S0.
  unfold extendMiddle, dcolon. change (str "::") with [":"%char; ":"%char].
  rewrite HasPrefix_pair_pair. cbn [negb andb bind].
  unfold extendPrefix, dcolon. change (str "::") with [":"%char; ":"%char].
  rewrite HasPrefix_pair_pair.
  change (sliceFrom (":"%char :: ":"%char :: J) 2) with J.
  unfold colon. change (str ":") with [":"%char].
  unfold J at 1. rewrite countSingle_Join by (try assumption; apply cells_sepFree, C).
  replace (8 - (len hs - 1 + 1)) with (8 - len hs) by lia.
  destruct (Z.leb_spec (len hs) 8) as [Le | Gt].
  - rewrite Repeat_nonneg by lia. cbn [bind].
    set (n := Z.to_nat (8 - len hs)).
    change (str "0000:") with (str "0000" ++ [":"%char]).
    unfold J. rewrite <- Join_repeat_front by exact Hne.
    assert (V : forallb validGroup (repeat (str "0000") n ++ hs) = true)
      by (apply (forallb_zero_groups [] hs n); [reflexivity | exact HV]).
    assert (N : repeat (str "0000") n ++ hs <> [])
      by (destruct (repeat (str "0000") n); discriminate).
    destruct (expanded_steps _ V N) as (_ & S & P).
    unfold colon in S, P. change (str ":") with [":"%char] in S, P.
    rewrite S. cbn [bind]. exact P.
  - rewrite Repeat_negative by lia. reflexivity.
Qed.

(** Groups followed by "::". *)
Lemma extendIPv6_trailing (g : gostring) (G : list gostring) :
  forallb validGroup (g :: G) = true ->
  extendIPv6 (strings.Join (g :: G) colon ++ dcolon) =
  if len (g :: G) <=? 8
  then Val (strings.Join
              (map padGroup
                   (g :: G ++ repeat (str "0000") (Z.to_nat (8 - len (g :: G)))))
              colon)
  else Panic.
Proof.
  intros HV. pose proof (validGroups_cells _ HV) as C.
  change (g :: G ++ repeat (str "0000") (Z.to_nat (8 - len (g :: G))))
    with ((g :: G) ++ repeat (str "0000") (Z.to_nat (8 - len (g :: G)))).
  set (gs := g :: G) in *.
  assert (Hne : gs <> []) by discriminate.
  unfold colon, dcolon.
  change (str "::") with [":"%char; ":"%char].
  change (str ":") with [":"%char].
  set (J := strings.Join gs [":"%char]).
  assert (Hf : headFree ":" (J ++ [":"%char; ":"%char])).
  { inversion C as [|? ? Cg CG]; subst. apply Join_headFree, Cg. }
  unfold extendIPv6, strings.Count, strings.Contains.
  unfold dcolon. change (str "::") with [":"%char; ":"%char].
  unfold J at 1 2. rewrite countPair_Join, IndexPair_Join by assumption.
  fold J.
  change (strings.countFrom [":"%char; ":"%char] 0 [":"%char; ":"%char])
    with 1.
  change (strings.Index [":"%char; ":"%char] [":"%char; ":"%char]) with 0.
  change (1 <? 1) with false. cbv iota.
  unfold shift. change (0 <? 0) with false. cbv iota.
  replace (0 <=? len J + 0) with true by (pose proof (len_nonneg J); lia).
  rewrite streq_headFree by exact Hf.
  unfold extendMiddle, dcolon. change (str "::") with [":"%char; ":"%char].
  rewrite HasSuffix_app. rewrite andb_false_r. cbn [bind].
  unfold extendPrefix, dcolon. change (str "::") with [":"%char; ":"%char].
  assert (P0 : strings.HasPrefix (J ++ [":"%char; ":"%char])
                                 [":"%char; ":"%char] = false).
  { destruct (J ++ [":"%char; ":"%char]) as [|c r]; [reflexivity|].
    apply HasPrefix_pair_other, Hf. }
  rewrite P0. cbn [bind].
  unfold extendSuffix, dcolon. change (str "::") with [":"%char; ":"%char].
  rewrite HasSuffix_app.
  replace (len (J ++ [":"%char; ":"%char]) - 2) with (len J)
    by (rewrite len_app; change (len [":"%char; ":"%char]) with 2; lia).
  rewrite sliceTo_app.
  unfold colon. change (str ":") with [":"%char].
  unfold J at 1. rewrite countSingle_Join by (try assumption; apply cells_sepFree, C).
  replace (8 - (len gs - 1 + 1)) with (8 - len gs) by lia.
  destruct (Z.leb_spec (len gs) 8) as [Le | Gt].
  - rewrite Repeat_nonneg by lia. cbn [bind].
    set (n := Z.to_nat (8 - len gs)).
    change (str ":0000") with (":"%char :: str "0000").
    unfold J. rewrite <- Join_repeat_behind by exact Hne.
    assert (V : forallb validGroup (gs ++ repeat (str "0000") n) = true).
    { pose proof (forallb_zero_groups gs [] n HV eq_refl) as V.
      rewrite app_nil_r in V. exact V. }
    assert (N : gs ++ repeat (str "0000") n <> [])
      by (unfold gs; discriminate).
    destruct (expanded_steps _ V N) as (_ & _ & P).
    unfold colon in P. change (str ":") with [":"%char] in P. exact P.
  - rewrite Repeat_negative by lia. reflexivity.
Qed.

(** Groups on both sides of "::". *)
Lemma extendIPv6_inner (g h : gostring) (G H : list gostring) :
  forallb validGroup (g :: G) = true -> forallb validGroup (h :: H) = true ->
  extendIPv6 (strings.Join (g :: G) colon ++ dcolon
              ++ strings.Join (h :: H) colon) =
  if len (g :: G) + len (h :: H) <=? 8
  then Val (strings.Join
              (map padGroup
                   ((g :: G)
                    ++ repeat (str "0000")
                         (Z.to_nat (8 - len (g :: G) - len (h :: H)))
                    ++ h :: H)) colon)
  else Panic.
Proof.
  intros HVg HVh.
  pose proof (validGroups_cells _ HVg) as Cg.
  pose proof (validGroups_cells _ HVh) as Ch.
  set (gs := g :: G) in *. set (hs := h :: H) in *.
  assert (Hng : gs <> []) by discriminate.
  assert (Hnh : hs <> []) by discriminate.
  unfold colon, dcolon.
  change (str "::") with [":"%char; ":"%char].
  change (str ":") with [":"%char]. cbn [app].
  set (Jg := strings.Join gs [":"%char]).
  set (Jh := strings.Join hs [":"%char]).
  set (s := Jg ++ ":"%char :: ":"%char :: Jh).
  assert (Hf : headFree ":" s).
  { inversion Cg as [|? ? Cg0 CG]; subst. apply Join_headFree, Cg0. }
  assert (P0 : strings.HasPrefix s [":"%char; ":"%char] = false).
  { destruct s as [|c r]; [reflexivity|]. apply HasPrefix_pair_other, Hf. }
  assert (S0 : strings.HasSuffix s [":"%char; ":"%char] = false).
  { destruct (Join_last ":" hs Hnh Ch) as (t & c & EJ & Hc). fold Jh in EJ.
    unfold s. rewrite EJ.
    change (Jg ++ ":"%char :: ":"%char :: t ++ [c])
      with (Jg ++ [":"%char; ":"%char] ++ t ++ [c]).
    rewrite !app_assoc. apply HasSuffix_pair_other, Hc. }
  assert (CP : strings.countFrom [":"%char; ":"%char] 0 s = 1).
  { unfold s, Jg. rewrite countPair_Join by assumption.
    rewrite countPair_pair. fold Jh. unfold Jh.
    rewrite countPair_cells by exact Ch. reflexivity. }
  assert (IP : strings.Index s [":"%char; ":"%char] = len Jg).
  { unfold s, Jg. rewrite IndexPair_Join by assumption.
    rewrite IndexPair_pair. unfold shift. change (0 <? 0) with false.
    cbv iota. lia. }
  assert (CS : strings.Count s [":"%char] = len gs + len hs).
  { unfold s. rewrite countSingle_app, !countSingle_cons, Ascii.eqb_refl.
    unfold Jg, Jh.
    rewrite !countSingle_Join by (try assumption; apply cells_sepFree; assumption).
    lia. }
  unfold extendIPv6, strings.Count, strings.Contains.
  unfold dcolon. change (str "::") with [":"%char; ":"%char].
  rewrite CP, IP. change (1 <? 1) with false. cbv iota.
  replace (0 <=? len Jg) with true by (pose proof (len_nonneg Jg); lia).
  rewrite streq_headFree by exact Hf.
  unfold extendMiddle, dcolon. change (str "::") with [":"%char; ":"%char].
  rewrite P0, S0, IP. cbn [negb andb].
  unfold colon. change (str ":") with [":"%char]. rewrite CS.
  unfold s at 1 2. rewrite sliceTo_app, sliceFrom_behind.
  replace (8 - (len gs + len hs)) with (8 - len gs - len hs) by lia.
  destruct (Z.leb_spec (len gs + len hs) 8) as [Le | Gt].
  - rewrite Repeat_nonneg by lia. cbn [bind].
    set (n := Z.to_nat (8 - len gs - len hs)).
    change (str ":0000") with (":"%char :: str "0000").
    match goal with
    | |- context [extendPrefix ?u] =>
        assert (E : u = strings.Join (gs ++ repeat (str "0000") n ++ hs)
                          [":"%char])
    end.
    { rewrite app_assoc. unfold Jg. rewrite <- Join_repeat_behind by exact Hng.
      unfold Jh. rewrite <- Join_app.
      - rewrite <- app_assoc. reflexivity.
      - destruct gs; [absurd_nil | discriminate].
      - exact Hnh. }
    rewrite E.
    pose proof (forallb_zero_groups gs hs n HVg HVh) as V.
    assert (N : gs ++ repeat (str "0000") n ++ hs <> [])
      by (unfold gs; discriminate).
    destruct (expanded_steps _ V N) as (Pf & Sf & P).
    unfold colon in Pf, Sf, P. change (str ":") with [":"%char] in Pf, Sf, P.
    rewrite Pf. cbn [bind]. rewrite Sf. cbn [bind]. exact P.
  - rewrite Repeat_negative by lia. reflexivity.
Qed.

Lemma ParseIp_colon (s : gostring) :
  firstSep s = Some ":"%char -> ParseIp s = parseIPv6 s.
Proof.
  intros H. unfold ParseIp. rewrite ParseIp_loop_firstSep, H. reflexivity.
Qed.

Lemma parseIPv6_of_extend (s : gostring) (G : list gostring) (b : bool) :
  forallb validGroup G = true -> len G = 8 ->
  extendIPv6 s =
    (if b then Val (strings.Join (map padGroup G) colon) else Panic) ->
  parseIPv6 s =
  if b then Val (V6 (mkIPv6Address (flat_map groupBytes G))) else Panic.
Proof.
  intros V L E. destruct b.
  - rewrite (parseIPv6_groups s G V); [rewrite L; reflexivity | | exact E].
    intros ->. discriminate L.
  - unfold parseIPv6. rewrite E. reflexivity.
Qed.

Lemma len_zero_groups (gs hs : list gostring) :
  len gs + len hs <= 8 ->
  len (gs ++ repeat (str "0000") (Z.to_nat (8 - len gs - len hs)) ++ hs) = 8.
Proof.
  intros H. rewrite !len_app. unfold len at 2. rewrite repeat_length.
  pose proof (len_nonneg gs). pose proof (len_nonneg hs). lia.
Qed.

(** ParseIp on groups around one "::", by the number of groups. *)
Lemma ParseIp_compressed_cases (gs hs : list gostring) :
  forallb validGroup gs = true -> forallb validGroup hs = true ->
  ParseIp (strings.Join gs colon ++ dcolon ++ strings.Join hs colon) =
  if len gs + len hs <=? 8
  then Val (V6 (mkIPv6Address
                  (flat_map groupBytes
                     (gs ++ repeat (str "0000")
                                   (Z.to_nat (8 - len gs - len hs)) ++ hs))))
  else Panic.
Proof.
  intros Vg Vh.
  destruct gs as [|g G], hs as [|h H].
  - reflexivity.
  - change (strings.Join [] colon ++ dcolon ++ strings.Join (h :: H) colon)
      with (dcolon ++ strings.Join (h :: H) colon).
    rewrite ParseIp_colon by reflexivity.
    pose proof (extendIPv6_leading h H Vh) as E.
    change (len (@nil gostring)) with 0.
    replace (0 + len (h :: H) <=? 8) with (len (h :: H) <=? 8)
      by (f_equal; lia).
    replace (8 - 0 - len (h :: H)) with (8 - len (h :: H)) by lia.
    revert E. destruct (Z.leb_spec (len (h :: H)) 8) as [Le | Gt]; intros E.
    + apply (parseIPv6_of_extend _ _ true); [| |exact E].
      * apply (forallb_zero_groups [] (h :: H)); [reflexivity | exact Vh].
      * pose proof (len_zero_groups [] (h :: H)) as L.
        change (len (@nil gostring)) with 0 in L. cbn [app] in L.
        replace (8 - 0 - len (h :: H)) with (8 - len (h :: H)) in L by lia.
        apply L. lia.
    + unfold parseIPv6. rewrite E. reflexivity.
  - change (strings.Join [] colon) with (@nil ascii). rewrite !app_nil_r.
    assert (F : firstSep (strings.Join (g :: G) colon ++ dcolon) = Some ":"%char).
    { cbn [forallb] in Vg. apply andb_true_iff in Vg as [Vg0 _].
      unfold colon, dcolon. change (str "::") with [":"%char; ":"%char].
      change (str ":") with [":"%char]. apply firstSep_Join, Vg0. }
    rewrite ParseIp_colon by exact F.
    pose proof (extendIPv6_trailing g G Vg) as E.
    change (len (@nil gostring)) with 0.
    replace (len (g :: G) + 0 <=? 8) with (len (g :: G) <=? 8)
      by (f_equal; lia).
    replace (8 - len (g :: G) - 0) with (8 - len (g :: G)) by lia.
    revert E. destruct (Z.leb_spec (len (g :: G)) 8) as [Le | Gt]; intros E.
    + apply (parseIPv6_of_extend _ _ true); [| |exact E].
      * pose proof (forallb_zero_groups (g :: G) []
                      (Z.to_nat (8 - len (g :: G))) Vg eq_refl) as V.
        rewrite app_nil_r in V. exact V.
      * pose proof (len_zero_groups (g :: G) []) as L.
        change (len (@nil gostring)) with 0 in L. rewrite app_nil_r in L.
        replace (8 - len (g :: G) - 0) with (8 - len (g :: G)) in L by lia.
        apply L. lia.
    + unfold parseIPv6. rewrite E. reflexivity.
  - assert (F : firstSep (strings.Join (g :: G) colon ++ dcolon
                          ++ strings.Join (h :: H) colon) = Some ":"%char).
    { cbn [forallb] in Vg. apply andb_true_iff in Vg as [Vg0 _].
      unfold colon, dcolon. change (str "::") with [":"%char; ":"%char].
      change (str ":") with [":"%char]. apply firstSep_Join, Vg0. }
    rewrite ParseIp_colon by exact F.
    pose proof (extendIPv6_inner g h G H Vg Vh) as E.
    revert E.
    destruct (Z.leb_spec (len (g :: G) + len (h :: H)) 8) as [Le | Gt];
      intros E.
    + apply (parseIPv6_of_extend _ _ true); [| |exact E].
      * apply forallb_zero_groups; assumption.
      * apply len_zero_groups, Le.
    + unfold parseIPv6. rewrite E. reflexivity.
Qed.

(** X19.  One "::" stands for the zero groups that are missing: for valid
    groups [gs] before and [hs] behind it (either may be empty, so "::",
    "::1", "fe80::" are covered), eight at most together, ParseIp returns
    the address of [gs], 8 - |gs| - |hs| zero groups and [hs].  With
    exactly eight explicit groups the "::" stands for no group at all. *)
Theorem ParseIp_compressed (gs hs : list gostring) :
  forallb validGroup gs = true -> forallb validGroup hs = true ->
  (List.length gs + List.length hs <= 8)%nat ->
  ParseIp (strings.Join gs colon ++ dcolon ++ strings.Join hs colon) =
  Val (V6 (mkIPv6Address
             (flat_map groupBytes
                (gs ++ repeat (str "0") (8 - List.length gs - List.length hs)
                    ++ hs)))).
Proof.
  intros Vg Vh L. rewrite (ParseIp_compressed_cases gs hs Vg Vh).
  replace (len gs + len hs <=? 8) with true by (unfold len; lia).
  rewrite flat_map_zero_groups.
  replace (Z.to_nat (8 - len gs - len hs))
    with (8 - List.length gs - List.length hs)%nat by (unfold len; lia).
  reflexivity.
Qed.

Lemma ParseIp_compressed_witness :
  ParseIp (str "2001:db8::50") =
    Val (V6 (mkIPv6Address
               [32; 1; 13; 184; 0; 0; 0; 0; 0; 0; 0; 0; 0; 0; 0; 80])) /\
  ParseIp (str "::1") =
    Val (V6 (mkIPv6Address [0; 0; 0; 0; 0; 0; 0; 0; 0; 0; 0; 0; 0; 0; 0; 1])) /\
  ParseIp (str "fe80::") =
    Val (V6 (mkIPv6Address
               [254; 128; 0; 0; 0; 0; 0; 0; 0; 0; 0; 0; 0; 0; 0; 0])) /\
  ParseIp (str "1:2:3:4::5:6:7:8") =
    Val (V6 (mkIPv6Address [0; 1; 0; 2; 0; 3; 0; 4; 0; 5; 0; 6; 0; 7; 0; 8])).
Proof.
  split; [|split; [|split]].
  - apply (ParseIp_compressed [str "2001"; str "db8"] [str "50"]);
      [reflexivity | reflexivity | cbn; lia].
  - apply (ParseIp_compressed [] [str "1"]);
      [reflexivity | reflexivity | cbn; lia].
  - apply (ParseIp_compressed [str "fe80"] []);
      [reflexivity | reflexivity | cbn; lia].
  - apply (ParseIp_compressed [str "1"; str "2"; str "3"; str "4"]
                              [str "5"; str "6"; str "7"; str "8"]);
      [reflexivity | reflexivity | cbn; lia].
Defined.

(** X20.  With more than eight valid groups around the "::" the number of
    groups to add is negative and strings.Repeat panics: ParseIp does not
    return at all. *)
Theorem ParseIp_compressed_too_many_groups (gs hs : list gostring) :
  forallb validGroup gs = true -> forallb validGroup hs = true ->
  (8 < List.length gs + List.length hs)%nat ->
  ParseIp (strings.Join gs colon ++ dcolon ++ strings.Join hs colon) = Panic.
Proof.
  intros Vg Vh L. rewrite (ParseIp_compressed_cases gs hs Vg Vh).
  replace (len gs + len hs <=? 8) with false by (unfold len; lia).
  reflexivity.
Qed.

Lemma ParseIp_compressed_too_many_groups_witness :
  ParseIp (str "::1:2:3:4:5:6:7:8:9") = Panic.
Proof.
  apply (ParseIp_compressed_too_many_groups
           [] [str "1"; str "2"; str "3"; str "4"; str "5"; str "6"; str "7";
               str "8"; str "9"]);
    [reflexivity | reflexivity | cbn; lia].
Defined.

(** ** What extendIPv6 returns *)

Lemma Split_sepFree (x : ascii) (s : gostring) :
  Forall (sepFree x) (strings.Split s [x]).
Proof.
  unfold strings.Split. induction s as [|c s IH].
  - repeat constructor. intros [].
  - cbn [strings.splitFrom]. rewrite HasPrefix_single.
    destruct (Ascii.eqb_spec c x) as [-> | N].
    + constructor; [intros [] | exact IH].
    + destruct (strings.splitFrom [x] 0 s) as [|h t].
      * repeat constructor. intros [E | []]. congruence.
      * inversion IH as [|? ? Hh Ht]; subst. constructor; [|exact Ht].
        intros [E | Hin]; [congruence | exact (Hh Hin)].
Qed.

Lemma Split_nonempty (x : ascii) (s : gostring) : strings.Split s [x] <> [].
Proof.
  unfold strings.Split. destruct s as [|c s]; [discriminate|].
  cbn [strings.splitFrom]. destruct (strings.HasPrefix _ _); [discriminate|].
  destruct (strings.splitFrom [x] 0 s); discriminate.
Qed.

Lemma padBlocks_inv (B B' : list gostring) :
  padBlocks B = Val B' ->
  B' = map padGroup B /\ Forall (fun b => len b <= 4) B.
Proof.
  revert B'; induction B as [|b B IH]; intros B'; cbn [padBlocks].
  - intros [= <-]. split; [reflexivity | constructor].
  - destruct (Z.ltb_spec 4 (len b)) as [L | L]; [discriminate|].
    destruct (padBlocks B) as [R| |]; cbn [bind]; try discriminate.
    intros [= <-]. destruct (IH R eq_refl) as [-> F].
    split; [reflexivity | constructor; assumption].
Qed.

Lemma padAndJoin_four (u t : gostring) :
  padAndJoin u = Val t ->
  Forall (fun b => len b = 4) (strings.Split t colon).
Proof.
  unfold padAndJoin, colon. change (str ":") with [":"%char].
  destruct (padBlocks (strings.Split u [":"%char])) as [B'| |] eqn:E;
    cbn [bind]; try discriminate.
  intros [= <-]. apply padBlocks_inv in E as [-> F].
  pose proof (Split_sepFree ":" u) as S.
  pose proof (Split_nonempty ":" u) as N.
  set (B := strings.Split u [":"%char]) in *.
  rewrite Split_Join.
  - apply Forall_forall. intros b' Hb'. apply in_map_iff in Hb' as (b & <- & Hb).
    rewrite Forall_forall in F. specialize (F b Hb).
    rewrite padGroup_zeros, len_app. unfold len at 1. rewrite repeat_length.
    pose proof (len_nonneg b). lia.
  - destruct B; [absurd_nil | discriminate].
  - apply Forall_forall. intros b' Hb'. apply in_map_iff in Hb' as (b & <- & Hb).
    rewrite Forall_forall in S. specialize (S b Hb).
    rewrite padGroup_zeros. intros Hin. apply in_app_or in Hin as [Hin | Hin].
    + apply repeat_spec in Hin. discriminate Hin.
    + exact (S Hin).
Qed.

(** X21.  What the comment of extendIPv6 promises: when it returns a text,
    every colon-separated group of that text has exactly four characters
    (an empty group of the input has become "0000"). *)
Theorem extendIPv6_groups_of_four (s t : gostring) :
  extendIPv6 s = Val t ->
  Forall (fun b => len b = 4) (strings.Split t colon).
Proof.
  unfold extendIPv6.
  destruct (1 <? _); [discriminate|].
  destruct (strings.Contains s dcolon); [|apply padAndJoin_four].
  destruct (streq s dcolon).
  - intros [= <-]. vm_compute. repeat constructor.
  - destruct (extendMiddle s) as [s1| |]; cbn [bind]; try discriminate.
    destruct (extendPrefix s1) as [s2| |]; cbn [bind]; try discriminate.
    destruct (extendSuffix s2) as [s3| |]; cbn [bind]; try discriminate.
    apply padAndJoin_four.
Qed.

Lemma extendIPv6_groups_of_four_witness :
  Forall (fun b => len b = 4)
         (strings.Split (str "0001:0002:0003:0004:0005:0006:0007:0000") colon).
Proof.
  exact (extendIPv6_groups_of_four (str "1:2:3:4:5:6:7:") _ eq_refl).
Defined.

(** ** Two compressions *)

Lemma countPair_Join_any (G : list gostring) (t : gostring) :
  Forall (cell ":") G ->
  strings.countFrom [":"%char; ":"%char] 0 (strings.Join G [":"%char] ++ t) =
  strings.countFrom [":"%char; ":"%char] 0 t.
Proof.
  intros C. destruct G as [|g G]; [reflexivity|].
  apply countPair_Join; [discriminate | exact C].
Qed.

(** X23.  A second "::" is refused: valid groups (or none) before, between
    and behind two "::" always give ErrInvalidIP, never a panic. *)
Theorem ParseIp_two_compressions (gs ms hs : list gostring) :
  forallb validGroup gs = true -> forallb validGroup ms = true ->
  forallb validGroup hs = true ->
  ParseIp (strings.Join gs colon ++ dcolon ++ strings.Join ms colon
           ++ dcolon ++ strings.Join hs colon) = Fail ErrInvalidIP.
Proof.
  intros Vg Vm Vh.
  pose proof (validGroups_cells _ Vg) as Cg.
  pose proof (validGroups_cells _ Vm) as Cm.
  pose proof (validGroups_cells _ Vh) as Ch.
  set (s := strings.Join gs colon ++ dcolon ++ strings.Join ms colon
            ++ dcolon ++ strings.Join hs colon).
  assert (F : firstSep s = Some ":"%char).
  { unfold s. destruct gs as [|g G]; [reflexivity|].
    cbn [forallb] in Vg. apply andb_true_iff in Vg as [Vg0 _].
    unfold colon, dcolon. change (str "::") with [":"%char; ":"%char].
    change (str ":") with [":"%char]. apply firstSep_Join, Vg0. }
  rewrite (ParseIp_colon s F). unfold parseIPv6, extendIPv6.
  assert (C : strings.Count s dcolon = 2).
  { unfold strings.Count, s, colon, dcolon.
    change (str "::") with [":"%char; ":"%char].
    change (str ":") with [":"%char]. cbn [app].
    rewrite countPair_Join_any by exact Cg. rewrite countPair_pair.
    rewrite countPair_Join_any by exact Cm. rewrite countPair_pair.
    rewrite countPair_cells by exact Ch. reflexivity. }
  rewrite C. reflexivity.
Qed.

Lemma ParseIp_two_compressions_witness :
  ParseIp (str "1::2::3") = Fail ErrInvalidIP /\
  ParseIp (str "::::") = Fail ErrInvalidIP.
Proof.
  split.
  - exact (ParseIp_two_compressions [str "1"] [str "2"] [str "3"]
             eq_refl eq_refl eq_refl).
  - exact (ParseIp_two_compressions [] [] [] eq_refl eq_refl eq_refl).
Defined.

(** ** Match on what the parsers produce *)

Lemma parseIPv6Pattern_address (s : gostring) (p : IPv6Pattern) :
  parseIPv6Pattern s = Val (PatV6 p) ->
  ParseIp (ipPartOf s) = Val (V6 (Pat6_IP p)).
Proof.
  unfold parseIPv6Pattern.
  destruct (ParseIp (ipPartOf s)) as [ip| |]; cbn [bind]; try discriminate.
  destruct (maskLoop _ 0 128) as [bounds| |]; cbn [bind]; try discriminate.
  destruct ip as [a|a]; cbn [assertIPv6 bind]; [|discriminate].
  intros [= <-]. reflexivity.
Qed.

(** X24.  Match on a compiled IPv6 pattern and a parsed candidate: an IPv4
    candidate gives false; for an IPv6 candidate the bytes at the indices
    MaskStart .. min(MaskEnd, 16) - 1 are compared, a difference gives
    false, and without one the answer is true if MaskEnd <= 16 or the range
    is empty, a panic otherwise.  So "/m" and "/-m" act on byte indices, and
    a pattern with MaskEnd above 16 (no mask, for one) never answers
    true. *)
Theorem Match_on_compiled_pattern
        (s c : gostring) (p : IPv6Pattern) (ip : IPAddress) :
  ParsePattern s = Val (PatV6 p) -> ParseIp c = Val ip ->
  Match (PatV6 p) ip =
  match ip with
  | V4 _ => Val false
  | V6 a =>
      if bytesAgreeFrom (IP6 a) (IP6 (Pat6_IP p)) (MaskStart p)
           (Z.to_nat (Z.min (MaskEnd p) 16 - MaskStart p))
      then if (MaskStart p <? MaskEnd p) && (16 <? MaskEnd p) then Panic
           else Val true
      else Val false
  end.
Proof.
  intros Hp Hc. destruct ip as [a|a]; [|reflexivity].
  cbn [Match]. apply ParsePattern_V6_inv in Hp.
  pose proof (parseIPv6Pattern_address s p Hp) as Ha.
  apply parseIPv6Pattern_inv in Hp as (vs & Hvs & _ & Es).
  pose proof (maskStartOf_range vs (maskValues_range _ _ Hvs)) as Rs.
  apply ParseIp_V6_len in Ha. apply ParseIp_V6_len in Hc.
  apply Match6_cases; [exact Hc | exact Ha | lia].
Qed.

Lemma Match_on_compiled_pattern_witness :
  Match (PatV6 (mkIPv6Pattern
                  (mkIPv6Address
                     [254; 128; 0; 0; 0; 0; 0; 0; 0; 0; 0; 0; 0; 0; 0; 0])
                  10 0))
        (V6 (mkIPv6Address
               [254; 128; 0; 0; 0; 0; 0; 0; 0; 0; 171; 205; 0; 0; 0; 1])) =
  Val true.
Proof.
  exact (Match_on_compiled_pattern (str "fe80::/10") (str "fe80::abcd:0:1")
           _ _ eq_refl eq_refl).
Defined.

(** X25.  In an IPv4 text a byte that is not a decimal digit, anywhere but
    in the sign position of an octet, makes parseIPv4 return ErrInvalidIP. *)
Theorem parseIPv4_non_digit_fails (ip b : gostring) (c : ascii) :
  In b (strings.Split ip (str ".")) ->
  In c (unsignedPart b) -> isDigit c = false ->
  parseIPv4 ip = Fail ErrInvalidIP.
Proof.
  intros Hb Hc Hd. exact (parseIPv4_rejects_non_digit ip b c Hb Hc Hd).
Qed.

Lemma parseIPv4_non_digit_fails_witness :
  parseIPv4 (str "10.0.0.1a") = Fail ErrInvalidIP.
Proof.
  apply (parseIPv4_non_digit_fails (str "10.0.0.1a") (str "1a") "a").
  - vm_compute. do 3 right. left. reflexivity.
  - vm_compute. right. left. reflexivity.
  - reflexivity.
Defined.

(** ** Upper and lower case *)

Lemma hexDigit_lowerHex (c : ascii) : hexDigit (lowerHex c) = hexDigit c.
Proof.
  destruct c as [b0 b1 b2 b3 b4 b5 b6 b7].
  destruct b0, b1, b2, b3, b4, b5, b6, b7; reflexivity.
Qed.

Lemma hexToBytes_loop_lowerHex (s : gostring) (i : nat) (b : list Z) :
  hexToBytes_loop (map lowerHex s) i b = hexToBytes_loop s i b.
Proof.
  revert i b; induction s as [|c s IH]; intros i b; [reflexivity|].
  cbn [map hexToBytes_loop]. rewrite hexDigit_lowerHex.
  destruct (hexDigit c); [apply IH | reflexivity].
Qed.

(** X22.  hexToBytes does not tell upper case from lower case: writing the
    digits A..F in lower case changes neither the bytes nor the error. *)
Theorem hexToBytes_case_insensitive (s : gostring) :
  hexToBytes (map lowerHex s) = hexToBytes s.
Proof.
  unfold hexToBytes.
  assert (L : len (map lowerHex s) = len s)
    by (unfold len; rewrite length_map; reflexivity).
  rewrite L, hexToBytes_loop_lowerHex. reflexivity.
Qed.

Ltac all_bytes c :=
  let b0 := fresh in let b1 := fresh in let b2 := fresh in
  let b3 := fresh in let b4 := fresh in let b5 := fresh in
  let b6 := fresh in let b7 := fresh in
  destruct c as [b0 b1 b2 b3 b4 b5 b6 b7];
  destruct b0, b1, b2, b3, b4, b5, b6, b7; reflexivity.

Lemma caseFixed_colon : caseFixed ":".
Proof. intros c. all_bytes c. Qed.

Lemma caseFixed_dot : caseFixed ".".
Proof. intros c. all_bytes c. Qed.

Lemma caseFixed_slash : caseFixed "/".
Proof. intros c. all_bytes c. Qed.

Lemma caseFixed_minus : caseFixed "-".
Proof. intros c. all_bytes c. Qed.

Lemma caseFixed_plus : caseFixed "+".
Proof. intros c. all_bytes c. Qed.

Lemma isDigit_lowerHex (c : ascii) : isDigit (lowerHex c) = isDigit c.
Proof. all_bytes c. Qed.

Lemma digit_lowerHex (c : ascii) :
  code (lowerHex c) - code "0" =
  if isDigit c then code c - code "0" else code (lowerHex c) - code "0".
Proof. all_bytes c. Qed.

Lemma HasPrefix_lower (p : gostring) (Hp : Forall caseFixed p) (s : gostring) :
  strings.HasPrefix (map lowerHex s) p = strings.HasPrefix s p.
Proof.
  revert s. induction Hp as [|x q Hx Hq IH]; intros s; [reflexivity|].
  destruct s as [|c s]; [reflexivity|].
  cbn [map strings.HasPrefix]. rewrite Hx, IH. reflexivity.
Qed.

Lemma streq_lower (p : gostring) (Hp : Forall caseFixed p) (s : gostring) :
  streq (map lowerHex s) p = streq s p.
Proof.
  revert s. induction Hp as [|x q Hx Hq IH]; intros s.
  - destruct s; reflexivity.
  - destruct s as [|c s]; [reflexivity|].
    cbn [map streq]. rewrite Hx, IH. reflexivity.
Qed.

Lemma Index_lower_case (p : gostring) (Hp : Forall caseFixed p) (s : gostring) :
  strings.Index (map lowerHex s) p = strings.Index s p.
Proof.
  induction s as [|c s IH].
  - change (map lowerHex []) with (@nil ascii). reflexivity.
  - change (map lowerHex (c :: s)) with (lowerHex c :: map lowerHex s).
    cbn [strings.Index].
    change (lowerHex c :: map lowerHex s) with (map lowerHex (c :: s)).
    rewrite (HasPrefix_lower p Hp), IH. reflexivity.
Qed.

Lemma countFrom_lower (p : gostring) (Hp : Forall caseFixed p) (k : nat)
      (s : gostring) :
  strings.countFrom p k (map lowerHex s) = strings.countFrom p k s.
Proof.
  revert k; induction s as [|c s IH]; intros k; [reflexivity|].
  cbn [map strings.countFrom]. destruct k as [|k]; [|apply IH].
  change (lowerHex c :: map lowerHex s) with (map lowerHex (c :: s)).
  rewrite (HasPrefix_lower p Hp), !IH. reflexivity.
Qed.

Lemma splitFrom_lower (p : gostring) (Hp : Forall caseFixed p) (k : nat)
      (s : gostring) :
  strings.splitFrom p k (map lowerHex s) =
  map (map lowerHex) (strings.splitFrom p k s).
Proof.
  revert k; induction s as [|c s IH]; intros k; [reflexivity|].
  cbn [map strings.splitFrom]. destruct k as [|k]; [|apply IH].
  change (lowerHex c :: map lowerHex s) with (map lowerHex (c :: s)).
  rewrite (HasPrefix_lower p Hp), !IH.
  destruct (strings.HasPrefix (c :: s) p); [reflexivity|].
  destruct (strings.splitFrom p 0 s); reflexivity.
Qed.

Lemma len_map_lower (s : gostring) : len (map lowerHex s) = len s.
Proof. unfold len. rewrite length_map. reflexivity. Qed.

Lemma HasSuffix_lower (p : gostring) (Hp : Forall caseFixed p) (s : gostring) :
  strings.HasSuffix (map lowerHex s) p = strings.HasSuffix s p.
Proof.
  unfold strings.HasSuffix, sliceFrom.
  rewrite len_map_lower, skipn_map, (streq_lower p Hp). reflexivity.
Qed.

Lemma fixed_colon : Forall caseFixed colon.
Proof. repeat constructor. apply caseFixed_colon. Qed.

Lemma fixed_dcolon : Forall caseFixed dcolon.
Proof. repeat constructor; apply caseFixed_colon. Qed.

Lemma fixed_dot : Forall caseFixed (str ".").
Proof. repeat constructor. apply caseFixed_dot. Qed.

Lemma fixed_slash : Forall caseFixed slash.
Proof. repeat constructor. apply caseFixed_slash. Qed.

Lemma Join_lower (blocks : list gostring) (sep : gostring) :
  map lowerHex sep = sep ->
  strings.Join (map (map lowerHex) blocks) sep =
  map lowerHex (strings.Join blocks sep).
Proof.
  intros Hs. induction blocks as [|b blocks IH]; [reflexivity|].
  destruct blocks as [|b' blocks]; [reflexivity|].
  change (strings.Join (map (map lowerHex) (b :: b' :: blocks)) sep)
    with (map lowerHex b ++ sep
          ++ strings.Join (map (map lowerHex) (b' :: blocks)) sep).
  rewrite IH.
  change (strings.Join (b :: b' :: blocks) sep)
    with (b ++ sep ++ strings.Join (b' :: blocks) sep).
  rewrite !map_app, Hs. reflexivity.
Qed.

Lemma concat_repeat_lower (z : gostring) (k : nat) :
  map lowerHex z = z ->
  map lowerHex (List.concat (repeat z k)) = List.concat (repeat z k).
Proof.
  intros Hz. induction k as [|k IH]; [reflexivity|].
  cbn [repeat List.concat]. rewrite map_app, Hz, IH. reflexivity.
Qed.

Lemma Repeat_lower (z : gostring) (n : Z) :
  map lowerHex z = z ->
  mapVal (map lowerHex) (strings.Repeat z n) = strings.Repeat z n.
Proof.
  intros Hz. unfold strings.Repeat. destruct (n <? 0); [reflexivity|].
  cbn [mapVal]. rewrite concat_repeat_lower by exact Hz. reflexivity.
Qed.

Lemma mapVal_bind {A B C : Type} (g : B -> C) (m : go A) (k : A -> go B) :
  mapVal g (bind m k) = bind m (fun a => mapVal g (k a)).
Proof. destruct m; reflexivity. Qed.

Lemma bind_mapVal {A B C : Type} (g : A -> B) (m : go A) (k : B -> go C) :
  bind (mapVal g m) k = bind m (fun a => k (g a)).
Proof. destruct m; reflexivity. Qed.

Lemma bind_ext {A B : Type} (m : go A) (k k' : A -> go B) :
  (forall a, k a = k' a) -> bind m k = bind m k'.
Proof. intros H. destruct m; cbn [bind]; auto. Qed.

Lemma padBlocks_lower (blocks : list gostring) :
  padBlocks (map (map lowerHex) blocks) =
  mapVal (map (map lowerHex)) (padBlocks blocks).
Proof.
  induction blocks as [|b blocks IH]; [reflexivity|].
  cbn [map padBlocks]. rewrite len_map_lower.
  destruct (4 <? len b); [reflexivity|].
  rewrite IH. destruct (padBlocks blocks); cbn [bind mapVal map];
    try reflexivity.
  rewrite map_app, concat_repeat_lower by reflexivity. reflexivity.
Qed.

Lemma padAndJoin_lower (s : gostring) :
  padAndJoin (map lowerHex s) = mapVal (map lowerHex) (padAndJoin s).
Proof.
  unfold padAndJoin, strings.Split.
  rewrite (splitFrom_lower colon fixed_colon), padBlocks_lower.
  destruct (padBlocks _); cbn [bind mapVal]; try reflexivity.
  rewrite Join_lower by reflexivity. reflexivity.
Qed.

Lemma Count_lower (p s : gostring) :
  Forall caseFixed p ->
  strings.Count (map lowerHex s) p = strings.Count s p.
Proof. intros H. apply countFrom_lower, H. Qed.

Lemma Contains_lower (p s : gostring) :
  Forall caseFixed p ->
  strings.Contains (map lowerHex s) p = strings.Contains s p.
Proof.
  intros H. unfold strings.Contains. rewrite Index_lower_case by exact H.
  reflexivity.
Qed.

Lemma sliceTo_lower (s : gostring) (i : Z) :
  sliceTo (map lowerHex s) i = map lowerHex (sliceTo s i).
Proof. unfold sliceTo. apply firstn_map. Qed.

Lemma sliceFrom_lower (s : gostring) (i : Z) :
  sliceFrom (map lowerHex s) i = map lowerHex (sliceFrom s i).
Proof. unfold sliceFrom. apply skipn_map. Qed.

Lemma extendMiddle_lower (s : gostring) :
  extendMiddle (map lowerHex s) = mapVal (map lowerHex) (extendMiddle s).
Proof.
  unfold extendMiddle.
  rewrite (HasPrefix_lower dcolon fixed_dcolon),
    (HasSuffix_lower dcolon fixed_dcolon),
    (Index_lower_case dcolon fixed_dcolon), (Count_lower colon s fixed_colon).
  destruct (_ && _); [|reflexivity].
  rewrite sliceTo_lower, sliceFrom_lower.
  rewrite <- (Repeat_lower (str ":0000")) at 1 by reflexivity.
  destruct (strings.Repeat (str ":0000") _) as [added| |]; cbn [bind mapVal];
    try reflexivity.
  rewrite !map_app. reflexivity.
Qed.

Lemma extendPrefix_lower (s : gostring) :
  extendPrefix (map lowerHex s) = mapVal (map lowerHex) (extendPrefix s).
Proof.
  unfold extendPrefix.
  rewrite (HasPrefix_lower dcolon fixed_dcolon).
  destruct (strings.HasPrefix s dcolon); [|reflexivity].
  rewrite sliceFrom_lower, (Count_lower colon _ fixed_colon).
  rewrite <- (Repeat_lower (str "0000:")) at 1 by reflexivity.
  destruct (strings.Repeat (str "0000:") _) as [added| |]; cbn [bind mapVal];
    try reflexivity.
  rewrite !map_app. reflexivity.
Qed.

Lemma extendSuffix_lower (s : gostring) :
  extendSuffix (map lowerHex s) = mapVal (map lowerHex) (extendSuffix s).
Proof.
  unfold extendSuffix.
  rewrite (HasSuffix_lower dcolon fixed_dcolon).
  destruct (strings.HasSuffix s dcolon); [|reflexivity].
  rewrite len_map_lower, sliceTo_lower, (Count_lower colon _ fixed_colon).
  rewrite <- (Repeat_lower (str ":0000")) at 1 by reflexivity.
  destruct (strings.Repeat (str ":0000") _) as [added| |]; cbn [bind mapVal];
    try reflexivity.
  rewrite !map_app. reflexivity.
Qed.

Lemma extendIPv6_lower (s : gostring) :
  extendIPv6 (map lowerHex s) = mapVal (map lowerHex) (extendIPv6 s).
Proof.
  unfold extendIPv6.
  rewrite (Count_lower dcolon s fixed_dcolon),
    (Contains_lower dcolon s fixed_dcolon), (streq_lower dcolon fixed_dcolon).
  destruct (1 <? _); [reflexivity|].
  destruct (strings.Contains s dcolon); [|apply padAndJoin_lower].
  destruct (streq s dcolon); [reflexivity|].
  rewrite extendMiddle_lower.
  destruct (extendMiddle s) as [s1| |]; cbn [bind mapVal]; try reflexivity.
  rewrite extendPrefix_lower.
  destruct (extendPrefix s1) as [s2| |]; cbn [bind mapVal]; try reflexivity.
  rewrite extendSuffix_lower.
  destruct (extendSuffix s2) as [s3| |]; cbn [bind mapVal]; try reflexivity.
  apply padAndJoin_lower.
Qed.

Lemma hexToBytes_lower (s : gostring) :
  hexToBytes (map lowerHex s) = hexToBytes s.
Proof.
  unfold hexToBytes. rewrite len_map_lower, hexToBytes_loop_lowerHex.
  reflexivity.
Qed.

Lemma parseIPv6_loop_lower (blocks : list gostring) (i : nat)
      (ipBytes : list Z) :
  parseIPv6_loop (map (map lowerHex) blocks) i ipBytes =
  parseIPv6_loop blocks i ipBytes.
Proof.
  revert i ipBytes; induction blocks as [|b blocks IH]; intros i ipBytes;
    [reflexivity|].
  cbn [map parseIPv6_loop].
  rewrite (streq_lower [] (Forall_nil _)), len_map_lower, hexToBytes_lower.
  destruct (streq b []); [reflexivity|].
  destruct (4 <? len b); [reflexivity|].
  destruct (hexToBytes b); cbn [bind]; try reflexivity. apply IH.
Qed.

Lemma parseIPv6_lower (s : gostring) :
  parseIPv6 (map lowerHex s) = parseIPv6 s.
Proof.
  unfold parseIPv6. rewrite extendIPv6_lower.
  destruct (extendIPv6 s) as [t| |]; cbn [bind mapVal]; try reflexivity.
  cbv zeta. unfold strings.Split. rewrite (splitFrom_lower colon fixed_colon).
  rewrite parseIPv6_loop_lower. unfold len. rewrite length_map. reflexivity.
Qed.

Lemma unsignedPart_lower (b : gostring) :
  unsignedPart (map lowerHex b) = map lowerHex (unsignedPart b).
Proof.
  destruct b as [|c r]; [reflexivity|].
  cbn [map unsignedPart]. rewrite caseFixed_minus, caseFixed_plus.
  destruct (_ || _); reflexivity.
Qed.

Lemma forallb_isDigit_lower (ds : gostring) :
  forallb isDigit (map lowerHex ds) = forallb isDigit ds.
Proof.
  induction ds as [|c ds IH]; [reflexivity|].
  cbn [map forallb]. rewrite isDigit_lowerHex, IH. reflexivity.
Qed.

Lemma decimal_lower (ds : gostring) :
  forallb isDigit ds = true -> decimal (map lowerHex ds) = decimal ds.
Proof.
  unfold decimal. generalize 0.
  induction ds as [|c ds IH]; intros n H; [reflexivity|].
  cbn [forallb] in H. apply andb_true_iff in H as [Hc Hds].
  cbn [map fold_left]. rewrite digit_lowerHex, Hc. apply IH, Hds.
Qed.

Lemma isNegative_lower (b : gostring) :
  isNegative (map lowerHex b) = isNegative b.
Proof. destruct b as [|c r]; [reflexivity|]. apply caseFixed_minus. Qed.

Lemma octet_lower (b : gostring) : octet (map lowerHex b) = octet b.
Proof.
  unfold octet.
  rewrite unsignedPart_lower, !len_map_lower, forallb_isDigit_lower,
    isNegative_lower.
  destruct (forallb isDigit (unsignedPart b)) eqn:D.
  - rewrite decimal_lower by exact D. reflexivity.
  - rewrite !andb_false_r. reflexivity.
Qed.

Lemma parseIPv4_lower (s : gostring) :
  parseIPv4 (map lowerHex s) = parseIPv4 s.
Proof.
  rewrite !parseIPv4_octets. unfold strings.Split.
  rewrite (splitFrom_lower (str ".") fixed_dot).
  destruct (strings.splitFrom (str ".") 0 s) as [|b0 [|b1 [|b2 [|b3 [|b4 l]]]]];
    try reflexivity.
  cbn [map]. rewrite !octet_lower. reflexivity.
Qed.

Lemma firstSep_lower (s : gostring) :
  firstSep (map lowerHex s) = firstSep s.
Proof.
  induction s as [|c s IH]; [reflexivity|].
  cbn [map firstSep]. rewrite caseFixed_dot, caseFixed_colon.
  destruct (Ascii.eqb_spec c ".") as [-> | N1]; [reflexivity|].
  destruct (Ascii.eqb_spec c ":") as [-> | N2]; [reflexivity|].
  exact IH.
Qed.

Lemma ParseIp_lower (s : gostring) : ParseIp (map lowerHex s) = ParseIp s.
Proof.
  unfold ParseIp. rewrite !ParseIp_loop_firstSep, firstSep_lower.
  destruct (firstSep s) as [c|]; [|reflexivity].
  destruct (Ascii.eqb c "."); [apply parseIPv4_lower | apply parseIPv6_lower].
Qed.

(** X26.  ParseIp is case-insensitive on every input: writing the letters
    A..F of a text in lower case changes nothing, be the outcome an
    address, ErrInvalidIP or a panic. *)
Theorem ParseIp_case_insensitive (s : gostring) :
  ParseIp (map lowerHex s) = ParseIp s.
Proof. apply ParseIp_lower. Qed.

Lemma Atoi_lower (b : gostring) :
  strconv.Atoi (map lowerHex b) = strconv.Atoi b.
Proof.
  rewrite !Atoi_unsigned, unsignedPart_lower, isNegative_lower.
  destruct (unsignedPart b) as [|d ds] eqn:U; [reflexivity|].
  change (map lowerHex (d :: ds)) with (lowerHex d :: map lowerHex ds).
  cbv beta iota zeta.
  change (lowerHex d :: map lowerHex ds) with (map lowerHex (d :: ds)).
  rewrite forallb_isDigit_lower.
  destruct (forallb isDigit (d :: ds)) eqn:D; [|reflexivity].
  rewrite decimal_lower by exact D. reflexivity.
Qed.

Lemma maskLoop_lower (masks : list gostring) (maskStart maskEnd : Z) :
  maskLoop (map (map lowerHex) masks) maskStart maskEnd =
  maskLoop masks maskStart maskEnd.
Proof.
  revert maskStart maskEnd; induction masks as [|m masks IH];
    intros maskStart maskEnd; [reflexivity|].
  cbn [map maskLoop].
  rewrite (streq_lower [] (Forall_nil _)), Atoi_lower.
  destruct (streq m []); [apply IH|].
  destruct (strconv.Atoi m) as [v|]; [|reflexivity].
  destruct (_ || _); [reflexivity | apply IH].
Qed.

Lemma ipPartOf_lower (s : gostring) :
  ipPartOf (map lowerHex s) = map lowerHex (ipPartOf s).
Proof.
  unfold ipPartOf.
  rewrite (Contains_lower slash s fixed_slash),
    (Index_lower_case slash fixed_slash).
  destruct (strings.Contains s slash); [apply sliceTo_lower | reflexivity].
Qed.

Lemma maskPartOf_lower (s : gostring) :
  maskPartOf (map lowerHex s) = map lowerHex (maskPartOf s).
Proof.
  unfold maskPartOf.
  rewrite (Contains_lower slash s fixed_slash),
    (Index_lower_case slash fixed_slash).
  destruct (strings.Contains s slash); [apply sliceFrom_lower | reflexivity].
Qed.

Lemma parseIPv6Pattern_lower (s : gostring) :
  parseIPv6Pattern (map lowerHex s) = parseIPv6Pattern s.
Proof.
  unfold parseIPv6Pattern.
  rewrite ipPartOf_lower, ParseIp_lower, maskPartOf_lower.
  unfold strings.Split. rewrite (splitFrom_lower slash fixed_slash).
  rewrite maskLoop_lower. reflexivity.
Qed.

(** X27.  ParsePattern is case-insensitive as well: lower-casing the
    letters A..F of a pattern string gives the same pattern, the same
    error or the same panic. *)
Theorem ParsePattern_case_insensitive (s : gostring) :
  ParsePattern (map lowerHex s) = ParsePattern s.
Proof.
  unfold ParsePattern. rewrite !ParsePattern_loop_firstSep, firstSep_lower.
  destruct (firstSep s) as [c|]; [|reflexivity].
  destruct (Ascii.eqb c "."); [reflexivity | apply parseIPv6Pattern_lower].
Qed.
